(** * PageRank (PSETs/PSET2/pagerank/pagerank.py): a shallow embedding

    The ranking engine of [pagerank.py] is embedded function by function:
    [transition_model], [cdf], [choice], [sample_pagerank], [is_converged]
    and [iterate_pagerank].

    Modelling decisions.
    - In the embedding of the ranking functions Python floats are exact
      rationals ([Q], compared with [==]): those statements are about the
      arithmetic the code writes down, not about IEEE rounding.
    - The sampler ([cdf], [choice]) is embedded a second time, in
      [Float64], over binary64 floats (the kernel's [PrimFloat]: IEEE 754
      with round-to-nearest-even, [inf] and [nan]).  Whether [choice]
      returns an element or raises depends on overflow and on the exact
      value of the last cumulative quotient, which the rationals do not
      show; the statements about when the sampler returns and when it
      fails are made on [Float64].
    - A Python [dict] is an association list in insertion order (the order
      is observable through [list(model.keys())] in [sample_pagerank]).
    - A Python [set] is the list of its elements in iteration order, without
      duplicates.  Python leaves that order unspecified; no theorem depends
      on the order the model picks.
    - Exceptions are values of [exn]; fallible code lives in [result].
      Division follows Python's numbers: a zero divisor raises
      [ZeroDivisionError].  (Elementwise division of a numpy array never
      raises; the arrays of lines 66, 67 and 130 are divided by their own
      length and are empty when it is 0.)
    - [np.float] is numpy's former alias of Python's [float].
    - The random source is explicit: [random.choice(keys)] receives the
      integer its index is drawn from, [random.random()] the successive
      values it returns. *)

From Stdlib Require Import String List Bool Arith ZArith Lia QArith Qabs Lqa Permutation.
From Stdlib Require Import Floats.
Import ListNotations.

Local Open Scope Q_scope.

(** ** Exceptions and the error monad *)

Inductive exn : Set :=
| KeyError
| IndexError
| AssertionError
| ZeroDivisionError.

Inductive result (A : Type) : Type :=
| Ok (a : A)
| Raise (e : exn).

Arguments Ok {A} a.
Arguments Raise {A} e.

Definition bind {A B : Type} (c : result A) (k : A -> result B) : result B :=
  match c with
  | Ok a => k a
  | Raise e => Raise e
  end.

Notation "x <- c ;; k" := (bind c (fun x => k))
  (at level 61, c at next level, right associativity).

(** [for x in l: acc = body(acc, x)], where the body may raise. *)
Fixpoint for_each {A S : Type} (body : S -> A -> result S) (l : list A) (acc : S)
  : result S :=
  match l with
  | [] => Ok acc
  | x :: l' => acc' <- body acc x ;; for_each body l' acc'
  end.

(** A list comprehension [[f(x) for x in l]] whose element expression may raise. *)
Fixpoint comprehension {A B : Type} (f : A -> result B) (l : list A) : result (list B) :=
  match l with
  | [] => Ok []
  | x :: l' => y <- f x ;; ys <- comprehension f l' ;; Ok (y :: ys)
  end.

(** ** Pages, sets and dicts *)

Definition page : Set := string.

Definition set_mem (p : page) (s : list page) : bool := existsb (String.eqb p) s.

(** [s.add(p)] *)
Definition set_add (s : list page) (p : page) : list page :=
  if set_mem p s then s else s ++ [p].

(** [set(a) - set(b)] *)
Definition set_diff (a b : list page) : list page :=
  filter (fun p => negb (set_mem p b)) a.

Definition dict (V : Type) : Type := list (page * V).

Definition dict_keys {V : Type} (d : dict V) : list page := map fst d.
Definition dict_values {V : Type} (d : dict V) : list V := map snd d.

Fixpoint dict_get {V : Type} (d : dict V) (k : page) : option V :=
  match d with
  | [] => None
  | (k', v) :: d' => if String.eqb k' k then Some v else dict_get d' k
  end.

(** [d[k]] *)
Definition getitem {V : Type} (d : dict V) (k : page) : result V :=
  match dict_get d k with
  | Some v => Ok v
  | None => Raise KeyError
  end.

(** [d[k] = v]: an existing key keeps its position, a new key goes last. *)
Fixpoint dict_set {V : Type} (d : dict V) (k : page) (v : V) : dict V :=
  match d with
  | [] => [(k, v)]
  | (k', v') :: d' =>
      if String.eqb k' k then (k', v) :: d' else (k', v') :: dict_set d' k v
  end.

(** [dict(items)] *)
Definition dict_of_items {V : Type} (items : list (page * V)) : dict V :=
  fold_left (fun d kv => dict_set d (fst kv) (snd kv)) items [].

(** The value stored under a corpus key.  [crawl] stores a [set]; the
    comparison [direct_links == {}] of [transition_model] is against a
    [dict] literal, so the model keeps the two container types apart. *)
Inductive links : Set :=
| PySet (elems : list page)
| PyDict (keys : list page).

(** Iterating a set yields its elements, iterating a dict its keys. *)
Definition elements (v : links) : list page :=
  match v with
  | PySet l => l
  | PyDict l => l
  end.

(** [v == {}]: a set never equals a dict, an empty dict equals [{}]. *)
Definition eq_empty_dict (v : links) : bool :=
  match v with
  | PyDict [] => true
  | _ => false
  end.

Definition corpus_t : Type := dict links.

(** ** Numeric helpers *)

Definition Qnat (n : nat) : Q := inject_Z (Z.of_nat n).

Definition Qlt_bool (x y : Q) : bool := negb (Qle_bool y x).

(** [sum(l)]: left to right, starting from 0. *)
Definition py_sum (l : list Q) : Q := fold_left Qplus l 0.

(** [np.ones(n, dtype=np.float)] *)
Definition np_ones (n : nat) : list Q := repeat 1 n.

(** ** transition_model (lines 54-79) *)

Definition transition_model (corpus : corpus_t) (pg : page) (damping_factor : Q)
  : result (dict Q) :=
  let all_pages := dict_keys corpus in
  direct_links <- getitem corpus pg ;;
  if eq_empty_dict direct_links then
    Ok (dict_of_items
          (combine all_pages
             (map (fun o => o / Qnat (length all_pages)) (np_ones (length all_pages)))))
  else
    let direct_weights :=
      map (fun o => o / Qnat (length (elements direct_links)))
        (map (Qmult damping_factor) (np_ones (length (elements direct_links)))) in
    let output := dict_of_items (combine (elements direct_links) direct_weights) in
    let rest := set_diff all_pages (elements direct_links) in
    let output := fold_left (fun o p => dict_set o p 0) rest output in
    let addition := (1 - damping_factor) / Qnat (length all_pages) in
    let output := map (fun kv => (fst kv, snd kv + addition)) output in
    Ok output.

(** ** cdf and choice (lines 83-97) *)

Fixpoint cdf_loop (total cumsum : Q) (weights : list Q) : result (list Q) :=
  match weights with
  | [] => Ok []
  | w :: weights' =>
      let cumsum := cumsum + w in
      if Qeq_bool total 0 then Raise ZeroDivisionError
      else
        result <- cdf_loop total cumsum weights' ;;
        Ok (cumsum / total :: result)
  end.

Definition cdf (weights : list Q) : result (list Q) :=
  cdf_loop (py_sum weights) 0 weights.

(** [bisect.bisect(a, x)] is [bisect_right]: the loop
    [while lo < hi: mid = (lo+hi)//2; if x < a[mid]: hi = mid else: lo = mid+1]
    followed by [return lo].  [fuel] bounds the number of iterations;
    [hi - lo] of them always suffice ([bisect_loop_post]). *)
Fixpoint bisect_loop (fuel : nat) (a : list Q) (x : Q) (lo hi : nat) : nat :=
  match fuel with
  | O => lo
  | S fuel' =>
      if (lo <? hi)%nat then
        let mid := ((lo + hi) / 2)%nat in
        if Qlt_bool x (nth mid a 0)
        then bisect_loop fuel' a x lo mid
        else bisect_loop fuel' a x (S mid) hi
      else lo
  end.

Definition bisect (a : list Q) (x : Q) : nat :=
  bisect_loop (length a) a x 0 (length a).

(** [population[idx]] for a non-negative index. *)
Definition list_getitem {A : Type} (l : list A) (idx : nat) : result A :=
  match nth_error l idx with
  | Some a => Ok a
  | None => Raise IndexError
  end.

(** Lines 96-97, given the cumulative values and the draw. *)
Definition choice_at {A : Type} (population : list A) (cdf_vals : list Q) (x : Q)
  : result A :=
  let idx := bisect cdf_vals x in
  list_getitem population idx.

(** [x] is the value returned by [random.random()]. *)
Definition choice {A : Type} (population : list A) (weights : list Q) (x : Q)
  : result A :=
  if negb (length population =? length weights)%nat then Raise AssertionError
  else
    cdf_vals <- cdf weights ;;
    choice_at population cdf_vals x.

(** ** cdf and choice on binary64 floats (lines 83-97)

    The same two functions over the machine numbers Python computes
    with: [float] is IEEE 754 binary64 with round-to-nearest-even, signed
    zeros, [inf] and [nan].  [weights] is a list of Python floats.
    - [sum(weights)] starts from the integer 0 and adds the floats one at
      a time, left to right, each addition rounded ([0 + w] is [0.0 + w]).
      This is [sum] as CPython computes it up to version 3.11, the
      interpreters on which the [np.float] of lines 66, 67 and 130 still
      exists.  [cumsum] goes through the same additions, so the last
      running sum and [total] are the same float.
    - [cumsum / total] raises [ZeroDivisionError] when [total == 0.0]
      (either sign) and is the rounded IEEE quotient otherwise, also for
      an infinite or [nan] total.  (Values of type [np.float64] divide to
      [inf] or [nan] on a zero divisor instead of raising.)
    - [x < a[mid]] in [bisect.bisect] is the IEEE comparison: false
      whenever [a[mid]] is [nan]. *)

Module Float64.

Definition py_sum (l : list float) : float := fold_left PrimFloat.add l 0%float.

Fixpoint cdf_loop (total cumsum : float) (weights : list float) : result (list float) :=
  match weights with
  | [] => Ok []
  | w :: weights' =>
      let cumsum := (cumsum + w)%float in
      if (total =? 0)%float then Raise ZeroDivisionError
      else
        result <- cdf_loop total cumsum weights' ;;
        Ok ((cumsum / total)%float :: result)
  end.

Definition cdf (weights : list float) : result (list float) :=
  cdf_loop (py_sum weights) 0%float weights.

Fixpoint bisect_loop (fuel : nat) (a : list float) (x : float) (lo hi : nat) : nat :=
  match fuel with
  | O => lo
  | S fuel' =>
      if (lo <? hi)%nat then
        let mid := ((lo + hi) / 2)%nat in
        if (x <? nth mid a 0)%float
        then bisect_loop fuel' a x lo mid
        else bisect_loop fuel' a x (S mid) hi
      else lo
  end.

Definition bisect (a : list float) (x : float) : nat :=
  bisect_loop (length a) a x 0 (length a).

(** [x] is the value returned by [random.random()]. *)
Definition choice {A : Type} (population : list A) (weights : list float) (x : float)
  : result A :=
  if negb (length population =? length weights)%nat then Raise AssertionError
  else
    cdf_vals <- cdf weights ;;
    let idx := bisect cdf_vals x in
    list_getitem population idx.

End Float64.

(** ** sample_pagerank (lines 99-115) *)

(** [random.choice(seq)] is [seq[randbelow(len(seq))]] and raises
    [IndexError] on an empty sequence; [r] is the raw integer drawn. *)
Definition random_choice {A : Type} (seq : list A) (r : nat) : result A :=
  match seq with
  | [] => Raise IndexError
  | _ => list_getitem seq (r mod length seq)
  end.

(** [counts[page] += 1] on a [defaultdict(int)]. *)
Definition counts_incr (counts : dict nat) (pg : page) : dict nat :=
  dict_set counts pg
    (match dict_get counts pg with Some c => c | None => O end + 1)%nat.

(** One iteration of the loop of lines 111-114; [draws i] is the value
    [random.random()] returns in iteration [i]. *)
Definition sample_step (corpus : corpus_t) (damping_factor : Q) (draws : nat -> Q)
    (st : page * dict nat) (i : nat) : result (page * dict nat) :=
  model <- transition_model corpus (fst st) damping_factor ;;
  pg <- choice (dict_keys model) (dict_values model) (draws i) ;;
  Ok (pg, counts_incr (snd st) pg).

Definition sample_walk (corpus : corpus_t) (damping_factor : Q) (n : nat)
    (r : nat) (draws : nat -> Q) : result (page * dict nat) :=
  let keys := dict_keys corpus in
  pg <- random_choice keys r ;;
  for_each (sample_step corpus damping_factor draws) (seq 0 n) (pg, []).

Definition sample_pagerank (corpus : corpus_t) (damping_factor : Q) (n : nat)
    (r : nat) (draws : nat -> Q) : result (dict Q) :=
  st <- sample_walk corpus damping_factor n r draws ;;
  Ok (map (fun kv => (fst kv, Qnat (snd kv) / Qnat n)) (snd st)).

(** ** is_converged and iterate_pagerank (lines 117-148) *)

Definition EPSILON : Q := 1 # 1000.

(** [a / b] on Python numbers. *)
Definition py_div (a b : Q) : result Q :=
  if Qeq_bool b 0 then Raise ZeroDivisionError else Ok (a / b).

(** [sorted(d.items())]: the keys of a dict are distinct, so the order of
    the [(key, value)] tuples is the order of their keys. *)
Fixpoint insert_item {V : Type} (kv : page * V) (l : list (page * V)) : list (page * V) :=
  match l with
  | [] => [kv]
  | kv' :: l' =>
      if String.leb (fst kv) (fst kv') then kv :: l else kv' :: insert_item kv l'
  end.

Definition sorted {V : Type} (l : list (page * V)) : list (page * V) :=
  fold_right insert_item [] l.

Definition is_converged (prev_pr next_pr : dict Q) : result bool :=
  tests <- comprehension
             (fun kv => nv <- getitem next_pr (fst kv) ;;
                        Ok (Qle_bool (Qabs (nv - snd kv)) EPSILON))
             (sorted prev_pr) ;;
  Ok (forallb (fun b => b) tests).

(** Lines 131 and 133-135: the reverse index. *)
Definition reverse_add (k : page) (rc : dict (list page)) (pg : page)
  : result (dict (list page)) :=
  s <- getitem rc pg ;;
  Ok (dict_set rc pg (set_add s k)).

Definition build_reverse (corpus : corpus_t) (rc : dict (list page))
  : result (dict (list page)) :=
  for_each (fun rc kv => for_each (reverse_add (fst kv)) (elements (snd kv)) rc)
    corpus rc.

(** Lines 139-141: the inner loop over [reverse_corpus[k]]. *)
Definition inbound (corpus : corpus_t) (prev_pagerank : dict Q) (s : list page)
  : result Q :=
  for_each (fun tmp pg =>
              r <- getitem prev_pagerank pg ;;
              l <- getitem corpus pg ;;
              q <- py_div r (Qnat (length (elements l))) ;;
              Ok (tmp + q))
    s 0.

(** Lines 137-142: one sweep, before renormalisation. *)
Definition sweep (corpus : corpus_t) (damping_factor : Q)
    (reverse_corpus : dict (list page)) (random_val : Q) (prev_pagerank : dict Q)
  : result (dict Q) :=
  for_each (fun next_pagerank kv =>
              s <- getitem reverse_corpus (fst kv) ;;
              tmp <- inbound corpus prev_pagerank s ;;
              Ok (dict_set next_pagerank (fst kv) (random_val + damping_factor * tmp)))
    prev_pagerank [].

(** Lines 143-144. *)
Definition renormalize (next_pagerank : dict Q) : result (dict Q) :=
  let summ := py_sum (dict_values next_pagerank) in
  comprehension (fun kv => q <- py_div (snd kv) summ ;; Ok (fst kv, q)) next_pagerank.

(** The body of [while True] up to the convergence test. *)
Definition iteration (corpus : corpus_t) (damping_factor : Q)
    (reverse_corpus : dict (list page)) (random_val : Q) (prev_pagerank : dict Q)
  : result (dict Q * bool) :=
  next_pagerank <- sweep corpus damping_factor reverse_corpus random_val prev_pagerank ;;
  next_pagerank <- renormalize next_pagerank ;;
  c <- is_converged prev_pagerank next_pagerank ;;
  Ok (next_pagerank, c).

(** [while True]: [None] when [fuel] iterations did not reach the [break]. *)
Fixpoint iterate_loop (fuel : nat) (corpus : corpus_t) (damping_factor : Q)
    (reverse_corpus : dict (list page)) (random_val : Q) (prev_pagerank : dict Q)
  : option (result (dict Q)) :=
  match fuel with
  | O => None
  | S fuel' =>
      match iteration corpus damping_factor reverse_corpus random_val prev_pagerank with
      | Raise e => Some (Raise e)
      | Ok (next_pagerank, true) => Some (Ok prev_pagerank)
      | Ok (next_pagerank, false) =>
          iterate_loop fuel' corpus damping_factor reverse_corpus random_val next_pagerank
      end
  end.

(** Lines 129-135: everything before the loop. *)
Definition iterate_init (corpus : corpus_t) (damping_factor : Q)
  : result (dict Q * dict (list page) * Q) :=
  let keys := dict_keys corpus in
  let prev_pagerank :=
    dict_of_items
      (combine keys (map (fun o => o / Qnat (length keys)) (np_ones (length keys)))) in
  let reverse_corpus := map (fun k => (k, @nil page)) keys in
  random_val <- py_div (1 - damping_factor) (Qnat (length keys)) ;;
  reverse_corpus <- build_reverse corpus reverse_corpus ;;
  Ok (prev_pagerank, reverse_corpus, random_val).

Definition iterate_pagerank (fuel : nat) (corpus : corpus_t) (damping_factor : Q)
  : option (result (dict Q)) :=
  match iterate_init corpus damping_factor with
  | Raise e => Some (Raise e)
  | Ok (prev_pagerank, reverse_corpus, random_val) =>
      iterate_loop fuel corpus damping_factor reverse_corpus random_val prev_pagerank
  end.

(** ** Well-formed inputs, as boolean tests *)

Fixpoint nodupb (l : list page) : bool :=
  match l with
  | [] => true
  | p :: l' => negb (set_mem p l') && nodupb l'
  end.

Definition subsetb (a b : list page) : bool := forallb (fun p => set_mem p b) a.

(** Representation invariant of the containers: the keys of a dict and the
    elements of a set are pairwise distinct. *)
Definition well_formed (corpus : corpus_t) : bool :=
  nodupb (dict_keys corpus) && forallb (fun kv => nodupb (elements (snd kv))) corpus.

(** The Corpus invariant of the data model: every link target is a corpus key. *)
Definition corpus_invariant (corpus : corpus_t) : bool :=
  forallb (fun kv => subsetb (elements (snd kv)) (dict_keys corpus)) corpus.

(** ** crawl (lines 27-51) *)

(** [s.endswith(suffix)] *)
Definition endswith (s suffix : string) : bool :=
  (String.length suffix <=? String.length s)%nat
  && String.eqb
       (substring (String.length s - String.length suffix) (String.length suffix) s)
       suffix.

(** [set(iterable)] *)
Definition py_set (l : list page) : list page := fold_left set_add l [].

(** The directory as [crawl] reads it: for each name [os.listdir] returns,
    in that order, the list [re.findall] extracts from the contents of the
    file of that name. *)
Definition directory : Type := list (page * list page).

(** Lines 33-42: the first loop. *)
Definition crawl_extract (files : directory) : corpus_t :=
  fold_left
    (fun (pages : corpus_t) (fl : page * list page) =>
       if negb (endswith (fst fl) ".html") then pages
       else dict_set pages (fst fl) (PySet (set_diff (py_set (snd fl)) [fst fl])))
    files [].

(** Lines 46-49: the body of the second loop. *)
Definition crawl_restrict (pages : corpus_t) (filename : page) : result corpus_t :=
  v <- getitem pages filename ;;
  Ok (dict_set pages filename
        (PySet (py_set (filter (fun link => set_mem link (dict_keys pages))
                          (elements v))))).

Definition crawl (files : directory) : result corpus_t :=
  let pages := crawl_extract files in
  for_each crawl_restrict (dict_keys pages) pages.

(** ** Definitions used by the statements *)

(** The table built by the branch of lines 67-79: the direct links first,
    then the remaining corpus pages. *)
Definition follow_table (corpus : corpus_t) (v : links) (d : Q) : dict Q :=
  map (fun p => (p, d * 1 / Qnat (length (elements v))
                    + (1 - d) / Qnat (length (dict_keys corpus))))
    (elements v)
  ++ map (fun p => (p, 0 + (1 - d) / Qnat (length (dict_keys corpus))))
       (set_diff (dict_keys corpus) (elements v)).

(** A corpus as [crawl] builds it: [1.html] links to [2.html], which links
    nowhere (its value is the empty [set]). *)
Definition corpus_dangling : corpus_t :=
  [("1.html"%string, PySet ["2.html"%string]); ("2.html"%string, PySet [])].

(** [math.isfinite(t) and t != 0.0] *)
Definition finite_nonzero (t : float) : bool := is_finite t && negb (is_zero t).

(** The cumulative value at index [i]: the rounded running sum of the
    first [i+1] weights, divided by the total. *)
Definition cumulative (weights : list float) (i : nat) : float :=
  (Float64.py_sum (firstn (S i) weights) / Float64.py_sum weights)%float.

(** The float that the literal [1e308] denotes. *)
Definition one_e308 : float := 0x1.1ccf385ebc8ap+1023%float.

(** The weights [[0.1; 0.2; 0.3]] as the floats these literals denote. *)
Definition tenths : list float :=
  [0x1.999999999999ap-4; 0x1.999999999999ap-3; 0x1.3333333333333p-2]%float.

(** Three weights whose running sum is still finite after two additions
    ([2^1023 + 2^1022]) and overflows with the third. *)
Definition late_overflow : list float := [0x1p1023; 0x1p1022; 0x1p1022]%float.

(** The walk in the words of the specification: starting from [pg], repeat
    [n] times "compute the distribution for the current page and draw the
    next page from it"; the result lists the pages drawn, in order.  The
    starting page is not part of the list. *)
Fixpoint drawn_pages (corpus : corpus_t) (damping_factor : Q) (draws : nat -> Q)
    (i n : nat) (pg : page) : result (list page) :=
  match n with
  | O => Ok []
  | S n' =>
      model <- transition_model corpus pg damping_factor ;;
      pg' <- choice (dict_keys model) (dict_values model) (draws i) ;;
      rest <- drawn_pages corpus damping_factor draws (S i) n' pg' ;;
      Ok (pg' :: rest)
  end.

(** The counter of a page, 0 when the page has no entry. *)
Definition count_of (counts : dict nat) (p : page) : nat :=
  match dict_get counts p with Some c => c | None => O end.

(** "Each page q that links to p": the corpus keys whose link set contains
    [p], in corpus order. *)
Definition linkers (corpus : corpus_t) (p : page) : list page :=
  map fst (filter (fun kv => set_mem p (elements (snd kv))) corpus).

Definition rank_of (ranks : dict Q) (q : page) : Q :=
  match dict_get ranks q with Some r => r | None => 0 end.

(** [|outgoing(q)|] *)
Definition out_degree (corpus : corpus_t) (q : page) : nat :=
  match dict_get corpus q with Some v => length (elements v) | None => O end.

(** [prev_rank[q] / |outgoing(q)|] *)
Definition rank_share (corpus : corpus_t) (prev : dict Q) (q : page) : Q :=
  rank_of prev q / Qnat (out_degree corpus q).

(** The sum of the update rule: over each page [q] that links to [p], of
    [prev_rank[q] / |outgoing(q)|]. *)
Definition inbound_sum (corpus : corpus_t) (prev : dict Q) (p : page) : Q :=
  py_sum (map (rank_share corpus prev) (linkers corpus p)).

(** The value the inner loop of lines 139-141 accumulates over [s]. *)
Definition inbound_total (corpus : corpus_t) (prev : dict Q) (s : list page) : Q :=
  fold_left (fun tmp q => tmp + rank_share corpus prev q) s 0.

(** [sweeps_to k prev last]: starting from [prev], [k] iterations of the
    loop body each failed the convergence test, and left the table [last]
    in [prev_pagerank]. *)
Inductive sweeps_to (corpus : corpus_t) (d : Q) (rc : dict (list page)) (rv : Q)
  : nat -> dict Q -> dict Q -> Prop :=
| sweeps_none (prev : dict Q) : sweeps_to corpus d rc rv O prev prev
| sweeps_more (k : nat) (prev next last : dict Q) :
    iteration corpus d rc rv prev = Ok (next, false) ->
    sweeps_to corpus d rc rv k next last ->
    sweeps_to corpus d rc rv (S k) prev last.

(** The same corpus with the dangling page written as the dict literal
    [{}]. *)
Definition corpus_dict_dangling : corpus_t :=
  [("1.html"%string, PySet ["2.html"%string]); ("2.html"%string, PyDict [])].

(** The symmetric two-page corpus [{A: {B}, B: {A}}]. *)
Definition corpus_symmetric : corpus_t :=
  [("A"%string, PySet ["B"%string]); ("B"%string, PySet ["A"%string])].

(** The [.html] entries of a directory, the files [crawl] keeps. *)
Definition html_files (files : directory) : directory :=
  filter (fun fl : page * list page => endswith (fst fl) ".html") files.

(** The links [crawl] keeps for a file: the targets found in it, without
    the file itself, that are pages of the corpus. *)
Definition kept_links (keys : list page) (fl : page * list page) : list page :=
  py_set (filter (fun link => set_mem link keys) (set_diff (py_set (snd fl)) [fst fl])).

(** A directory with an entry that is not a page and links that [crawl]
    drops. *)
Definition sample_directory : directory :=
  [("1.html"%string, ["2.html"; "1.html"; "2.html"; "missing.html"]%string);
   ("notes.txt"%string, ["1.html"]%string);
   ("2.html"%string, ["notes.txt"]%string)].

(** A non-decreasing list of cumulative values. *)
Definition cumulative_sample : list Q := [1 # 4; 1 # 2; 1].

(** The total previous rank of the pages with at least one outgoing link,
    and of the pages with none. *)
Definition linked_mass (corpus : corpus_t) (prev : dict Q) : Q :=
  py_sum (map (fun kv : page * links =>
                 if (length (elements (snd kv)) =? 0)%nat then 0
                 else rank_of prev (fst kv))
            corpus).

Definition dangling_mass (corpus : corpus_t) (prev : dict Q) : Q :=
  py_sum (map (fun kv : page * links =>
                 if (length (elements (snd kv)) =? 0)%nat then rank_of prev (fst kv)
                 else 0)
            corpus).

(** * Properties *)

(** ** Sets and dicts *)

Lemma set_mem_iff (p : page) (s : list page) : set_mem p s = true <-> In p s.
Proof.
  unfold set_mem. rewrite existsb_exists. split.
  - intros [q [Hq He]]. apply String.eqb_eq in He. now subst.
  - intros H. exists p. split; [assumption | apply String.eqb_refl].
Qed.

Lemma set_mem_false_iff (p : page) (s : list page) : set_mem p s = false <-> ~ In p s.
Proof.
  rewrite <- set_mem_iff. destruct (set_mem p s); split; congruence.
Qed.

Lemma nodupb_NoDup (l : list page) : nodupb l = true <-> NoDup l.
Proof.
  induction l as [|p l IH]; simpl.
  - split; [constructor | reflexivity].
  - rewrite andb_true_iff, negb_true_iff, set_mem_false_iff, IH. split.
    + intros [H1 H2]. now constructor.
    + intros H. inversion H. now split.
Qed.

Lemma subsetb_incl (a b : list page) : subsetb a b = true <-> incl a b.
Proof.
  unfold subsetb, incl. rewrite forallb_forall.
  split; intros H p Hp; apply set_mem_iff; now apply H.
Qed.

Lemma set_diff_In (a b : list page) (p : page) :
  In p (set_diff a b) <-> In p a /\ ~ In p b.
Proof.
  unfold set_diff. rewrite filter_In, negb_true_iff, set_mem_false_iff. tauto.
Qed.

Section DictFacts.
Context {V : Type}.
Implicit Types (d : dict V) (k : page) (v : V).

Lemma dict_get_In d k v : dict_get d k = Some v -> In (k, v) d.
Proof.
  induction d as [|[k' v'] d IH]; simpl; [discriminate|].
  destruct (String.eqb k' k) eqn:E.
  - apply String.eqb_eq in E. intros [= ->]. subst. now left.
  - intros H. right. now apply IH.
Qed.

Lemma dict_get_None d k : dict_get d k = None <-> ~ In k (dict_keys d).
Proof.
  induction d as [|[k' v'] d IH]; simpl; [tauto|].
  destruct (String.eqb k' k) eqn:E.
  - apply String.eqb_eq in E. split; [discriminate | intros H; exfalso; apply H; now left].
  - apply String.eqb_neq in E. rewrite IH. tauto.
Qed.

Lemma dict_get_Some_key d k v : dict_get d k = Some v -> In k (dict_keys d).
Proof.
  intros H. apply dict_get_In in H. apply (in_map fst) in H. exact H.
Qed.

Lemma dict_get_key_Some d k : In k (dict_keys d) -> exists v, dict_get d k = Some v.
Proof.
  intros H. destruct (dict_get d k) eqn:E; [eauto|].
  apply dict_get_None in E. contradiction.
Qed.

Lemma In_dict_get d k v : NoDup (dict_keys d) -> In (k, v) d -> dict_get d k = Some v.
Proof.
  induction d as [|[k' v'] d IH]; simpl; [tauto|].
  intros Hnd [H|H].
  - injection H as -> ->. now rewrite String.eqb_refl.
  - inversion Hnd as [|? ? Hk Hd]; subst.
    destruct (String.eqb k' k) eqn:E.
    + apply String.eqb_eq in E. subst. exfalso. apply Hk.
      apply (in_map fst) in H. exact H.
    + now apply IH.
Qed.

Lemma dict_set_fresh d k v : ~ In k (dict_keys d) -> dict_set d k v = d ++ [(k, v)].
Proof.
  induction d as [|[k' v'] d IH]; simpl; [reflexivity|].
  intros H. destruct (String.eqb k' k) eqn:E.
  - apply String.eqb_eq in E. exfalso. apply H. now left.
  - rewrite IH; [reflexivity | tauto].
Qed.

Lemma dict_get_set_same d k v : dict_get (dict_set d k v) k = Some v.
Proof.
  induction d as [|[k' v'] d IH]; simpl.
  - now rewrite String.eqb_refl.
  - destruct (String.eqb k' k) eqn:E; simpl; now rewrite E.
Qed.

Lemma dict_get_set_other d k k' v :
  k <> k' -> dict_get (dict_set d k v) k' = dict_get d k'.
Proof.
  intros Hne. induction d as [|[k0 v0] d IH]; simpl.
  - apply String.eqb_neq in Hne. now rewrite Hne.
  - destruct (String.eqb k0 k) eqn:E; simpl.
    + apply String.eqb_eq in E. subst k0.
      apply String.eqb_neq in Hne. now rewrite Hne.
    + now rewrite IH.
Qed.

Lemma dict_set_not_nil d k v : dict_set d k v <> [].
Proof.
  destruct d as [|[k' v'] d]; simpl; [discriminate|].
  destruct (String.eqb k' k); discriminate.
Qed.

(** A loop of assignments to fresh keys appends them in order. *)
Lemma fold_dict_set_fresh {A : Type} (key : A -> page) (val : A -> V)
    (l : list A) (acc : dict V) :
  NoDup (dict_keys acc ++ map key l) ->
  fold_left (fun d a => dict_set d (key a) (val a)) l acc
  = acc ++ map (fun a => (key a, val a)) l.
Proof.
  revert acc. induction l as [|a l IH]; intros acc Hnd; simpl.
  - now rewrite app_nil_r.
  - simpl in Hnd. pose proof (NoDup_remove_2 _ _ _ Hnd) as Hfresh.
    rewrite dict_set_fresh by (intros H; apply Hfresh; apply in_or_app; now left).
    rewrite IH.
    + now rewrite <- app_assoc.
    + unfold dict_keys in *. rewrite map_app, <- app_assoc. exact Hnd.
Qed.

Lemma dict_of_items_nodup (items : list (page * V)) :
  NoDup (map fst items) -> dict_of_items items = items.
Proof.
  intros H. unfold dict_of_items.
  rewrite (fold_dict_set_fresh fst snd) by exact H.
  simpl. rewrite <- (map_id items) at 2. apply map_ext. now intros [k v].
Qed.

Lemma dict_get_app d d' k :
  dict_get (d ++ d') k
  = match dict_get d k with Some v => Some v | None => dict_get d' k end.
Proof.
  induction d as [|[k' v'] d IH]; simpl; [reflexivity|].
  now destruct (String.eqb k' k).
Qed.

Lemma dict_get_map_key (f : page -> V) (l : list page) k :
  dict_get (map (fun p => (p, f p)) l) k = if set_mem k l then Some (f k) else None.
Proof.
  induction l as [|p l IH]; simpl; [reflexivity|].
  rewrite (String.eqb_sym k p). destruct (String.eqb p k) eqn:E; simpl.
  - apply String.eqb_eq in E. now subst.
  - exact IH.
Qed.
End DictFacts.

Lemma dict_get_map_values {V W : Type} (f : V -> W) (d : dict V) (k : page) :
  dict_get (map (fun kv => (fst kv, f (snd kv))) d) k = option_map f (dict_get d k).
Proof.
  induction d as [|[k' v'] d IH]; simpl; [reflexivity|].
  now destruct (String.eqb k' k).
Qed.

Lemma dict_keys_map_values {V W : Type} (f : V -> W) (d : dict V) :
  dict_keys (map (fun kv => (fst kv, f (snd kv))) d) = dict_keys d.
Proof.
  unfold dict_keys. rewrite map_map. reflexivity.
Qed.

Lemma dict_keys_map_key {V : Type} (f : page -> V) (l : list page) :
  dict_keys (map (fun p => (p, f p)) l) = l.
Proof.
  unfold dict_keys. rewrite map_map. simpl. apply map_id.
Qed.

(** ** Sums and counts *)

Lemma Qnat_S (n : nat) : Qnat (S n) == Qnat n + 1.
Proof.
  unfold Qnat. rewrite Nat2Z.inj_succ, <- Z.add_1_r, inject_Z_plus. reflexivity.
Qed.

Lemma Qnat_nonneg (n : nat) : 0 <= Qnat n.
Proof.
  induction n as [|n IH]; [unfold Qnat, Qle; simpl; lia|]. rewrite Qnat_S. lra.
Qed.

Lemma Qnat_pos (n : nat) : (0 < n)%nat -> 0 < Qnat n.
Proof.
  destruct n as [|n]; [lia|]. intros _. rewrite Qnat_S. pose proof (Qnat_nonneg n). lra.
Qed.

Lemma Qnat_plus (n m : nat) : Qnat (n + m) == Qnat n + Qnat m.
Proof.
  unfold Qnat. rewrite Nat2Z.inj_add, inject_Z_plus. reflexivity.
Qed.

Lemma fold_Qplus_acc (l : list Q) (a : Q) : fold_left Qplus l a == a + py_sum l.
Proof.
  unfold py_sum. revert a. induction l as [|x l IH]; intros a; simpl.
  - ring.
  - rewrite (IH (a + x)), (IH (0 + x)). ring.
Qed.

Lemma py_sum_cons (x : Q) (l : list Q) : py_sum (x :: l) == x + py_sum l.
Proof.
  unfold py_sum at 1. simpl. rewrite fold_Qplus_acc. ring.
Qed.

Lemma py_sum_app (l l' : list Q) : py_sum (l ++ l') == py_sum l + py_sum l'.
Proof.
  induction l as [|x l IH]; simpl.
  - unfold py_sum at 2. simpl. ring.
  - rewrite !py_sum_cons, IH. ring.
Qed.

Lemma py_sum_map_const {A : Type} (c : Q) (l : list A) :
  py_sum (map (fun _ => c) l) == Qnat (length l) * c.
Proof.
  induction l as [|x l IH]; simpl length; simpl map.
  - unfold py_sum, Qnat. simpl. ring.
  - rewrite py_sum_cons, IH, Qnat_S. ring.
Qed.

Lemma py_sum_pos (l : list Q) : l <> [] -> (forall w, In w l -> 0 < w) -> 0 < py_sum l.
Proof.
  induction l as [|x l IH]; [congruence|]. intros _ H.
  rewrite py_sum_cons. pose proof (H x (or_introl eq_refl)) as Hx.
  destruct l as [|y l].
  - unfold py_sum. simpl. lra.
  - assert (0 < py_sum (y :: l)) by (apply IH; [discriminate | intros w Hw; apply H; now right]).
    lra.
Qed.

(** ** transition_model *)

Lemma combine_ones {A : Type} (f g : Q -> Q) (l : list A) :
  combine l (map f (map g (np_ones (length l)))) = map (fun p => (p, f (g 1))) l.
Proof.
  unfold np_ones. induction l as [|p l IH]; simpl; [reflexivity|]. now rewrite IH.
Qed.

Lemma combine_ones1 {A : Type} (f : Q -> Q) (l : list A) :
  combine l (map f (np_ones (length l))) = map (fun p => (p, f 1)) l.
Proof.
  unfold np_ones. induction l as [|p l IH]; simpl; [reflexivity|]. now rewrite IH.
Qed.

Lemma well_formed_keys (corpus : corpus_t) :
  well_formed corpus = true -> NoDup (dict_keys corpus).
Proof.
  unfold well_formed. rewrite andb_true_iff, nodupb_NoDup. tauto.
Qed.

Lemma well_formed_links (corpus : corpus_t) (pg : page) (v : links) :
  well_formed corpus = true -> dict_get corpus pg = Some v -> NoDup (elements v).
Proof.
  unfold well_formed. rewrite andb_true_iff, forallb_forall. intros [_ H] Hg.
  apply dict_get_In in Hg. apply nodupb_NoDup. exact (H _ Hg).
Qed.

Lemma corpus_invariant_links (corpus : corpus_t) (pg : page) (v : links) :
  corpus_invariant corpus = true -> dict_get corpus pg = Some v ->
  incl (elements v) (dict_keys corpus).
Proof.
  unfold corpus_invariant. rewrite forallb_forall. intros H Hg.
  apply dict_get_In in Hg. apply subsetb_incl. exact (H _ Hg).
Qed.

Lemma transition_model_follow (corpus : corpus_t) (pg : page) (d : Q) (v : links) :
  well_formed corpus = true ->
  dict_get corpus pg = Some v ->
  eq_empty_dict v = false ->
  transition_model corpus pg d = Ok (follow_table corpus v d).
Proof.
  intros Hwf Hg He.
  pose proof (well_formed_keys _ Hwf) as Hk.
  pose proof (well_formed_links _ _ _ Hwf Hg) as Hl.
  unfold transition_model, getitem. rewrite Hg. simpl bind. rewrite He.
  rewrite combine_ones.
  rewrite dict_of_items_nodup by (rewrite map_map; simpl; now rewrite map_id).
  rewrite (fold_dict_set_fresh (fun p => p) (fun _ => 0)).
  - rewrite map_app, !map_map. reflexivity.
  - rewrite map_id, dict_keys_map_key.
    apply NoDup_app; [exact Hl | now apply NoDup_filter |].
    intros p Hp Hq. apply set_diff_In in Hq. tauto.
Qed.

Lemma transition_model_empty_dict (corpus : corpus_t) (pg : page) (d : Q) :
  well_formed corpus = true ->
  dict_get corpus pg = Some (PyDict []) ->
  transition_model corpus pg d
  = Ok (map (fun p => (p, 1 / Qnat (length (dict_keys corpus)))) (dict_keys corpus)).
Proof.
  intros Hwf Hg. unfold transition_model, getitem. rewrite Hg. simpl.
  rewrite combine_ones1.
  rewrite dict_of_items_nodup; [reflexivity|].
  rewrite map_map. simpl. rewrite map_id. now apply well_formed_keys.
Qed.

Lemma follow_table_keys (corpus : corpus_t) (v : links) (d : Q) :
  dict_keys (follow_table corpus v d)
  = elements v ++ set_diff (dict_keys corpus) (elements v).
Proof.
  unfold follow_table, dict_keys. rewrite map_app, !map_map. simpl.
  now rewrite !map_id.
Qed.

Lemma links_then_rest (keys l : list page) :
  NoDup keys -> NoDup l -> incl l keys -> Permutation (l ++ set_diff keys l) keys.
Proof.
  intros Hk Hl Hincl. apply NoDup_Permutation.
  - apply NoDup_app; [exact Hl | now apply NoDup_filter |].
    intros p Hp Hq. apply set_diff_In in Hq. tauto.
  - exact Hk.
  - intros p. rewrite in_app_iff, set_diff_In. split.
    + intros [H|[H _]]; [now apply Hincl | exact H].
    + intros H. destruct (in_dec string_dec p l); tauto.
Qed.

(** Under the Corpus invariant the returned table has exactly the corpus
    pages as keys, each once. *)
Lemma transition_model_keys (corpus : corpus_t) (pg : page) (d : Q) (v : links) :
  well_formed corpus = true ->
  corpus_invariant corpus = true ->
  dict_get corpus pg = Some v ->
  exists t, transition_model corpus pg d = Ok t /\
            NoDup (dict_keys t) /\ Permutation (dict_keys t) (dict_keys corpus).
Proof.
  intros Hwf Hinv Hg.
  pose proof (well_formed_keys _ Hwf) as Hk.
  destruct (eq_empty_dict v) eqn:He.
  - destruct v as [l|[|? ?]]; try discriminate.
    rewrite (transition_model_empty_dict _ _ _ Hwf Hg).
    eexists. split; [reflexivity|]. rewrite dict_keys_map_key. now split.
  - rewrite (transition_model_follow _ _ _ _ Hwf Hg He).
    eexists. split; [reflexivity|]. rewrite follow_table_keys.
    assert (Permutation (elements v ++ set_diff (dict_keys corpus) (elements v))
              (dict_keys corpus)) as HP.
    { apply links_then_rest; [exact Hk | | ].
      - exact (well_formed_links _ _ _ Hwf Hg).
      - exact (corpus_invariant_links _ _ _ Hinv Hg). }
    split; [|exact HP].
    apply (Permutation_NoDup (Permutation_sym HP) Hk).
Qed.

Lemma follow_table_sum (corpus : corpus_t) (v : links) (d : Q) :
  NoDup (dict_keys corpus) -> NoDup (elements v) ->
  incl (elements v) (dict_keys corpus) ->
  py_sum (dict_values (follow_table corpus v d))
  == Qnat (length (elements v)) * (d * 1 / Qnat (length (elements v)))
     + (1 - d) / Qnat (length (dict_keys corpus)) * Qnat (length (dict_keys corpus)).
Proof.
  intros Hk Hl Hincl.
  pose proof (Permutation_length (links_then_rest _ _ Hk Hl Hincl)) as Hlen.
  rewrite length_app in Hlen.
  unfold follow_table, dict_values. rewrite map_app, !map_map. simpl.
  rewrite py_sum_app, !py_sum_map_const.
  rewrite <- Hlen, Qnat_plus. ring.
Qed.

(** For a page with at least one outgoing link the weights sum to 1. *)
Lemma transition_model_sum_linked (corpus : corpus_t) (pg : page) (d : Q) (v : links) :
  well_formed corpus = true ->
  corpus_invariant corpus = true ->
  dict_get corpus pg = Some v ->
  elements v <> [] ->
  exists t, transition_model corpus pg d = Ok t /\ py_sum (dict_values t) == 1.
Proof.
  intros Hwf Hinv Hg Hne.
  assert (eq_empty_dict v = false) as He.
  { destruct v as [l|[|? ?]]; try reflexivity. now elim Hne. }
  rewrite (transition_model_follow _ _ _ _ Hwf Hg He).
  eexists. split; [reflexivity|].
  rewrite follow_table_sum.
  - assert (0 < Qnat (length (elements v))) as H1.
    { apply Qnat_pos. destruct (elements v); [congruence | simpl; lia]. }
    assert (0 < Qnat (length (dict_keys corpus))) as H2.
    { apply Qnat_pos. apply dict_get_Some_key in Hg.
      destruct (dict_keys corpus); [contradiction | simpl; lia]. }
    field. split; lra.
  - now apply well_formed_keys.
  - exact (well_formed_links _ _ _ Hwf Hg).
  - exact (corpus_invariant_links _ _ _ Hinv Hg).
Qed.

(** What the code returns for a dangling page stored as a [set]: the test
    [direct_links == {}] is false, so every page gets the teleport share
    only, and the weights sum to [1 - damping]. *)
Lemma transition_model_dangling_set (corpus : corpus_t) (pg : page) (d : Q) :
  well_formed corpus = true ->
  dict_get corpus pg = Some (PySet []) ->
  exists t, transition_model corpus pg d = Ok t /\
    (forall p, In p (dict_keys corpus) ->
       exists w, dict_get t p = Some w /\ w == (1 - d) / Qnat (length (dict_keys corpus))) /\
    py_sum (dict_values t) == 1 - d.
Proof.
  intros Hwf Hg.
  rewrite (transition_model_follow _ _ _ _ Hwf Hg eq_refl).
  eexists. split; [reflexivity|]. split.
  - intros p Hp. unfold follow_table. simpl.
    rewrite dict_get_map_key.
    assert (set_mem p (set_diff (dict_keys corpus) []) = true) as ->.
    { apply set_mem_iff, set_diff_In. split; [exact Hp | intros []]. }
    eexists. split; [reflexivity | ring].
  - rewrite follow_table_sum.
    + simpl elements. simpl length.
      assert (0 < Qnat (length (dict_keys corpus))) as H2.
      { apply Qnat_pos. apply dict_get_Some_key in Hg.
        destruct (dict_keys corpus); [contradiction | simpl; lia]. }
      rewrite Qmult_0_l. field. lra.
    + now apply well_formed_keys.
    + constructor.
    + intros p [].
Qed.

(** What the code returns when the stored value is the empty dict [{}]. *)
Lemma transition_model_dangling_dict (corpus : corpus_t) (pg : page) (d : Q) :
  well_formed corpus = true ->
  dict_get corpus pg = Some (PyDict []) ->
  exists t, transition_model corpus pg d = Ok t /\
    (forall p, In p (dict_keys corpus) ->
       exists w, dict_get t p = Some w /\ w == 1 / Qnat (length (dict_keys corpus))) /\
    py_sum (dict_values t) == 1.
Proof.
  intros Hwf Hg. rewrite (transition_model_empty_dict _ _ _ Hwf Hg).
  eexists. split; [reflexivity|]. split.
  - intros p Hp. rewrite dict_get_map_key.
    apply set_mem_iff in Hp. rewrite Hp. eexists. split; reflexivity.
  - unfold dict_values. rewrite map_map. simpl. rewrite py_sum_map_const.
    assert (0 < Qnat (length (dict_keys corpus))) as H2.
    { apply Qnat_pos. apply dict_get_Some_key in Hg.
      destruct (dict_keys corpus); [contradiction | simpl; lia]. }
    field. lra.
Qed.

(** C6: for a corpus key [pg] whose link set [L] is not empty,
    [transition_model] gives every page of [L] the weight
    [damping/|L| + (1-damping)/N] and every other corpus page the weight
    [(1-damping)/N], where [N] is the number of corpus pages. *)
Theorem transition_model_linked_weights
    (corpus : corpus_t) (pg : page) (d : Q) (v : links) :
  well_formed corpus = true ->
  dict_get corpus pg = Some v ->
  elements v <> [] ->
  exists t, transition_model corpus pg d = Ok t /\
    (forall p, In p (elements v) ->
       exists w, dict_get t p = Some w /\
         w == d / Qnat (length (elements v))
              + (1 - d) / Qnat (length (dict_keys corpus))) /\
    (forall p, In p (dict_keys corpus) -> ~ In p (elements v) ->
       exists w, dict_get t p = Some w /\
         w == (1 - d) / Qnat (length (dict_keys corpus))).
Proof.
  intros Hwf Hg Hne.
  assert (eq_empty_dict v = false) as He.
  { destruct v as [l|[|? ?]]; try reflexivity. now elim Hne. }
  rewrite (transition_model_follow _ _ _ _ Hwf Hg He).
  eexists. split; [reflexivity|]. unfold follow_table. split.
  - intros p Hp. rewrite dict_get_app, dict_get_map_key.
    apply set_mem_iff in Hp. rewrite Hp.
    eexists. split; [reflexivity|]. now rewrite Qmult_1_r.
  - intros p Hp Hn. rewrite dict_get_app, !dict_get_map_key.
    apply set_mem_false_iff in Hn. rewrite Hn.
    assert (set_mem p (set_diff (dict_keys corpus) (elements v)) = true) as ->.
    { apply set_mem_iff, set_diff_In. split; [exact Hp|].
      now apply set_mem_false_iff. }
    eexists. split; [reflexivity | ring].
Qed.

Lemma transition_model_linked_weights_witness :
  exists t, transition_model corpus_dangling "1.html"%string (85 # 100) = Ok t /\
    (forall p, In p ["2.html"%string] ->
       exists w, dict_get t p = Some w /\ w == (85 # 100) / Qnat 1 + (1 - (85 # 100)) / Qnat 2) /\
    (forall p, In p (dict_keys corpus_dangling) -> ~ In p ["2.html"%string] ->
       exists w, dict_get t p = Some w /\ w == (1 - (85 # 100)) / Qnat 2).
Proof.
  apply (transition_model_linked_weights corpus_dangling "1.html"%string (85 # 100)
           (PySet ["2.html"%string])).
  - reflexivity.
  - reflexivity.
  - discriminate.
Defined.

(** C1: evaluated on a dangling page as [crawl] stores it (the empty [set]),
    with damping 0.85 and N = 2: [transition_model] returns 0.075 for every
    page, not the uniform 1/N = 0.5. *)
Theorem transition_model_dangling_not_uniform :
  exists t, transition_model corpus_dangling "2.html"%string (85 # 100) = Ok t /\
    forall p, In p (dict_keys corpus_dangling) ->
      exists w, dict_get t p = Some w /\ w == 75 # 1000 /\
                ~ w == 1 / Qnat (length (dict_keys corpus_dangling)).
Proof.
  eexists. split; [vm_compute; reflexivity|].
  intros p [<-|[<-|[]]]; eexists;
    (split; [vm_compute; reflexivity
            | split; [reflexivity | intros H; vm_compute in H; discriminate]]).
Qed.

(** C2: on the same input the table has one entry per corpus page, but its
    weights sum to 1 - 0.85 = 0.15, which is not within 1e-9 of 1. *)
Theorem transition_model_dangling_sum :
  exists t, transition_model corpus_dangling "2.html"%string (85 # 100) = Ok t /\
    Permutation (dict_keys t) (dict_keys corpus_dangling) /\
    py_sum (dict_values t) == 15 # 100 /\
    ~ Qabs (py_sum (dict_values t) - 1) <= 1 # 1000000000.
Proof.
  eexists. split; [vm_compute; reflexivity|].
  split; [apply Permutation_refl|].
  split; [reflexivity|].
  intros H. vm_compute in H. apply H. reflexivity.
Qed.

(** ** cdf, bisect and choice *)

Lemma Qlt_bool_iff (x y : Q) : Qlt_bool x y = true <-> x < y.
Proof.
  unfold Qlt_bool. rewrite negb_true_iff. split.
  - intros H. apply Qnot_le_lt. intros Hle. apply Qle_bool_iff in Hle. congruence.
  - intros H. destruct (Qle_bool y x) eqn:E; [|reflexivity].
    apply Qle_bool_iff in E. lra.
Qed.

Lemma Qlt_bool_false_iff (x y : Q) : Qlt_bool x y = false <-> y <= x.
Proof.
  unfold Qlt_bool. rewrite negb_false_iff. apply Qle_bool_iff.
Qed.

Lemma bisect_loop_S (fuel : nat) (a : list Q) (x : Q) (lo hi : nat) :
  bisect_loop (S fuel) a x lo hi
  = if (lo <? hi)%nat then
      if Qlt_bool x (nth ((lo + hi) / 2) a 0)
      then bisect_loop fuel a x lo ((lo + hi) / 2)
      else bisect_loop fuel a x (S ((lo + hi) / 2)) hi
    else lo.
Proof. reflexivity. Qed.

(** The postcondition of the binary search, for any list (sorted or not):
    the loop ends within [hi - lo] iterations, the element left of the
    result is at most [x] and the element at the result is above [x]. *)
Lemma bisect_loop_post (fuel : nat) (a : list Q) (x : Q) (lo hi : nat) :
  (lo <= hi)%nat -> (hi - lo <= fuel)%nat ->
  let r := bisect_loop fuel a x lo hi in
  (lo <= r <= hi)%nat /\
  (r = lo \/ nth (r - 1) a 0 <= x) /\
  (r = hi \/ x < nth r a 0).
Proof.
  revert lo hi. induction fuel as [|fuel IH]; intros lo hi Hle Hfuel; cbv zeta.
  - simpl. assert (lo = hi) by lia. subst. repeat split; auto; lia.
  - rewrite bisect_loop_S. destruct (lo <? hi)%nat eqn:Hlt.
    + apply Nat.ltb_lt in Hlt.
      assert (lo <= (lo + hi) / 2 < hi)%nat as Hmid.
      { split; [apply Nat.div_le_lower_bound | apply Nat.Div0.div_lt_upper_bound]; lia. }
      destruct (Qlt_bool x (nth ((lo + hi) / 2) a 0)) eqn:Hx.
      * apply Qlt_bool_iff in Hx.
        destruct (IH lo ((lo + hi) / 2)%nat) as [H1 [H2 H3]]; [lia | lia |].
        repeat split; try lia; [exact H2|].
        destruct H3 as [H3|H3]; [rewrite H3; now right | now right].
      * apply Qlt_bool_false_iff in Hx.
        destruct (IH (S ((lo + hi) / 2)) hi) as [H1 [H2 H3]]; [lia | lia |].
        repeat split; try lia; [|exact H3].
        right. destruct H2 as [H2|H2]; [|exact H2].
        rewrite H2. simpl. now rewrite Nat.sub_0_r.
    + apply Nat.ltb_ge in Hlt. assert (lo = hi) by lia. subst.
      repeat split; auto; lia.
Qed.

Lemma cdf_loop_ok (total : Q) (weights : list Q) :
  ~ total == 0 ->
  forall cumsum, exists r,
    cdf_loop total cumsum weights = Ok r /\
    length r = length weights /\
    (weights <> [] ->
     nth (length weights - 1) r 0 == (cumsum + py_sum weights) / total).
Proof.
  intros Ht. assert (Qeq_bool total 0 = false) as Hb.
  { destruct (Qeq_bool total 0) eqn:E; [|reflexivity]. apply Qeq_bool_iff in E. contradiction. }
  induction weights as [|w ws IH]; intros cumsum; simpl.
  - exists []. repeat split. congruence.
  - rewrite Hb. destruct (IH (cumsum + w)) as [r [Hr [Hlen Hlast]]].
    rewrite Hr. simpl. eexists. split; [reflexivity|]. split; [simpl; congruence|].
    intros _. rewrite Nat.sub_0_r. destruct ws as [|w' ws'].
    + simpl. unfold py_sum. simpl. field. exact Ht.
    + simpl length in *. simpl nth.
      replace (S (length ws') - 1)%nat with (length ws') in Hlast by lia.
      rewrite Hlast by discriminate.
      rewrite (py_sum_cons w). field. exact Ht.
Qed.

(** With a non-zero total and a draw below 1 the index is in range. *)
Lemma choice_ok {A : Type} (population : list A) (weights : list Q) (x : Q) :
  length population = length weights ->
  ~ py_sum weights == 0 ->
  x < 1 ->
  exists a, choice population weights x = Ok a /\ In a population.
Proof.
  intros Hlen Ht Hx. unfold choice.
  rewrite Hlen, Nat.eqb_refl. simpl negb. cbv iota.
  assert (weights <> []) as Hne.
  { intros ->. apply Ht. reflexivity. }
  destruct (cdf_loop_ok _ weights Ht 0) as [r [Hr [Hlr Hlast]]].
  unfold cdf. rewrite Hr. simpl bind. unfold choice_at, bisect.
  pose proof (bisect_loop_post (length r) r x 0 (length r)) as Hpost.
  simpl in Hpost. destruct Hpost as [H1 [H2 H3]]; [lia | lia |].
  set (idx := bisect_loop (length r) r x 0 (length r)) in *.
  assert (idx < length r)%nat as Hidx.
  { destruct (Nat.eq_dec idx (length r)) as [E|E]; [|lia]. exfalso.
    assert (length weights <> 0)%nat by (destruct weights; [congruence | discriminate]).
    destruct H2 as [H2|H2]; [lia|].
    rewrite E, Hlr, (Hlast Hne) in H2.
    assert ((0 + py_sum weights) / py_sum weights == 1) as E1 by (field; exact Ht).
    rewrite E1 in H2. lra. }
  unfold list_getitem. destruct (nth_error population idx) as [a|] eqn:Ha.
  - exists a. split; [reflexivity|]. eapply nth_error_In; eauto.
  - apply nth_error_None in Ha. lia.
Qed.

(** ** The sampler on binary64 floats *)

(** Dividing a finite non-zero float by itself is exact: the quotient of
    the mantissas shifted by 53 bits is [2^53] with remainder 0. *)
Lemma div_eucl_shift (m : positive) :
  Z.div_eucl (Z.shiftl (Zpos m) 53) (Zpos m) = (9007199254740992%Z, 0%Z).
Proof.
  rewrite Z.shiftl_mul_pow2 by lia.
  pose proof (Z.div_eucl_eq (Z.pos m * 2 ^ 53) (Z.pos m)) as H.
  pose proof (Z.mod_pos_bound (Z.pos m * 2 ^ 53) (Z.pos m)) as Hb.
  unfold Z.modulo in Hb.
  destruct (Z.div_eucl (Z.pos m * 2 ^ 53) (Z.pos m)) as [q r].
  assert (0 <= r < Z.pos m)%Z as Hr by (apply Hb; lia).
  assert (Z.pos m <> 0)%Z as Hm by lia. specialize (H Hm).
  change (2 ^ 53)%Z with 9007199254740992%Z in *.
  assert (q = 9007199254740992)%Z by nia.
  subst q. f_equal. lia.
Qed.

Lemma SFdiv_self (s : bool) (m : positive) (e : Z) :
  SFdiv prec emax (S754_finite s m e) (S754_finite s m e)
  = S754_finite false 4503599627370496 (-52).
Proof.
  unfold SFdiv, SFdiv_core_binary.
  replace (Zdigits2 (Z.pos m) + e - (Zdigits2 (Z.pos m) + e))%Z with 0%Z by lia.
  rewrite Z.sub_diag.
  change (Z.min (fexp prec emax 0) 0) with (-53)%Z.
  change (0 - -53)%Z with 53%Z. cbv iota.
  rewrite div_eucl_shift.
  assert (new_location (Z.pos m) 0 = loc_Exact) as ->.
  { unfold new_location. destruct (Z.even (Z.pos m)); reflexivity. }
  destruct s; reflexivity.
Qed.

Lemma finite_nonzero_spec (t : float) :
  finite_nonzero t = true -> exists s m e, Prim2SF t = S754_finite s m e.
Proof.
  unfold finite_nonzero, is_finite, is_nan, is_infinity, is_zero.
  rewrite !FloatAxioms.eqb_spec, abs_spec.
  change (Prim2SF zero) with (S754_zero false).
  change (Prim2SF infinity) with (S754_infinity false).
  destruct (Prim2SF t) as [z|i| |s m e]; simpl; try discriminate.
  - destruct i; discriminate.
  - intros _. now exists s, m, e.
Qed.

Lemma finite_nonzero_eqb (t : float) :
  finite_nonzero t = true -> (t =? 0)%float = false.
Proof.
  unfold finite_nonzero, is_zero. intros H. apply andb_prop in H.
  destruct H as [_ H]. now apply negb_true_iff in H.
Qed.

Lemma float_div_self (t : float) : finite_nonzero t = true -> (t / t)%float = 1%float.
Proof.
  intros H. destruct (finite_nonzero_spec t H) as [s [m [e Ht]]].
  apply Prim2SF_inj. rewrite div_spec, Ht. unfold SF64div.
  rewrite SFdiv_self. reflexivity.
Qed.

Lemma float_bisect_loop_S (fuel : nat) (a : list float) (x : float) (lo hi : nat) :
  Float64.bisect_loop (S fuel) a x lo hi
  = if (lo <? hi)%nat then
      if (x <? nth ((lo + hi) / 2) a 0)%float
      then Float64.bisect_loop fuel a x lo ((lo + hi) / 2)
      else Float64.bisect_loop fuel a x (S ((lo + hi) / 2)) hi
    else lo.
Proof. reflexivity. Qed.

(** The postcondition of the binary search on floats, for any list: the
    loop ends within [hi - lo] iterations, the comparison [x < a[r-1]]
    failed for the element left of the result and [x < a[r]] succeeded
    for the element at the result. *)
Lemma float_bisect_loop_post (fuel : nat) (a : list float) (x : float) (lo hi : nat) :
  (lo <= hi)%nat -> (hi - lo <= fuel)%nat ->
  let r := Float64.bisect_loop fuel a x lo hi in
  (lo <= r <= hi)%nat /\
  (r = lo \/ (x <? nth (r - 1) a 0)%float = false) /\
  (r = hi \/ (x <? nth r a 0)%float = true).
Proof.
  revert lo hi. induction fuel as [|fuel IH]; intros lo hi Hle Hfuel; cbv zeta.
  - simpl. assert (lo = hi) by lia. subst. repeat split; auto; lia.
  - rewrite float_bisect_loop_S. destruct (lo <? hi)%nat eqn:Hlt.
    + apply Nat.ltb_lt in Hlt.
      assert (lo <= (lo + hi) / 2 < hi)%nat as Hmid.
      { split; [apply Nat.div_le_lower_bound | apply Nat.Div0.div_lt_upper_bound]; lia. }
      destruct (x <? nth ((lo + hi) / 2) a 0)%float eqn:Hx.
      * destruct (IH lo ((lo + hi) / 2)%nat) as [H1 [H2 H3]]; [lia | lia |].
        repeat split; try lia; [exact H2|].
        destruct H3 as [H3|H3]; [rewrite H3; now right | now right].
      * destruct (IH (S ((lo + hi) / 2)) hi) as [H1 [H2 H3]]; [lia | lia |].
        repeat split; try lia; [|exact H3].
        right. destruct H2 as [H2|H2]; [|exact H2].
        rewrite H2. simpl. now rewrite Nat.sub_0_r.
    + apply Nat.ltb_ge in Hlt. assert (lo = hi) by lia. subst.
      repeat split; auto; lia.
Qed.

(** When the comparison [x < c] fails for every element the search runs
    to the right end. *)
Lemma float_bisect_loop_past_end (fuel : nat) (a : list float) (x : float) (lo hi : nat) :
  (forall c, In c a -> (x <? c)%float = false) ->
  (lo <= hi <= length a)%nat -> (hi - lo <= fuel)%nat ->
  Float64.bisect_loop fuel a x lo hi = hi.
Proof.
  intros Hall. revert lo hi. induction fuel as [|fuel IH]; intros lo hi Hle Hfuel.
  - simpl. lia.
  - rewrite float_bisect_loop_S. destruct (lo <? hi)%nat eqn:Hlt.
    + apply Nat.ltb_lt in Hlt.
      assert (lo <= (lo + hi) / 2 < hi)%nat as Hmid.
      { split; [apply Nat.div_le_lower_bound | apply Nat.Div0.div_lt_upper_bound]; lia. }
      rewrite (Hall (nth ((lo + hi) / 2) a 0%float)) by (apply nth_In; lia).
      apply IH; lia.
    + apply Nat.ltb_ge in Hlt. lia.
Qed.

Lemma float_cdf_loop_zero_total (total cumsum : float) (weights : list float) :
  (total =? 0)%float = true -> weights <> [] ->
  Float64.cdf_loop total cumsum weights = Raise ZeroDivisionError.
Proof.
  intros Ht Hne. destruct weights as [|w ws]; [congruence|]. simpl. now rewrite Ht.
Qed.

Lemma float_cdf_loop_ok (total : float) (weights : list float) :
  (total =? 0)%float = false ->
  forall cumsum, exists r,
    Float64.cdf_loop total cumsum weights = Ok r /\
    length r = length weights /\
    forall i, (i < length weights)%nat ->
      nth i r 0%float
      = (fold_left PrimFloat.add (firstn (S i) weights) cumsum / total)%float.
Proof.
  intros Ht. induction weights as [|w ws IH]; intros cumsum.
  - exists []. repeat split. simpl. lia.
  - simpl Float64.cdf_loop. rewrite Ht.
    destruct (IH (cumsum + w)%float) as [r [Hr [Hlen Hnth]]].
    rewrite Hr. simpl bind. eexists. split; [reflexivity|]. split; [simpl; congruence|].
    intros [|i] Hi.
    + reflexivity.
    + simpl in Hi. cbn [nth]. rewrite Hnth by lia. reflexivity.
Qed.

(** With a finite non-zero total the last cumulative value is exactly 1.0. *)
Lemma float_cdf_last (weights : list float) :
  finite_nonzero (Float64.py_sum weights) = true ->
  exists r, Float64.cdf weights = Ok r /\ length r = length weights /\
            weights <> [] /\ nth (length r - 1) r 0%float = 1%float.
Proof.
  intros Hf. pose proof (finite_nonzero_eqb _ Hf) as Ht.
  destruct (float_cdf_loop_ok _ weights Ht 0%float) as [r [Hr [Hlen Hnth]]].
  exists r. split; [exact Hr|]. split; [exact Hlen|].
  assert (weights <> []) as Hne.
  { intros ->. vm_compute in Hf. discriminate. }
  split; [exact Hne|].
  assert (length weights <> 0)%nat by (destruct weights; [congruence | discriminate]).
  rewrite Hlen, Hnth by lia.
  replace (S (length weights - 1)) with (length weights) by lia.
  rewrite firstn_all. now apply float_div_self.
Qed.

Lemma float_choice_ok {A : Type} (population : list A) (weights : list float) (x : float) :
  length population = length weights ->
  finite_nonzero (Float64.py_sum weights) = true ->
  (x <? 1)%float = true ->
  exists a, Float64.choice population weights x = Ok a /\ In a population.
Proof.
  intros Hlen Hf Hx. unfold Float64.choice.
  rewrite Hlen, Nat.eqb_refl. simpl negb. cbv iota.
  destruct (float_cdf_last weights Hf) as [r [Hr [Hlr [Hne Hlast]]]].
  rewrite Hr. simpl bind. unfold Float64.bisect.
  pose proof (float_bisect_loop_post (length r) r x 0 (length r)) as Hpost.
  simpl in Hpost. destruct Hpost as [H1 [H2 H3]]; [lia | lia |].
  set (idx := Float64.bisect_loop (length r) r x 0 (length r)) in *.
  assert (idx < length r)%nat as Hidx.
  { destruct (Nat.eq_dec idx (length r)) as [E|E]; [|lia]. exfalso.
    assert (length weights <> 0)%nat by (destruct weights; [congruence | discriminate]).
    destruct H2 as [H2|H2]; [lia|].
    rewrite E, Hlast in H2. congruence. }
  unfold list_getitem. destruct (nth_error population idx) as [a|] eqn:Ha.
  - exists a. split; [reflexivity|]. eapply nth_error_In; eauto.
  - apply nth_error_None in Ha. lia.
Qed.

Lemma float_choice_past_end {A : Type}
    (population : list A) (weights cdf_vals : list float) (x : float) :
  length population = length weights ->
  Float64.cdf weights = Ok cdf_vals ->
  (forall c, In c cdf_vals -> (x <? c)%float = false) ->
  Float64.choice population weights x = Raise IndexError.
Proof.
  intros Hlen Hc Hall. unfold Float64.choice.
  rewrite Hlen, Nat.eqb_refl. simpl negb. cbv iota. rewrite Hc. simpl bind.
  unfold Float64.bisect.
  rewrite (float_bisect_loop_past_end _ _ _ _ _ Hall) by lia.
  unfold list_getitem.
  assert (nth_error population (length cdf_vals) = None) as ->; [|reflexivity].
  apply nth_error_None.
  assert (length cdf_vals = length weights); [|lia].
  unfold Float64.cdf in Hc.
  destruct weights as [|w ws]; [simpl in Hc; now inversion Hc|].
  destruct (Float64.py_sum (w :: ws) =? 0)%float eqn:Ht.
  - rewrite float_cdf_loop_zero_total in Hc by (auto; discriminate). discriminate.
  - destruct (float_cdf_loop_ok _ (w :: ws) Ht 0%float) as [r [Hr [Hl _]]].
    rewrite Hr in Hc. inversion Hc. now subst.
Qed.

(** C3, as the code has it, on binary64 floats.  For sequences of equal
    length whose weight total is finite and not zero, and a draw [x < 1],
    [choice] returns an element of the population: the last cumulative
    value is [total / total], exactly [1.0], so the index is in range.
    Lines 96-97 have no clamp: whenever the comparison [x < c] fails for
    every cumulative value [c], the index is [len(population)] and the
    lookup raises [IndexError]. *)
Theorem choice_member_or_index_error {A : Type}
    (population : list A) (weights : list float) (x : float) :
  length population = length weights ->
  (finite_nonzero (Float64.py_sum weights) = true -> (x <? 1)%float = true ->
   exists a, Float64.choice population weights x = Ok a /\ In a population) /\
  (forall cdf_vals, Float64.cdf weights = Ok cdf_vals ->
     (forall c, In c cdf_vals -> (x <? c)%float = false) ->
     Float64.choice population weights x = Raise IndexError).
Proof.
  intros Hlen. split.
  - intros Hf Hx. now apply float_choice_ok.
  - intros cdf_vals Hc Hall.
    now apply (float_choice_past_end population weights cdf_vals).
Qed.

Lemma choice_member_or_index_error_witness :
  (exists a, Float64.choice ["a"; "b"]%string [0.25; 0.75]%float 0.5%float = Ok a
             /\ In a ["a"; "b"]%string) /\
  Float64.choice ["a"; "b"]%string [one_e308; one_e308] 0.5%float = Raise IndexError.
Proof.
  split.
  - apply (proj1 (choice_member_or_index_error
                    ["a"; "b"]%string [0.25; 0.75]%float 0.5%float eq_refl));
      vm_compute; reflexivity.
  - apply (proj2 (choice_member_or_index_error
                    ["a"; "b"]%string [one_e308; one_e308] 0.5%float eq_refl)
             [0; nan]%float).
    + vm_compute. reflexivity.
    + intros c [<-|[<-|[]]]; vm_compute; reflexivity.
Defined.

(** C3, as stated, fails on the code.  The weights [[1e308; 1e308]] have
    the length of the population [["a"; "b"]] and are positive, and so is
    their total; but the total overflows to [inf], the cumulative values
    are [[0.0; nan]], the draw [0.5] in [0,1) is below neither of them,
    [bisect] returns 2 and [choice] raises [IndexError]: no element is
    returned and the index is not clamped to the last position. *)
Lemma choice_overflow_counterexample :
  length ["a"; "b"]%string = length [one_e308; one_e308] /\
  (0 <? one_e308)%float = true /\
  (0 <? Float64.py_sum [one_e308; one_e308])%float = true /\
  (0 <=? 0.5)%float = true /\ (0.5 <? 1)%float = true /\
  Float64.cdf [one_e308; one_e308] = Ok [0; nan]%float /\
  Float64.bisect [0; nan]%float 0.5%float = 2%nat /\
  Float64.choice ["a"; "b"]%string [one_e308; one_e308] 0.5%float = Raise IndexError.
Proof.
  repeat split; vm_compute; reflexivity.
Qed.

(** C9, as the code has it, on binary64 floats: [choice] raises
    [AssertionError] when the sequences differ in length; for sequences of
    equal length whose weights total zero it raises [ZeroDivisionError]
    (or [IndexError] when both are empty); for sequences of equal length
    whose total is finite and not zero, and a draw [x < 1], it returns a
    value. *)
Theorem choice_failure_cases {A : Type}
    (population : list A) (weights : list float) (x : float) :
  (length population <> length weights ->
   Float64.choice population weights x = Raise AssertionError) /\
  (length population = length weights ->
   (Float64.py_sum weights =? 0)%float = true ->
   Float64.choice population weights x
   = Raise (match weights with [] => IndexError | _ => ZeroDivisionError end)) /\
  (length population = length weights ->
   finite_nonzero (Float64.py_sum weights) = true -> (x <? 1)%float = true ->
   exists a, Float64.choice population weights x = Ok a).
Proof.
  split; [|split].
  - intros Hne. unfold Float64.choice. apply Nat.eqb_neq in Hne. now rewrite Hne.
  - intros Hlen Hz. unfold Float64.choice.
    rewrite Hlen, Nat.eqb_refl. simpl negb. cbv iota.
    destruct weights as [|w ws].
    + destruct population; [reflexivity | discriminate].
    + unfold Float64.cdf. now rewrite float_cdf_loop_zero_total.
  - intros Hlen Hf Hx.
    destruct (float_choice_ok population weights x Hlen Hf Hx) as [a [Ha _]].
    now exists a.
Qed.

Lemma choice_failure_cases_witness :
  Float64.choice ["a"]%string [0.5; 0.5]%float 0.5%float = Raise AssertionError /\
  Float64.choice ["a"; "b"]%string [0; 0]%float 0.5%float = Raise ZeroDivisionError /\
  (exists a, Float64.choice ["a"; "b"]%string [0.25; 0.75]%float 0.5%float = Ok a).
Proof.
  split; [|split].
  - apply (proj1 (choice_failure_cases ["a"]%string [0.5; 0.5]%float 0.5%float)).
    discriminate.
  - apply (proj1 (proj2 (choice_failure_cases
                           ["a"; "b"]%string [0; 0]%float 0.5%float)));
      vm_compute; reflexivity.
  - apply (proj2 (proj2 (choice_failure_cases
                           ["a"; "b"]%string [0.25; 0.75]%float 0.5%float)));
      vm_compute; reflexivity.
Defined.

(** C9, as stated, fails on the code in its last part.  The weights
    [[2^1023; 2^1022; 2^1022]] have the length of the population and a
    positive total, and the draw [0.25] lies in [0,1); the running sum
    overflows with the third weight, the total is [inf], the last
    cumulative value is [nan], and [choice] fails with [IndexError]. *)
Lemma choice_positive_total_counterexample :
  length ["a"; "b"; "c"]%string = length late_overflow /\
  (0 <? Float64.py_sum late_overflow)%float = true /\
  (0 <=? 0.25)%float = true /\ (0.25 <? 1)%float = true /\
  Float64.cdf late_overflow = Ok [0; 0; nan]%float /\
  Float64.choice ["a"; "b"; "c"]%string late_overflow 0.25%float = Raise IndexError.
Proof.
  repeat split; vm_compute; reflexivity.
Qed.

(** ** sample_pagerank *)

(** For a damping factor in (0,1) every weight of the returned table is
    positive, whichever branch produced it. *)
Lemma transition_model_distribution (corpus : corpus_t) (pg : page) (d : Q) :
  well_formed corpus = true ->
  corpus_invariant corpus = true ->
  0 < d -> d < 1 ->
  In pg (dict_keys corpus) ->
  exists t, transition_model corpus pg d = Ok t /\
            Permutation (dict_keys t) (dict_keys corpus) /\
            (forall w, In w (dict_values t) -> 0 < w).
Proof.
  intros Hwf Hinv Hd0 Hd1 Hpg.
  destruct (dict_get_key_Some _ _ Hpg) as [v Hg].
  destruct (transition_model_keys corpus pg d v Hwf Hinv Hg) as [t [Ht [_ HP]]].
  exists t. split; [exact Ht|]. split; [exact HP|].
  assert (0 < Qnat (length (dict_keys corpus))) as HN.
  { apply Qnat_pos. destruct (dict_keys corpus); [contradiction | simpl; lia]. }
  assert (0 < (1 - d) / Qnat (length (dict_keys corpus))) as Hadd.
  { apply Qlt_shift_div_l; lra. }
  destruct (eq_empty_dict v) eqn:He.
  - destruct v as [l|[|? ?]]; try discriminate.
    rewrite (transition_model_empty_dict _ _ _ Hwf Hg) in Ht. injection Ht as <-.
    intros w Hw. unfold dict_values in Hw. rewrite map_map in Hw.
    apply in_map_iff in Hw. destruct Hw as [p [<- _]]. simpl.
    apply Qlt_shift_div_l; lra.
  - rewrite (transition_model_follow _ _ _ _ Hwf Hg He) in Ht. injection Ht as <-.
    intros w Hw. unfold dict_values, follow_table in Hw.
    rewrite map_app, !map_map in Hw. apply in_app_or in Hw.
    destruct Hw as [Hw|Hw]; apply in_map_iff in Hw; destruct Hw as [p [<- Hp]]; simpl.
    + assert (0 < Qnat (length (elements v))) as HL.
      { apply Qnat_pos. destruct (elements v); [contradiction | simpl; lia]. }
      assert (0 < d * 1 / Qnat (length (elements v))).
      { apply Qlt_shift_div_l; lra. }
      lra.
    + lra.
Qed.

(** One step of the walk from a corpus page draws a corpus page. *)
Lemma draw_ok (corpus : corpus_t) (pg : page) (d x : Q) :
  well_formed corpus = true ->
  corpus_invariant corpus = true ->
  0 < d -> d < 1 -> x < 1 ->
  In pg (dict_keys corpus) ->
  exists t pg', transition_model corpus pg d = Ok t /\
                choice (dict_keys t) (dict_values t) x = Ok pg' /\
                In pg' (dict_keys corpus).
Proof.
  intros Hwf Hinv Hd0 Hd1 Hx Hpg.
  destruct (transition_model_distribution corpus pg d Hwf Hinv Hd0 Hd1 Hpg)
    as [t [Ht [HP Hpos]]].
  assert (dict_values t <> []) as Hne.
  { intros E. apply (Permutation_in _ (Permutation_sym HP)) in Hpg.
    destruct t; [contradiction | discriminate]. }
  destruct (choice_ok (dict_keys t) (dict_values t) x) as [pg' [Hc Hin]].
  - unfold dict_keys, dict_values. now rewrite !length_map.
  - pose proof (py_sum_pos _ Hne Hpos). lra.
  - exact Hx.
  - exists t, pg'. split; [exact Ht|]. split; [exact Hc|].
    exact (Permutation_in _ HP Hin).
Qed.

Lemma sample_loop_spec (corpus : corpus_t) (d : Q) (draws : nat -> Q) :
  well_formed corpus = true ->
  corpus_invariant corpus = true ->
  0 < d -> d < 1 -> (forall i, draws i < 1) ->
  forall n i pg counts,
    In pg (dict_keys corpus) ->
    exists visited pg',
      drawn_pages corpus d draws i n pg = Ok visited /\
      length visited = n /\
      for_each (sample_step corpus d draws) (seq i n) (pg, counts)
      = Ok (pg', fold_left counts_incr visited counts).
Proof.
  intros Hwf Hinv Hd0 Hd1 Hdraws.
  induction n as [|n IH]; intros i pg counts Hpg; simpl.
  - exists [], pg. repeat split.
  - destruct (draw_ok corpus pg d (draws i) Hwf Hinv Hd0 Hd1 (Hdraws i) Hpg)
      as [t [pg1 [Ht [Hc Hin]]]].
    unfold sample_step at 1. simpl fst. simpl snd. rewrite Ht. simpl bind. rewrite Hc.
    simpl bind.
    destruct (IH (S i) pg1 (counts_incr counts pg1) Hin) as [visited [pg' [Hv [Hlen Hf]]]].
    rewrite Hv, Hf. simpl bind.
    exists (pg1 :: visited), pg'. repeat split. simpl. now rewrite Hlen.
Qed.

Lemma count_of_incr (counts : dict nat) (q p : page) :
  count_of (counts_incr counts q) p
  = (count_of counts p + if string_dec q p then 1 else 0)%nat.
Proof.
  unfold count_of, counts_incr. destruct (string_dec q p) as [->|Hne].
  - now rewrite dict_get_set_same.
  - rewrite dict_get_set_other by exact Hne. lia.
Qed.

Lemma dict_get_incr_None (counts : dict nat) (q p : page) :
  dict_get (counts_incr counts q) p = None <-> dict_get counts p = None /\ q <> p.
Proof.
  unfold counts_incr. destruct (string_dec q p) as [->|Hne].
  - rewrite dict_get_set_same. split; [discriminate | tauto].
  - rewrite dict_get_set_other by exact Hne. tauto.
Qed.

Lemma count_of_fold (visited : list page) (counts : dict nat) (p : page) :
  count_of (fold_left counts_incr visited counts) p
  = (count_of counts p + count_occ string_dec visited p)%nat.
Proof.
  revert counts. induction visited as [|q visited IH]; intros counts; simpl.
  - lia.
  - rewrite IH, count_of_incr. destruct (string_dec q p); lia.
Qed.

Lemma dict_get_fold_None (visited : list page) (counts : dict nat) (p : page) :
  dict_get (fold_left counts_incr visited counts) p = None
  <-> dict_get counts p = None /\ ~ In p visited.
Proof.
  revert counts. induction visited as [|q visited IH]; intros counts; simpl.
  - tauto.
  - rewrite IH, dict_get_incr_None. intuition congruence.
Qed.

(** The counters after the walk: a page never drawn has no entry, a page
    drawn [c > 0] times has the entry [c]. *)
Lemma counts_after_walk (visited : list page) (p : page) :
  dict_get (fold_left counts_incr visited []) p
  = if (count_occ string_dec visited p =? 0)%nat then None
    else Some (count_occ string_dec visited p).
Proof.
  pose proof (count_of_fold visited [] p) as Hc.
  pose proof (dict_get_fold_None visited [] p) as Hn.
  unfold count_of in Hc. simpl in Hc, Hn.
  destruct (count_occ string_dec visited p =? 0)%nat eqn:E.
  - apply Nat.eqb_eq in E. apply Hn. split; [reflexivity|].
    now apply count_occ_not_In in E.
  - apply Nat.eqb_neq in E.
    destruct (dict_get (fold_left counts_incr visited []) p) as [c|]; [now subst|].
    exfalso. destruct Hn as [Hn _]. destruct (Hn eq_refl) as [_ Hn'].
    apply (count_occ_not_In string_dec) in Hn'. contradiction.
Qed.

Lemma list_sum_incr (counts : dict nat) (q : page) :
  list_sum (dict_values (counts_incr counts q)) = S (list_sum (dict_values counts)).
Proof.
  unfold counts_incr. induction counts as [|[k c] counts IH]; simpl.
  - reflexivity.
  - destruct (String.eqb k q) eqn:E; simpl.
    + lia.
    + simpl in IH. rewrite IH. lia.
Qed.

Lemma list_sum_fold (visited : list page) (counts : dict nat) :
  list_sum (dict_values (fold_left counts_incr visited counts))
  = (list_sum (dict_values counts) + length visited)%nat.
Proof.
  revert counts. induction visited as [|q visited IH]; intros counts; simpl.
  - lia.
  - rewrite IH, list_sum_incr. lia.
Qed.

Lemma py_sum_frequencies (counts : dict nat) (c : Q) :
  py_sum (dict_values (map (fun kv => (fst kv, Qnat (snd kv) / c)) counts))
  == Qnat (list_sum (dict_values counts)) / c.
Proof.
  induction counts as [|[k v] counts IH]; simpl.
  - unfold py_sum, Qnat. simpl. unfold Qdiv. ring.
  - simpl in IH. rewrite py_sum_cons, IH, Qnat_plus. unfold Qdiv. ring.
Qed.

Lemma random_choice_ok (corpus : corpus_t) (r : nat) :
  corpus <> [] ->
  exists start, random_choice (dict_keys corpus) r = Ok start /\ In start (dict_keys corpus).
Proof.
  intros Hne. unfold random_choice, list_getitem.
  destruct (dict_keys corpus) as [|k ks] eqn:E.
  - destruct corpus; [congruence | discriminate].
  - destruct (nth_error (k :: ks) (r mod length (k :: ks))) as [start|] eqn:Hn.
    + exists start. split; [reflexivity|]. eapply nth_error_In; eauto.
    + apply nth_error_None in Hn.
      pose proof (Nat.mod_upper_bound r (length (k :: ks))) as Hlt.
      simpl in *. lia.
Qed.

(** The walk of [sample_pagerank] succeeds and leaves the counters of the
    pages it drew. *)
Lemma sample_walk_spec (corpus : corpus_t) (d : Q) (n r : nat) (draws : nat -> Q) :
  well_formed corpus = true ->
  corpus_invariant corpus = true ->
  corpus <> [] ->
  0 < d -> d < 1 -> (forall i, 0 <= draws i /\ draws i < 1) ->
  exists start visited last_page,
    random_choice (dict_keys corpus) r = Ok start /\
    drawn_pages corpus d draws 0 n start = Ok visited /\
    length visited = n /\
    sample_walk corpus d n r draws = Ok (last_page, fold_left counts_incr visited []).
Proof.
  intros Hwf Hinv Hne Hd0 Hd1 Hdraws.
  destruct (random_choice_ok corpus r Hne) as [start [Hs Hin]].
  destruct (sample_loop_spec corpus d draws Hwf Hinv Hd0 Hd1
              (fun i => proj2 (Hdraws i)) n 0%nat start [] Hin)
    as [visited [pg' [Hv [Hlen Hf]]]].
  exists start, visited, pg'. repeat split; try assumption.
  unfold sample_walk. rewrite Hs. simpl bind. exact Hf.
Qed.

(** C7: [sample_pagerank] picks a starting page with [random.choice], then
    performs exactly [n] draws, each from the transition model of the page
    drawn before it; [visited] lists the pages drawn and does not contain
    the starting position.  The returned table maps every page drawn at
    least once to [count/n], where [count] is the number of times it was
    drawn, and has no entry for a page never drawn. *)
Theorem sample_pagerank_visit_frequencies
    (corpus : corpus_t) (d : Q) (n r : nat) (draws : nat -> Q) :
  well_formed corpus = true ->
  corpus_invariant corpus = true ->
  corpus <> [] ->
  0 < d -> d < 1 -> (1 <= n)%nat ->
  (forall i, 0 <= draws i /\ draws i < 1) ->
  exists start visited table,
    random_choice (dict_keys corpus) r = Ok start /\
    drawn_pages corpus d draws 0 n start = Ok visited /\
    length visited = n /\
    sample_pagerank corpus d n r draws = Ok table /\
    forall p, dict_get table p
              = if (count_occ string_dec visited p =? 0)%nat then None
                else Some (Qnat (count_occ string_dec visited p) / Qnat n).
Proof.
  intros Hwf Hinv Hne Hd0 Hd1 _ Hdraws.
  destruct (sample_walk_spec corpus d n r draws Hwf Hinv Hne Hd0 Hd1 Hdraws)
    as [start [visited [pg' [Hs [Hv [Hlen Hw]]]]]].
  exists start, visited,
    (map (fun kv => (fst kv, Qnat (snd kv) / Qnat n)) (fold_left counts_incr visited [])).
  repeat split; try assumption.
  - unfold sample_pagerank. rewrite Hw. reflexivity.
  - intros p.
    rewrite (dict_get_map_values (fun c => Qnat c / Qnat n)), counts_after_walk.
    now destruct (count_occ string_dec visited p =? 0)%nat.
Qed.

Lemma sample_pagerank_visit_frequencies_witness :
  exists start visited table,
    random_choice (dict_keys corpus_dangling) 0 = Ok start /\
    drawn_pages corpus_dangling (85 # 100) (fun _ => 1 # 2) 0 3 start = Ok visited /\
    length visited = 3%nat /\
    sample_pagerank corpus_dangling (85 # 100) 3 0 (fun _ => 1 # 2) = Ok table /\
    forall p, dict_get table p
              = if (count_occ string_dec visited p =? 0)%nat then None
                else Some (Qnat (count_occ string_dec visited p) / Qnat 3).
Proof.
  apply (sample_pagerank_visit_frequencies corpus_dangling (85 # 100) 3 0 (fun _ => 1 # 2)).
  - reflexivity.
  - reflexivity.
  - discriminate.
  - reflexivity.
  - reflexivity.
  - lia.
  - intros i. split; [discriminate | reflexivity].
Defined.

(** ** Loops that may raise *)

Lemma comprehension_forallb {A : Type} (f : A -> result bool) (l : list A) (ys : list bool) :
  comprehension f l = Ok ys ->
  (forallb (fun b => b) ys = true <-> forall x, In x l -> f x = Ok true).
Proof.
  revert ys. induction l as [|x l IH]; intros ys; simpl.
  - intros [= <-]. simpl. split; [intros _ ? [] | reflexivity].
  - destruct (f x) as [b|e] eqn:Hx; simpl; [|discriminate].
    destruct (comprehension f l) as [ys'|e] eqn:Hl; simpl; [|discriminate].
    intros [= <-]. simpl. rewrite andb_true_iff, (IH ys' eq_refl). split.
    + intros [-> H] x' [<-|Hin]; [exact Hx | now apply H].
    + intros H. split.
      * specialize (H x (or_introl eq_refl)). congruence.
      * intros x' Hin. apply H. now right.
Qed.

Lemma comprehension_Ok_each {A B : Type} (f : A -> result B) (l : list A) (ys : list B) :
  comprehension f l = Ok ys -> forall x, In x l -> exists y, f x = Ok y.
Proof.
  revert ys. induction l as [|x l IH]; intros ys; simpl.
  - intros _ ? [].
  - destruct (f x) as [b|e] eqn:Hx; simpl; [|discriminate].
    destruct (comprehension f l) as [ys'|e] eqn:Hl; simpl; [|discriminate].
    intros _ x' [<-|Hin]; [eauto | exact (IH ys' eq_refl x' Hin)].
Qed.

Lemma comprehension_total {A B : Type} (f : A -> result B) (g : A -> B) (l : list A) :
  (forall x, In x l -> f x = Ok (g x)) -> comprehension f l = Ok (map g l).
Proof.
  induction l as [|x l IH]; intros H; simpl; [reflexivity|].
  rewrite (H x (or_introl eq_refl)). simpl.
  rewrite IH by (intros x' Hin; apply H; now right). reflexivity.
Qed.

Lemma for_each_Raise {A S : Type} (body : S -> A -> result S) (l : list A) (acc : S) (e : exn) :
  for_each body l acc = Raise e -> exists acc' x, In x l /\ body acc' x = Raise e.
Proof.
  revert acc. induction l as [|x l IH]; intros acc; simpl; [discriminate|].
  destruct (body acc x) as [acc1|e1] eqn:Hb; simpl.
  - intros H. destruct (IH _ H) as [acc' [x' [Hin Hx]]]. exists acc', x'. split; [now right | exact Hx].
  - intros [= ->]. exists acc, x. split; [now left | exact Hb].
Qed.

Lemma for_each_not_nil {A V : Type} (body : dict V -> A -> result (dict V))
    (l : list A) (acc r : dict V) :
  (forall a x r', body a x = Ok r' -> r' <> []) ->
  l <> [] -> for_each body l acc = Ok r -> r <> [].
Proof.
  intros Hbody. revert acc. induction l as [|x l IH]; intros acc Hne; [congruence|].
  simpl. destruct (body acc x) as [acc1|e1] eqn:Hb; simpl; [|discriminate].
  destruct l as [|y l'].
  - simpl. intros [= <-]. exact (Hbody _ _ _ Hb).
  - apply IH. discriminate.
Qed.

(** ** is_converged *)

Lemma In_insert_item {V : Type} (kv x : page * V) (l : list (page * V)) :
  In x (insert_item kv l) <-> x = kv \/ In x l.
Proof.
  induction l as [|kv' l IH]; simpl.
  - intuition.
  - destruct (String.leb (fst kv) (fst kv')); simpl; [intuition | rewrite IH; intuition].
Qed.

Lemma In_sorted {V : Type} (x : page * V) (l : list (page * V)) :
  In x (sorted l) <-> In x l.
Proof.
  induction l as [|kv l IH]; simpl; [tauto|].
  rewrite In_insert_item, IH. intuition.
Qed.

(** The test is true exactly when every page's new rank is within
    [EPSILON] of its previous rank. *)
Lemma is_converged_spec (prev_pr next_pr : dict Q) (b : bool) :
  is_converged prev_pr next_pr = Ok b ->
  (b = true <->
   forall p v, In (p, v) prev_pr ->
     exists nv, dict_get next_pr p = Some nv /\ Qabs (nv - v) <= EPSILON).
Proof.
  unfold is_converged.
  destruct (comprehension _ (sorted prev_pr)) as [tests|e] eqn:Hc; simpl; [|discriminate].
  intros [= <-]. rewrite (comprehension_forallb _ _ _ Hc). split.
  - intros H p v Hin. apply (proj2 (In_sorted _ _)) in Hin. specialize (H _ Hin). simpl fst in H. simpl snd in H.
    unfold getitem in H. destruct (dict_get next_pr p) as [nv|]; simpl bind in H; [|discriminate].
    exists nv. split; [reflexivity|]. injection H as H. now apply Qle_bool_iff.
  - intros H [p v] Hin. apply (proj1 (In_sorted _ _)) in Hin. destruct (H _ _ Hin) as [nv [Hg Hle]].
    simpl fst. simpl snd. unfold getitem. rewrite Hg. simpl bind. f_equal. now apply Qle_bool_iff.
Qed.

Lemma is_converged_defined (prev_pr next_pr : dict Q) :
  dict_keys next_pr = dict_keys prev_pr -> exists b, is_converged prev_pr next_pr = Ok b.
Proof.
  intros Hk. unfold is_converged.
  rewrite (comprehension_total _
             (fun kv => Qle_bool (Qabs (rank_of next_pr (fst kv) - snd kv)) EPSILON)).
  - simpl. eauto.
  - intros [p v] Hin. apply (proj1 (In_sorted _ _)) in Hin. simpl.
    assert (In p (dict_keys next_pr)) as Hp.
    { rewrite Hk. apply (in_map fst) in Hin. exact Hin. }
    destruct (dict_get_key_Some _ _ Hp) as [nv Hg].
    unfold getitem, rank_of. now rewrite Hg.
Qed.

(** ** renormalize *)

Lemma py_sum_map_div {A : Type} (f : A -> Q) (c : Q) (l : list A) :
  py_sum (map (fun x => f x / c) l) == py_sum (map f l) / c.
Proof.
  induction l as [|x l IH]; simpl.
  - unfold py_sum. simpl. unfold Qdiv. ring.
  - rewrite !py_sum_cons, IH. unfold Qdiv. ring.
Qed.

Lemma renormalize_inv (next_pagerank t : dict Q) :
  renormalize next_pagerank = Ok t ->
  next_pagerank <> [] ->
  ~ py_sum (dict_values next_pagerank) == 0 /\
  t = map (fun kv => (fst kv, snd kv / py_sum (dict_values next_pagerank))) next_pagerank.
Proof.
  unfold renormalize. intros H Hne.
  assert (Qeq_bool (py_sum (dict_values next_pagerank)) 0 = false) as Hb.
  { destruct next_pagerank as [|kv l]; [congruence|].
    destruct (comprehension_Ok_each _ _ _ H kv (or_introl eq_refl)) as [y Hy].
    unfold py_div in Hy.
    destruct (Qeq_bool (py_sum (dict_values (kv :: l))) 0); [discriminate | reflexivity]. }
  split.
  - intros E. apply Qeq_bool_iff in E. congruence.
  - rewrite (comprehension_total _
               (fun kv => (fst kv, snd kv / py_sum (dict_values next_pagerank)))) in H.
    + now injection H.
    + intros kv _. unfold py_div. now rewrite Hb.
Qed.

Lemma renormalize_sum (next_pagerank t : dict Q) :
  renormalize next_pagerank = Ok t ->
  next_pagerank <> [] ->
  py_sum (dict_values t) == 1 /\ dict_keys t = dict_keys next_pagerank.
Proof.
  intros H Hne. destruct (renormalize_inv _ _ H Hne) as [Hs ->]. split.
  - unfold dict_values at 1. rewrite map_map. simpl.
    rewrite (py_sum_map_div snd). unfold dict_values. field. exact Hs.
  - apply dict_keys_map_values with (f := fun v => v / py_sum (dict_values next_pagerank)).
Qed.

(** ** The reverse index *)

Lemma dict_set_map_key {V : Type} (f : page -> V) (keys : list page) (x : page) (w : V) :
  NoDup keys -> In x keys ->
  dict_set (map (fun p => (p, f p)) keys) x w
  = map (fun p => (p, if String.eqb p x then w else f p)) keys.
Proof.
  induction keys as [|k ks IH]; intros Hnd Hin; [contradiction|].
  inversion Hnd as [|? ? Hk Hks]; subst. simpl.
  destruct (String.eqb k x) eqn:E.
  - apply String.eqb_eq in E. subst k. f_equal.
    apply map_ext_in. intros p Hp.
    assert (String.eqb p x = false) as ->; [|reflexivity].
    apply String.eqb_neq. intros ->. contradiction.
  - f_equal. apply IH; [exact Hks|].
    destruct Hin as [->|Hin]; [|exact Hin].
    rewrite String.eqb_refl in E. discriminate.
Qed.

Lemma linkers_app (done todo : corpus_t) (p : page) :
  linkers (done ++ todo) p = linkers done p ++ linkers todo p.
Proof.
  unfold linkers. now rewrite filter_app, map_app.
Qed.

Lemma linkers_keys (corpus : corpus_t) (p q : page) :
  In q (linkers corpus p) -> In q (dict_keys corpus).
Proof.
  unfold linkers, dict_keys. intros H. apply in_map_iff in H.
  destruct H as [kv [<- Hkv]]. apply filter_In in Hkv. apply in_map. tauto.
Qed.

Lemma linkers_spec (corpus : corpus_t) (p q : page) :
  NoDup (dict_keys corpus) ->
  (In q (linkers corpus p)
   <-> exists v, dict_get corpus q = Some v /\ In p (elements v)).
Proof.
  intros Hnd. unfold linkers. rewrite in_map_iff. split.
  - intros [[k v] [<- Hkv]]. apply filter_In in Hkv. destruct Hkv as [Hin Hm].
    exists v. split; [now apply In_dict_get | now apply set_mem_iff].
  - intros [v [Hg Hp]]. exists (q, v). split; [reflexivity|].
    apply filter_In. split; [now apply dict_get_In | now apply set_mem_iff].
Qed.

(** The inner loop of lines 134-135 for one corpus entry [k]. *)
Lemma reverse_add_loop (keys : list page) (k : page) :
  NoDup keys ->
  forall (l : list page) (f : page -> list page),
    NoDup l -> incl l keys -> (forall p, In p l -> ~ In k (f p)) ->
    for_each (reverse_add k) l (map (fun p => (p, f p)) keys)
    = Ok (map (fun p => (p, if set_mem p l then f p ++ [k] else f p)) keys).
Proof.
  intros Hnd. induction l as [|x l IH]; intros f Hl Hincl Hfresh; simpl.
  - reflexivity.
  - inversion Hl as [|? ? Hx Hl']; subst.
    assert (In x keys) as Hxk by (apply Hincl; now left).
    unfold reverse_add at 1, getitem. rewrite dict_get_map_key.
    apply set_mem_iff in Hxk as Hm. rewrite Hm. simpl bind.
    rewrite dict_set_map_key by assumption.
    assert (set_add (f x) k = f x ++ [k]) as ->.
    { unfold set_add. assert (set_mem k (f x) = false) as ->; [|reflexivity].
      apply set_mem_false_iff. apply Hfresh. now left. }
    assert (forall p, In p l ->
              ~ In k (if String.eqb p x then f x ++ [k] else f p)) as Hfresh'.
    { intros p Hp. assert (String.eqb p x = false) as ->.
      { apply String.eqb_neq. intros ->. contradiction. }
      apply Hfresh. now right. }
    pose proof (IH (fun p => if String.eqb p x then f x ++ [k] else f p) Hl'
                  (fun p Hp => Hincl p (or_intror Hp)) Hfresh') as IH'.
    cbv beta in IH'. etransitivity; [exact IH'|].
    f_equal. apply map_ext_in. intros p Hp. f_equal.
    destruct (String.eqb p x) eqn:E; simpl; [|reflexivity].
    apply String.eqb_eq in E. subst p.
    apply set_mem_false_iff in Hx. now rewrite Hx.
Qed.

Lemma build_reverse_prefix (corpus : corpus_t) :
  well_formed corpus = true ->
  corpus_invariant corpus = true ->
  forall todo done,
    corpus = done ++ todo ->
    for_each (fun rc kv => for_each (reverse_add (fst kv)) (elements (snd kv)) rc)
      todo (map (fun p => (p, linkers done p)) (dict_keys corpus))
    = Ok (map (fun p => (p, linkers corpus p)) (dict_keys corpus)).
Proof.
  intros Hwf Hinv.
  pose proof (well_formed_keys _ Hwf) as Hnd.
  induction todo as [|[k v] todo IH]; intros done Hc; simpl.
  - rewrite app_nil_r in Hc. now subst.
  - assert (In (k, v) corpus) as Hkv by (rewrite Hc; apply in_or_app; right; now left).
    pose proof (In_dict_get _ _ _ Hnd Hkv) as Hg.
    rewrite reverse_add_loop.
    + simpl bind. rewrite <- (IH (done ++ [(k, v)])).
      * f_equal. apply map_ext. intros p. f_equal.
        rewrite linkers_app.
        assert (linkers [(k, v)] p = if set_mem p (elements v) then [k] else []) as ->.
        { unfold linkers. simpl. now destruct (set_mem p (elements v)). }
        destruct (set_mem p (elements v)); [reflexivity | now rewrite app_nil_r].
      * now rewrite <- app_assoc.
    + exact Hnd.
    + exact (well_formed_links _ _ _ Hwf Hg).
    + exact (corpus_invariant_links _ _ _ Hinv Hg).
    + intros p _ Hin. apply linkers_keys in Hin.
      rewrite Hc in Hnd. unfold dict_keys in Hnd, Hin. rewrite map_app in Hnd. simpl in Hnd.
      apply NoDup_remove_2 in Hnd. apply Hnd, in_or_app. now left.
Qed.

(** Under the Corpus invariant the reverse index maps every corpus page to
    the pages that link to it. *)
Lemma build_reverse_spec (corpus : corpus_t) :
  well_formed corpus = true ->
  corpus_invariant corpus = true ->
  build_reverse corpus (map (fun k => (k, [])) (dict_keys corpus))
  = Ok (map (fun p => (p, linkers corpus p)) (dict_keys corpus)).
Proof.
  intros Hwf Hinv. unfold build_reverse.
  exact (build_reverse_prefix corpus Hwf Hinv corpus [] eq_refl).
Qed.

Lemma iterate_init_spec (corpus : corpus_t) (d : Q)
    (prev0 : dict Q) (rc : dict (list page)) (rv : Q) :
  well_formed corpus = true ->
  corpus_invariant corpus = true ->
  iterate_init corpus d = Ok (prev0, rc, rv) ->
  corpus <> [] /\
  prev0 = map (fun p => (p, 1 / Qnat (length (dict_keys corpus)))) (dict_keys corpus) /\
  rc = map (fun p => (p, linkers corpus p)) (dict_keys corpus) /\
  rv = (1 - d) / Qnat (length (dict_keys corpus)).
Proof.
  intros Hwf Hinv. unfold iterate_init, py_div.
  destruct (Qeq_bool (Qnat (length (dict_keys corpus))) 0) eqn:E; simpl bind; [discriminate|].
  rewrite (build_reverse_spec _ Hwf Hinv). simpl bind.
  rewrite combine_ones1, dict_of_items_nodup
    by (rewrite map_map; simpl; rewrite map_id; now apply well_formed_keys).
  intros [= <- <- <-]. repeat split.
  intros ->. discriminate.
Qed.

(** ** The sweep *)

Lemma Qnat_eq_bool (n : nat) : Qeq_bool (Qnat n) 0 = false <-> n <> O.
Proof.
  split.
  - intros H ->. discriminate.
  - intros H. destruct (Qeq_bool (Qnat n) 0) eqn:E; [|reflexivity].
    apply Qeq_bool_iff in E. assert (0 < Qnat n) by (apply Qnat_pos; lia). lra.
Qed.

Lemma reverse_index_get (corpus : corpus_t) (p : page) (s : list page) :
  dict_get (map (fun p => (p, linkers corpus p)) (dict_keys corpus)) p = Some s ->
  s = linkers corpus p.
Proof.
  rewrite dict_get_map_key. destruct (set_mem p (dict_keys corpus)); congruence.
Qed.

(** C10, the key fact: a page found in a reverse-index set has a link. *)
Lemma linker_has_link (corpus : corpus_t) (p q : page) :
  NoDup (dict_keys corpus) ->
  In q (linkers corpus p) ->
  exists v, dict_get corpus q = Some v /\ (1 <= length (elements v))%nat.
Proof.
  intros Hnd Hq. apply linkers_spec in Hq; [|exact Hnd].
  destruct Hq as [v [Hg Hp]]. exists v. split; [exact Hg|].
  destruct (elements v); [contradiction | simpl; lia].
Qed.

Lemma inbound_fold (corpus : corpus_t) (prev : dict Q) (s : list page) (acc : Q) :
  (forall q, In q s -> In q (dict_keys prev) /\ out_degree corpus q <> O) ->
  for_each (fun tmp pg =>
              r <- getitem prev pg ;;
              l <- getitem corpus pg ;;
              q <- py_div r (Qnat (length (elements l))) ;;
              Ok (tmp + q))
    s acc
  = Ok (fold_left (fun tmp q => tmp + rank_share corpus prev q) s acc).
Proof.
  revert acc. induction s as [|q s IH]; intros acc H; simpl; [reflexivity|].
  destruct (H q (or_introl eq_refl)) as [Hq Hdeg].
  destruct (dict_get_key_Some _ _ Hq) as [r Hr].
  unfold out_degree in Hdeg. destruct (dict_get corpus q) as [v|] eqn:Hv; [|congruence].
  assert (rank_share corpus prev q = r / Qnat (length (elements v))) as ->.
  { unfold rank_share, rank_of, out_degree. now rewrite Hr, Hv. }
  unfold getitem. rewrite Hr, Hv. simpl bind. unfold py_div.
  apply Qnat_eq_bool in Hdeg. rewrite Hdeg. simpl bind.
  apply IH. intros q' Hq'. apply H. now right.
Qed.

Lemma inbound_total_sum (corpus : corpus_t) (prev : dict Q) (s : list page) :
  inbound_total corpus prev s == py_sum (map (rank_share corpus prev) s).
Proof.
  assert (forall acc, fold_left (fun tmp q => tmp + rank_share corpus prev q) s acc
                      == acc + py_sum (map (rank_share corpus prev) s)) as H.
  { induction s as [|q s IH]; intros acc; simpl.
    - unfold py_sum. simpl. ring.
    - rewrite IH, py_sum_cons. ring. }
  unfold inbound_total. rewrite H. ring.
Qed.

Lemma inbound_ok (corpus : corpus_t) (prev : dict Q) (s : list page) :
  (forall q, In q s -> In q (dict_keys prev) /\ out_degree corpus q <> O) ->
  inbound corpus prev s = Ok (inbound_total corpus prev s).
Proof.
  intros H. unfold inbound, inbound_total. now apply inbound_fold.
Qed.

Lemma inbound_no_zero_division (corpus : corpus_t) (prev : dict Q) (s : list page) :
  (forall q v, In q s -> dict_get corpus q = Some v -> elements v <> []) ->
  inbound corpus prev s <> Raise ZeroDivisionError.
Proof.
  intros H Hr. unfold inbound in Hr. apply for_each_Raise in Hr.
  destruct Hr as [acc [q [Hq Hb]]]. unfold getitem in Hb.
  destruct (dict_get prev q) as [r|]; simpl bind in Hb; [|discriminate].
  destruct (dict_get corpus q) as [v|] eqn:Hv; simpl bind in Hb; [|discriminate].
  unfold py_div in Hb.
  destruct (Qeq_bool (Qnat (length (elements v))) 0) eqn:E; simpl bind in Hb; [|discriminate].
  specialize (H q v Hq Hv).
  assert (length (elements v) <> O) as Hlen by (destruct (elements v); [congruence | discriminate]).
  apply Qnat_eq_bool in Hlen. congruence.
Qed.

(** The unnormalised table one sweep computes from [prev]. *)
Lemma sweep_spec (corpus : corpus_t) (d rv : Q) (prev : dict Q) :
  well_formed corpus = true ->
  dict_keys prev = dict_keys corpus ->
  sweep corpus d (map (fun p => (p, linkers corpus p)) (dict_keys corpus)) rv prev
  = Ok (map (fun kv => (fst kv, rv + d * inbound_total corpus prev (linkers corpus (fst kv))))
          prev).
Proof.
  intros Hwf Hk. pose proof (well_formed_keys _ Hwf) as Hnd. unfold sweep.
  assert (forall (l : dict Q) acc,
            incl (map fst l) (dict_keys corpus) ->
            NoDup (dict_keys acc ++ map fst l) ->
            for_each
              (fun next_pagerank kv =>
                 s <- getitem (map (fun p => (p, linkers corpus p)) (dict_keys corpus)) (fst kv) ;;
                 tmp <- inbound corpus prev s ;;
                 Ok (dict_set next_pagerank (fst kv) (rv + d * tmp)))
              l acc
            = Ok (acc ++ map (fun kv =>
                                (fst kv, rv + d * inbound_total corpus prev (linkers corpus (fst kv))))
                           l)) as H.
  { induction l as [|[k v] l IH]; intros acc Hincl Hfresh; simpl.
    - now rewrite app_nil_r.
    - assert (In k (dict_keys corpus)) as Hkin by (apply Hincl; now left).
      unfold getitem at 1. rewrite dict_get_map_key.
      apply set_mem_iff in Hkin as Hm. rewrite Hm. simpl bind.
      rewrite inbound_ok.
      + simpl bind. simpl in Hfresh.
        rewrite dict_set_fresh
          by (intros Hin; apply (NoDup_remove_2 _ _ _ Hfresh); apply in_or_app; now left).
        rewrite IH.
        * now rewrite <- app_assoc.
        * intros p Hp. apply Hincl. now right.
        * unfold dict_keys in *. rewrite map_app, <- app_assoc. exact Hfresh.
      + intros q Hq. split.
        * rewrite Hk. exact (linkers_keys _ _ _ Hq).
        * destruct (linker_has_link _ _ _ Hnd Hq) as [v' [Hg Hlen]].
          unfold out_degree. rewrite Hg. lia. }
  rewrite H.
  - reflexivity.
  - unfold dict_keys in Hk. rewrite Hk. apply incl_refl.
  - simpl. unfold dict_keys in Hk. rewrite Hk. exact Hnd.
Qed.

Lemma iteration_keys (corpus : corpus_t) (d rv : Q) (prev next : dict Q) (c : bool) :
  well_formed corpus = true ->
  dict_keys prev = dict_keys corpus ->
  iteration corpus d (map (fun p => (p, linkers corpus p)) (dict_keys corpus)) rv prev
  = Ok (next, c) ->
  dict_keys next = dict_keys corpus.
Proof.
  intros Hwf Hk. unfold iteration. rewrite (sweep_spec _ _ _ _ Hwf Hk). simpl bind.
  destruct (renormalize _) as [t|e] eqn:Hr; simpl bind; [|discriminate].
  destruct (is_converged prev t) as [b|e]; simpl bind; [|discriminate].
  intros [= <- _]. rewrite <- Hk.
  destruct prev as [|kv prev'].
  - simpl in Hr. unfold renormalize in Hr. simpl in Hr. now injection Hr as <-.
  - apply renormalize_sum in Hr; [|discriminate].
    destruct Hr as [_ ->]. unfold dict_keys. now rewrite map_map.
Qed.

Lemma sweeps_to_keys (corpus : corpus_t) (d rv : Q) (k : nat) (prev0 prev : dict Q) :
  well_formed corpus = true ->
  sweeps_to corpus d (map (fun p => (p, linkers corpus p)) (dict_keys corpus)) rv k prev0 prev ->
  dict_keys prev0 = dict_keys corpus ->
  dict_keys prev = dict_keys corpus.
Proof.
  intros Hwf Hs. induction Hs as [prev|k prev next last Hit _ IH]; intros Hk.
  - exact Hk.
  - apply IH. exact (iteration_keys _ _ _ _ _ _ Hwf Hk Hit).
Qed.

(** C10: for a corpus satisfying the Corpus invariant, every page [q] placed
    in a reverse-index set has at least one outgoing link, so
    [len(corpus[q]) >= 1] and the division of line 141 never raises
    [ZeroDivisionError], whatever table the sweep starts from. *)
Theorem sweep_never_divides_by_zero
    (corpus : corpus_t) (d : Q) (prev0 : dict Q) (rc : dict (list page)) (rv : Q) :
  well_formed corpus = true ->
  corpus_invariant corpus = true ->
  iterate_init corpus d = Ok (prev0, rc, rv) ->
  (forall p s q, dict_get rc p = Some s -> In q s ->
     exists v, dict_get corpus q = Some v /\ (1 <= length (elements v))%nat) /\
  (forall prev, sweep corpus d rc rv prev <> Raise ZeroDivisionError).
Proof.
  intros Hwf Hinv Hinit.
  destruct (iterate_init_spec _ _ _ _ _ Hwf Hinv Hinit) as [_ [_ [-> _]]].
  pose proof (well_formed_keys _ Hwf) as Hnd.
  assert (forall p s q,
            dict_get (map (fun p => (p, linkers corpus p)) (dict_keys corpus)) p = Some s ->
            In q s ->
            exists v, dict_get corpus q = Some v /\ (1 <= length (elements v))%nat) as Hlinks.
  { intros p s q Hs Hq. apply reverse_index_get in Hs. subst s.
    exact (linker_has_link _ _ _ Hnd Hq). }
  split; [exact Hlinks|].
  intros prev Hr. unfold sweep in Hr. apply for_each_Raise in Hr.
  destruct Hr as [acc [[k v] [_ Hb]]]. simpl fst in Hb. unfold getitem in Hb.
  destruct (dict_get _ k) as [s|] eqn:Hs; simpl bind in Hb; [|discriminate].
  destruct (inbound corpus prev s) as [tmp|e] eqn:Hi; simpl bind in Hb; [discriminate|].
  injection Hb as ->. revert Hi. apply inbound_no_zero_division.
  intros q v' Hq Hg. destruct (Hlinks _ _ _ Hs Hq) as [v'' [Hg' Hlen]].
  assert (v'' = v') by congruence. subst v''.
  intros E. rewrite E in Hlen. simpl in Hlen. lia.
Qed.

Lemma sweep_never_divides_by_zero_witness :
  (forall p s q,
     dict_get [("1.html"%string, []); ("2.html"%string, ["1.html"%string])] p = Some s ->
     In q s ->
     exists v, dict_get corpus_dangling q = Some v /\ (1 <= length (elements v))%nat) /\
  (forall prev,
     sweep corpus_dangling (85 # 100)
       [("1.html"%string, []); ("2.html"%string, ["1.html"%string])] (15 # 200) prev
     <> Raise ZeroDivisionError).
Proof.
  apply (sweep_never_divides_by_zero corpus_dangling (85 # 100)
           [("1.html"%string, 1 # 2); ("2.html"%string, 1 # 2)]).
  - reflexivity.
  - reflexivity.
  - vm_compute. reflexivity.
Defined.

Lemma dict_get_map_by_key {V W : Type} (g : page -> W) (d : dict V) (p : page) :
  dict_get (map (fun kv => (fst kv, g (fst kv))) d) p
  = option_map (fun _ => g p) (dict_get d p).
Proof.
  induction d as [|[k v] d IH]; simpl; [reflexivity|].
  destruct (String.eqb k p) eqn:E; [|exact IH].
  apply String.eqb_eq in E. now subst.
Qed.

Lemma inbound_sum_frame (corpus : corpus_t) (prev : dict Q) (q p : page) (r : Q) :
  ~ In q (linkers corpus p) ->
  inbound_sum corpus (dict_set prev q r) p = inbound_sum corpus prev p.
Proof.
  intros Hq. unfold inbound_sum. f_equal. apply map_ext_in. intros q' Hq'.
  unfold rank_share, rank_of. rewrite dict_get_set_other; [reflexivity|].
  intros ->. contradiction.
Qed.

(** C5: in every sweep of [iterate_pagerank] (the sweep of each table
    [prev] the loop reaches), the rank computed for a corpus page [p]
    before renormalisation equals
    [(1-damping)/N + damping * sum over the pages q linking to p of
    prev[q]/|outgoing(q)|].  A dangling page [q] occurs in no
    reverse-index set, and no page's sum depends on the rank of [q]. *)
Theorem sweep_update_rule
    (corpus : corpus_t) (d : Q) (prev0 : dict Q) (rc : dict (list page)) (rv : Q) :
  well_formed corpus = true ->
  corpus_invariant corpus = true ->
  iterate_init corpus d = Ok (prev0, rc, rv) ->
  (forall k prev,
     sweeps_to corpus d rc rv k prev0 prev ->
     exists new_rank,
       sweep corpus d rc rv prev = Ok new_rank /\
       forall p, In p (dict_keys corpus) ->
         exists w, dict_get new_rank p = Some w /\
           w == (1 - d) / Qnat (length (dict_keys corpus))
                + d * inbound_sum corpus prev p) /\
  (forall q v, dict_get corpus q = Some v -> elements v = [] ->
     (forall p s, dict_get rc p = Some s -> ~ In q s) /\
     (forall prev r p, inbound_sum corpus (dict_set prev q r) p = inbound_sum corpus prev p)).
Proof.
  intros Hwf Hinv Hinit.
  destruct (iterate_init_spec _ _ _ _ _ Hwf Hinv Hinit) as [_ [-> [-> ->]]].
  pose proof (well_formed_keys _ Hwf) as Hnd.
  split.
  - intros k prev Hs.
    assert (dict_keys prev = dict_keys corpus) as Hk.
    { apply (sweeps_to_keys _ _ _ _ _ _ Hwf Hs). apply dict_keys_map_key. }
    rewrite (sweep_spec _ _ _ _ Hwf Hk). eexists. split; [reflexivity|].
    intros p Hp. rewrite <- Hk in Hp.
    destruct (dict_get_key_Some _ _ Hp) as [v Hv].
    rewrite (dict_get_map_by_key
               (fun k => (1 - d) / Qnat (length (dict_keys corpus))
                         + d * inbound_total corpus prev (linkers corpus k))).
    rewrite Hv. simpl. eexists. split; [reflexivity|].
    rewrite inbound_total_sum. reflexivity.
  - intros q v Hq Hv.
    assert (forall p, ~ In q (linkers corpus p)) as Hno.
    { intros p Hin. apply linkers_spec in Hin; [|exact Hnd].
      destruct Hin as [v' [Hg Hp]]. rewrite Hq in Hg. injection Hg as <-.
      rewrite Hv in Hp. exact Hp. }
    split.
    + intros p s Hs. apply reverse_index_get in Hs. subst s. apply Hno.
    + intros prev r p. apply inbound_sum_frame, Hno.
Qed.

Lemma sweep_update_rule_witness :
  (forall k prev,
     sweeps_to corpus_dangling (85 # 100)
       [("1.html"%string, []); ("2.html"%string, ["1.html"%string])] (15 # 200) k
       [("1.html"%string, 1 # 2); ("2.html"%string, 1 # 2)] prev ->
     exists new_rank,
       sweep corpus_dangling (85 # 100)
         [("1.html"%string, []); ("2.html"%string, ["1.html"%string])] (15 # 200) prev
       = Ok new_rank /\
       forall p, In p (dict_keys corpus_dangling) ->
         exists w, dict_get new_rank p = Some w /\
           w == (1 - (85 # 100)) / Qnat (length (dict_keys corpus_dangling))
                + (85 # 100) * inbound_sum corpus_dangling prev p) /\
  (forall q v, dict_get corpus_dangling q = Some v -> elements v = [] ->
     (forall p s,
        dict_get [("1.html"%string, []); ("2.html"%string, ["1.html"%string])] p = Some s ->
        ~ In q s) /\
     (forall prev r p,
        inbound_sum corpus_dangling (dict_set prev q r) p
        = inbound_sum corpus_dangling prev p)).
Proof.
  apply (sweep_update_rule corpus_dangling (85 # 100)
           [("1.html"%string, 1 # 2); ("2.html"%string, 1 # 2)]).
  - reflexivity.
  - reflexivity.
  - vm_compute. reflexivity.
Defined.

(** ** The loop of iterate_pagerank *)

Lemma iteration_test (corpus : corpus_t) (d : Q) (rc : dict (list page)) (rv : Q)
    (prev next : dict Q) (c : bool) :
  iteration corpus d rc rv prev = Ok (next, c) -> is_converged prev next = Ok c.
Proof.
  unfold iteration.
  destruct (sweep corpus d rc rv prev) as [raw|e]; simpl bind; [|discriminate].
  destruct (renormalize raw) as [t|e]; simpl bind; [|discriminate].
  destruct (is_converged prev t) as [b|e] eqn:Hc; simpl bind; [|discriminate].
  intros [= <- <-]. exact Hc.
Qed.

(** The loop returns [table] exactly when [table] is the first table whose
    iteration passes the convergence test, and the fuel covers the
    iterations before it. *)
Lemma iterate_loop_returns (corpus : corpus_t) (d : Q) (rc : dict (list page)) (rv : Q)
    (fuel : nat) (prev table : dict Q) :
  iterate_loop fuel corpus d rc rv prev = Some (Ok table)
  <-> exists k next, (k < fuel)%nat /\ sweeps_to corpus d rc rv k prev table /\
                     iteration corpus d rc rv table = Ok (next, true).
Proof.
  split.
  - revert prev. induction fuel as [|fuel IH]; intros prev; simpl; [discriminate|].
    destruct (iteration corpus d rc rv prev) as [[next [|]]|e] eqn:Hit.
    + intros [= <-]. exists O, next. repeat split; [lia | constructor | exact Hit].
    + intros H. destruct (IH _ H) as [k [next' [Hlt [Hs Hc]]]].
      exists (S k), next'. repeat split; [lia | | exact Hc].
      econstructor; eauto.
    + discriminate.
  - intros [k [next [Hlt [Hs Hc]]]]. revert fuel Hlt.
    induction Hs as [prev|k prev nx last Hit Hs IH]; intros fuel Hlt;
      (destruct fuel as [|fuel]; [lia|]); simpl.
    + now rewrite Hc.
    + rewrite Hit. apply IH; [exact Hc | lia].
Qed.

(** C4, as the code has it: the loop repeats the iteration (sweep,
    renormalisation, test) while the test fails; the test passes exactly
    when every page's new rank is within [EPSILON] of its previous rank;
    when the test passes the loop stops and returns [prev_pagerank], the
    table that entered the last sweep.  Enough fuel always exposes that
    result. *)
Theorem iterate_pagerank_returns_prev
    (corpus : corpus_t) (d : Q) (prev0 : dict Q) (rc : dict (list page)) (rv : Q) :
  iterate_init corpus d = Ok (prev0, rc, rv) ->
  (forall fuel table,
     iterate_pagerank fuel corpus d = Some (Ok table)
     <-> exists k next, (k < fuel)%nat /\ sweeps_to corpus d rc rv k prev0 table /\
                        iteration corpus d rc rv table = Ok (next, true)) /\
  (forall prev next c,
     iteration corpus d rc rv prev = Ok (next, c) ->
     (c = true <->
      forall p v, In (p, v) prev ->
        exists nv, dict_get next p = Some nv /\ Qabs (nv - v) <= EPSILON)).
Proof.
  intros Hinit. split.
  - intros fuel table. unfold iterate_pagerank. rewrite Hinit.
    apply iterate_loop_returns.
  - intros prev next c Hit. apply is_converged_spec.
    exact (iteration_test _ _ _ _ _ _ _ Hit).
Qed.

Lemma iterate_pagerank_returns_prev_witness :
  (forall fuel table,
     iterate_pagerank fuel corpus_dangling (1 # 1000) = Some (Ok table)
     <-> exists k next,
           (k < fuel)%nat /\
           sweeps_to corpus_dangling (1 # 1000)
             [("1.html"%string, []); ("2.html"%string, ["1.html"%string])] (999 # 2000) k
             [("1.html"%string, 1 # 2); ("2.html"%string, 1 # 2)] table /\
           iteration corpus_dangling (1 # 1000)
             [("1.html"%string, []); ("2.html"%string, ["1.html"%string])] (999 # 2000) table
           = Ok (next, true)) /\
  (forall prev next c,
     iteration corpus_dangling (1 # 1000)
       [("1.html"%string, []); ("2.html"%string, ["1.html"%string])] (999 # 2000) prev
     = Ok (next, c) ->
     (c = true <->
      forall p v, In (p, v) prev ->
        exists nv, dict_get next p = Some nv /\ Qabs (nv - v) <= EPSILON)).
Proof.
  apply (iterate_pagerank_returns_prev corpus_dangling (1 # 1000)).
  vm_compute. reflexivity.
Defined.

(** C4, as stated, fails: on the corpus [{1.html: {2.html}, 2.html: set()}]
    with damping 0.001 the first sweep computes the table
    [{1.html: 999/1999, 2.html: 1000/1999}], which passes the convergence
    test against the initial table [{1.html: 1/2, 2.html: 1/2}];
    [iterate_pagerank] then returns the initial table, not the table the
    final sweep computed. *)
Lemma iterate_returns_previous_counterexample :
  exists prev0 rc rv next,
    iterate_init corpus_dangling (1 # 1000) = Ok (prev0, rc, rv) /\
    iteration corpus_dangling (1 # 1000) rc rv prev0 = Ok (next, true) /\
    iterate_pagerank 1 corpus_dangling (1 # 1000) = Some (Ok prev0) /\
    rank_of prev0 "1.html"%string == 1 # 2 /\
    rank_of next "1.html"%string == 999 # 1999 /\
    ~ rank_of next "1.html"%string == rank_of prev0 "1.html"%string.
Proof.
  eexists. eexists. eexists. eexists.
  split; [vm_compute; reflexivity|].
  split; [vm_compute; reflexivity|].
  split; [vm_compute; reflexivity|].
  split; [reflexivity|].
  split; [reflexivity|].
  intros H. vm_compute in H. discriminate.
Qed.

(** ** Rank tables sum to 1 *)

Lemma sweep_not_nil (corpus : corpus_t) (d : Q) (rc : dict (list page)) (rv : Q)
    (prev raw : dict Q) :
  sweep corpus d rc rv prev = Ok raw -> prev <> [] -> raw <> [].
Proof.
  intros Hs Hne. unfold sweep in Hs. revert Hs. apply for_each_not_nil; [|exact Hne].
  intros a x r'. destruct (getitem rc (fst x)) as [s|e]; simpl bind; [|discriminate].
  destruct (inbound corpus prev s) as [tmp|e]; simpl bind; [|discriminate].
  intros [= <-]. apply dict_set_not_nil.
Qed.

Lemma iteration_sum (corpus : corpus_t) (d : Q) (rc : dict (list page)) (rv : Q)
    (prev next : dict Q) (c : bool) :
  iteration corpus d rc rv prev = Ok (next, c) ->
  prev <> [] ->
  py_sum (dict_values next) == 1 /\ next <> [].
Proof.
  unfold iteration. intros H Hne.
  destruct (sweep corpus d rc rv prev) as [raw|e] eqn:Hs; simpl bind in H; [|discriminate].
  destruct (renormalize raw) as [t|e] eqn:Hr; simpl bind in H; [|discriminate].
  destruct (is_converged prev t) as [b|e]; simpl bind in H; [|discriminate].
  injection H as <- _.
  pose proof (sweep_not_nil _ _ _ _ _ _ Hs Hne) as Hraw.
  destruct (renormalize_sum _ _ Hr Hraw) as [Hsum Hk]. split; [exact Hsum|].
  intros ->. destruct raw; [congruence | discriminate].
Qed.

Lemma iterate_loop_sum (corpus : corpus_t) (d : Q) (rc : dict (list page)) (rv : Q)
    (fuel : nat) (prev table : dict Q) :
  prev <> [] -> py_sum (dict_values prev) == 1 ->
  iterate_loop fuel corpus d rc rv prev = Some (Ok table) ->
  py_sum (dict_values table) == 1.
Proof.
  revert prev. induction fuel as [|fuel IH]; intros prev Hne Hsum; simpl; [discriminate|].
  destruct (iteration corpus d rc rv prev) as [[next [|]]|e] eqn:Hit.
  - intros [= <-]. exact Hsum.
  - destruct (iteration_sum _ _ _ _ _ _ _ Hit Hne) as [Hs Hn]. now apply IH.
  - discriminate.
Qed.

Lemma iterate_init_table (corpus : corpus_t) (d : Q)
    (prev0 : dict Q) (rc : dict (list page)) (rv : Q) :
  well_formed corpus = true ->
  iterate_init corpus d = Ok (prev0, rc, rv) ->
  prev0 <> [] /\ py_sum (dict_values prev0) == 1.
Proof.
  intros Hwf. unfold iterate_init, py_div.
  destruct (Qeq_bool (Qnat (length (dict_keys corpus))) 0) eqn:E; simpl bind; [discriminate|].
  destruct (build_reverse corpus _) as [rc'|e]; simpl bind; [|discriminate].
  rewrite combine_ones1, dict_of_items_nodup
    by (rewrite map_map; simpl; rewrite map_id; now apply well_formed_keys).
  intros [= <- _ _].
  apply Qnat_eq_bool in E. split.
  - destruct (dict_keys corpus); [simpl in E; congruence | discriminate].
  - unfold dict_values. rewrite map_map. simpl. rewrite py_sum_map_const.
    assert (0 < Qnat (length (dict_keys corpus))) by (apply Qnat_pos; lia).
    field. lra.
Qed.

Lemma sample_steps_count (corpus : corpus_t) (d : Q) (draws : nat -> Q)
    (l : list nat) (st st' : page * dict nat) :
  for_each (sample_step corpus d draws) l st = Ok st' ->
  list_sum (dict_values (snd st')) = (list_sum (dict_values (snd st)) + length l)%nat.
Proof.
  revert st. induction l as [|i l IH]; intros st; simpl.
  - intros [= <-]. lia.
  - unfold sample_step at 1.
    destruct (transition_model corpus (fst st) d) as [model|e]; simpl bind; [|discriminate].
    destruct (choice (dict_keys model) (dict_values model) (draws i)) as [pg|e];
      simpl bind; [|discriminate].
    intros H. rewrite (IH _ H). simpl snd. rewrite list_sum_incr. lia.
Qed.

(** Every table [sample_pagerank] returns for [n >= 1] sums to 1. *)
Lemma sample_pagerank_sum (corpus : corpus_t) (d : Q) (n r : nat) (draws : nat -> Q)
    (table : dict Q) :
  (1 <= n)%nat ->
  sample_pagerank corpus d n r draws = Ok table ->
  py_sum (dict_values table) == 1.
Proof.
  intros Hn. unfold sample_pagerank, sample_walk.
  destruct (random_choice (dict_keys corpus) r) as [pg|e]; simpl bind; [|discriminate].
  destruct (for_each (sample_step corpus d draws) (seq 0 n) (pg, [])) as [st|e] eqn:Hw;
    simpl bind; [|discriminate].
  intros [= <-]. apply sample_steps_count in Hw. simpl in Hw. rewrite length_seq in Hw.
  rewrite py_sum_frequencies, Hw.
  assert (0 < Qnat n) by (apply Qnat_pos; lia).
  field. lra.
Qed.

Lemma within_tolerance (x : Q) : x == 1 -> Qabs (x - 1) <= 1 # 1000000.
Proof.
  intros ->. discriminate.
Qed.

(** C8: every table either estimator returns sums to 1, hence to 1.0
    within 1e-6: every table [sample_pagerank] returns for [n >= 1], and
    every table [iterate_pagerank] returns (that is, whenever its loop
    terminates). *)
Theorem rank_tables_sum_to_one (corpus : corpus_t) (d : Q) :
  well_formed corpus = true ->
  (forall n r draws table,
     (1 <= n)%nat ->
     sample_pagerank corpus d n r draws = Ok table ->
     Qabs (py_sum (dict_values table) - 1) <= 1 # 1000000) /\
  (forall fuel table,
     iterate_pagerank fuel corpus d = Some (Ok table) ->
     Qabs (py_sum (dict_values table) - 1) <= 1 # 1000000).
Proof.
  intros Hwf. split.
  - intros n r draws table Hn Ht. apply within_tolerance.
    exact (sample_pagerank_sum corpus d n r draws table Hn Ht).
  - intros fuel table. unfold iterate_pagerank.
    destruct (iterate_init corpus d) as [[[prev0 rc] rv]|e] eqn:Hinit; [|discriminate].
    destruct (iterate_init_table _ _ _ _ _ Hwf Hinit) as [Hne Hsum].
    intros H. apply within_tolerance.
    exact (iterate_loop_sum _ _ _ _ _ _ _ Hne Hsum H).
Qed.

Lemma rank_tables_sum_to_one_witness :
  (exists table,
     sample_pagerank corpus_dangling (85 # 100) 3 0 (fun _ => 1 # 2) = Ok table /\
     Qabs (py_sum (dict_values table) - 1) <= 1 # 1000000) /\
  (exists table,
     iterate_pagerank 12 corpus_dangling (85 # 100) = Some (Ok table) /\
     Qabs (py_sum (dict_values table) - 1) <= 1 # 1000000).
Proof.
  pose proof (rank_tables_sum_to_one corpus_dangling (85 # 100) eq_refl) as [Hs Hi].
  split.
  - destruct (sample_pagerank corpus_dangling (85 # 100) 3 0 (fun _ => 1 # 2))
      as [table|e] eqn:E.
    + exists table. split; [reflexivity|]. apply (Hs 3%nat 0%nat (fun _ => 1 # 2)); [lia | exact E].
    + vm_compute in E. discriminate.
  - destruct (iterate_pagerank 12 corpus_dangling (85 # 100)) as [[table|e]|] eqn:E.
    + exists table. split; [reflexivity|]. now apply (Hi 12%nat).
    + vm_compute in E. discriminate.
    + vm_compute in E. discriminate.
Defined.

(** ** Further properties of the specification's test list *)

Lemma follow_table_get_linked (corpus : corpus_t) (v : links) (d : Q) (p : page) :
  In p (elements v) ->
  dict_get (follow_table corpus v d) p
  = Some (d * 1 / Qnat (length (elements v))
          + (1 - d) / Qnat (length (dict_keys corpus))).
Proof.
  intros Hp. unfold follow_table. rewrite dict_get_app, dict_get_map_key.
  apply set_mem_iff in Hp. now rewrite Hp.
Qed.

Lemma follow_table_get_other (corpus : corpus_t) (v : links) (d : Q) (q : page) :
  In q (dict_keys corpus) -> ~ In q (elements v) ->
  dict_get (follow_table corpus v d) q
  = Some (0 + (1 - d) / Qnat (length (dict_keys corpus))).
Proof.
  intros Hq Hn. unfold follow_table. rewrite dict_get_app, !dict_get_map_key.
  apply set_mem_false_iff in Hn as Hm. rewrite Hm.
  assert (set_mem q (set_diff (dict_keys corpus) (elements v)) = true) as ->.
  { apply set_mem_iff, set_diff_In. now split. }
  reflexivity.
Qed.

(** X1: when the link container of [pg] is the empty dict [{}], the test of
    line 65 succeeds and [transition_model] returns the uniform distribution:
    every corpus page maps to [1/N] and the weights sum to 1. *)
Theorem transition_model_empty_dict_uniform (corpus : corpus_t) (pg : page) (d : Q) :
  well_formed corpus = true ->
  dict_get corpus pg = Some (PyDict []) ->
  exists t, transition_model corpus pg d = Ok t /\
    (forall p, In p (dict_keys corpus) ->
       exists w, dict_get t p = Some w /\ w == 1 / Qnat (length (dict_keys corpus))) /\
    py_sum (dict_values t) == 1.
Proof.
  exact (transition_model_dangling_dict corpus pg d).
Qed.

Lemma transition_model_empty_dict_uniform_witness :
  exists t, transition_model corpus_dict_dangling "2.html"%string (85 # 100) = Ok t /\
    (forall p, In p (dict_keys corpus_dict_dangling) ->
       exists w, dict_get t p = Some w /\
                 w == 1 / Qnat (length (dict_keys corpus_dict_dangling))) /\
    py_sum (dict_values t) == 1.
Proof.
  apply (transition_model_empty_dict_uniform corpus_dict_dangling "2.html"%string (85 # 100)).
  - reflexivity.
  - reflexivity.
Defined.

(** X2: when the link container of [pg] is the empty set, the test of line
    65 fails and [transition_model] gives every corpus page the weight
    [(1-damping)/N]; the weights sum to [1 - damping]. *)
Theorem transition_model_empty_set_teleport_share (corpus : corpus_t) (pg : page) (d : Q) :
  well_formed corpus = true ->
  dict_get corpus pg = Some (PySet []) ->
  exists t, transition_model corpus pg d = Ok t /\
    (forall p, In p (dict_keys corpus) ->
       exists w, dict_get t p = Some w /\
                 w == (1 - d) / Qnat (length (dict_keys corpus))) /\
    py_sum (dict_values t) == 1 - d.
Proof.
  exact (transition_model_dangling_set corpus pg d).
Qed.

Lemma transition_model_empty_set_teleport_share_witness :
  exists t, transition_model corpus_dangling "2.html"%string (85 # 100) = Ok t /\
    (forall p, In p (dict_keys corpus_dangling) ->
       exists w, dict_get t p = Some w /\
                 w == (1 - (85 # 100)) / Qnat (length (dict_keys corpus_dangling))) /\
    py_sum (dict_values t) == 1 - (85 # 100).
Proof.
  apply (transition_model_empty_set_teleport_share corpus_dangling "2.html"%string (85 # 100)).
  - reflexivity.
  - reflexivity.
Defined.

(** X3: for a corpus satisfying the Corpus invariant and a page with at
    least one outgoing link, the table [transition_model] returns has
    exactly the corpus pages as keys, each once, and its weights sum to 1. *)
Theorem transition_model_linked_distribution
    (corpus : corpus_t) (pg : page) (d : Q) (v : links) :
  well_formed corpus = true ->
  corpus_invariant corpus = true ->
  dict_get corpus pg = Some v ->
  elements v <> [] ->
  exists t, transition_model corpus pg d = Ok t /\
    NoDup (dict_keys t) /\ Permutation (dict_keys t) (dict_keys corpus) /\
    py_sum (dict_values t) == 1.
Proof.
  intros Hwf Hinv Hg Hne.
  destruct (transition_model_keys corpus pg d v Hwf Hinv Hg) as [t [Ht [Hnd HP]]].
  destruct (transition_model_sum_linked corpus pg d v Hwf Hinv Hg Hne) as [t' [Ht' Hs]].
  assert (t' = t) by congruence. subst t'.
  exists t. repeat split; assumption.
Qed.

Lemma transition_model_linked_distribution_witness :
  exists t, transition_model corpus_dangling "1.html"%string (85 # 100) = Ok t /\
    NoDup (dict_keys t) /\ Permutation (dict_keys t) (dict_keys corpus_dangling) /\
    py_sum (dict_values t) == 1.
Proof.
  apply (transition_model_linked_distribution corpus_dangling "1.html"%string (85 # 100)
           (PySet ["2.html"%string])).
  - reflexivity.
  - reflexivity.
  - reflexivity.
  - discriminate.
Defined.

(** X4: for a page with outgoing links and a damping factor that is not
    negative, no linked page weighs less than a corpus page that is not
    linked. *)
Theorem linked_not_below_unlinked
    (corpus : corpus_t) (pg : page) (d : Q) (v : links) (p q : page) :
  well_formed corpus = true ->
  dict_get corpus pg = Some v ->
  0 <= d ->
  In p (elements v) -> In q (dict_keys corpus) -> ~ In q (elements v) ->
  exists t wp wq, transition_model corpus pg d = Ok t /\
    dict_get t p = Some wp /\ dict_get t q = Some wq /\ wq <= wp.
Proof.
  intros Hwf Hg Hd Hp Hq Hn.
  assert (eq_empty_dict v = false) as He.
  { destruct v as [l|[|? ?]]; try reflexivity. contradiction. }
  rewrite (transition_model_follow _ _ _ _ Hwf Hg He).
  eexists. eexists. eexists. split; [reflexivity|].
  split; [now apply follow_table_get_linked|].
  split; [now apply follow_table_get_other|].
  assert (0 < Qnat (length (elements v))) as HL.
  { apply Qnat_pos. destruct (elements v); [contradiction | simpl; lia]. }
  assert (0 <= d * 1 / Qnat (length (elements v))) by (apply Qle_shift_div_l; lra).
  lra.
Qed.

Lemma linked_not_below_unlinked_witness :
  exists t wp wq, transition_model corpus_dangling "1.html"%string (85 # 100) = Ok t /\
    dict_get t "2.html"%string = Some wp /\ dict_get t "1.html"%string = Some wq /\ wq <= wp.
Proof.
  apply (linked_not_below_unlinked corpus_dangling "1.html"%string (85 # 100)
           (PySet ["2.html"%string])).
  - reflexivity.
  - reflexivity.
  - discriminate.
  - now left.
  - now left.
  - intros [H|[]]. discriminate.
Defined.

(** X5: with population [[a; b]] and weights [[1; 0]] the sampler returns
    [a] for every draw in [0,1). *)
Theorem choice_degenerate {A : Type} (a b : A) (x : Q) :
  0 <= x -> x < 1 -> choice [a; b] [1; 0] x = Ok a.
Proof.
  intros _ Hx.
  assert (cdf [1; 0] = Ok [1; 1]) as Hcdf by (vm_compute; reflexivity).
  unfold choice. simpl negb. cbv iota. rewrite Hcdf. simpl bind.
  unfold choice_at, bisect. simpl length.
  apply Qlt_bool_iff in Hx.
  rewrite bisect_loop_S. change ((0 <? 2)%nat) with true. cbv iota.
  change ((0 + 2) / 2)%nat with 1%nat. change (nth 1 [1; 1] 0) with 1. rewrite Hx.
  rewrite bisect_loop_S. change ((0 <? 1)%nat) with true. cbv iota.
  change ((0 + 1) / 2)%nat with 0%nat. change (nth 0 [1; 1] 0) with 1. rewrite Hx.
  reflexivity.
Qed.

Lemma choice_degenerate_witness : choice ["a"; "b"]%string [1; 0] (999 # 1000) = Ok "a"%string.
Proof.
  apply (choice_degenerate "a"%string "b"%string (999 # 1000)).
  - discriminate.
  - reflexivity.
Defined.

(** X6: for the symmetric two-page corpus [{A: {B}, B: {A}}] the first
    sweep already passes the convergence test, and [iterate_pagerank]
    returns [{A: 1/2, B: 1/2}] whatever the damping factor. *)
Theorem iterate_pagerank_symmetric (d : Q) (fuel : nat) :
  exists t, iterate_pagerank (S fuel) corpus_symmetric d = Some (Ok t) /\
    rank_of t "A"%string == 1 # 2 /\ rank_of t "B"%string == 1 # 2.
Proof.
  assert (iterate_init corpus_symmetric d
          = Ok ([("A"%string, 1 / Qnat 2); ("B"%string, 1 / Qnat 2)],
                map (fun p => (p, linkers corpus_symmetric p)) (dict_keys corpus_symmetric),
                (1 - d) / Qnat 2)) as Hinit by reflexivity.
  unfold iterate_pagerank. rewrite Hinit.
  set (prev0 := [("A"%string, 1 / Qnat 2); ("B"%string, 1 / Qnat 2)]).
  assert (dict_keys prev0 = dict_keys corpus_symmetric) as Hk by reflexivity.
  simpl iterate_loop. unfold iteration.
  rewrite (sweep_spec corpus_symmetric d _ prev0 eq_refl Hk). simpl bind.
  assert (forall p, In p ["A"; "B"]%string ->
            (1 - d) / Qnat 2
            + d * inbound_total corpus_symmetric prev0 (linkers corpus_symmetric p)
            == 1 # 2) as Hhalf.
  { intros p Hp.
    assert (inbound_total corpus_symmetric prev0 (linkers corpus_symmetric p) == 1 # 2) as ->.
    { destruct Hp as [<-|[<-|[]]]; vm_compute; reflexivity. }
    change (Qnat 2) with 2. field. }
  simpl map.
  set (a := _ + d * inbound_total _ _ (linkers _ "A"%string)).
  set (b := _ + d * inbound_total _ _ (linkers _ "B"%string)).
  assert (a == 1 # 2) as Ha by (apply Hhalf; now left).
  assert (b == 1 # 2) as Hb by (apply Hhalf; right; now left).
  clearbody a b. clear Hhalf.
  unfold renormalize.
  set (summ := py_sum _).
  assert (summ == 1) as Hs.
  { unfold summ, py_sum. simpl. rewrite Ha, Hb. reflexivity. }
  clearbody summ.
  cbn [comprehension bind fst snd]. unfold py_div.
  assert (Qeq_bool summ 0 = false) as ->.
  { destruct (Qeq_bool summ 0) eqn:E; [|reflexivity]. apply Qeq_bool_iff in E. lra. }
  cbn [bind fst snd].
  match goal with
  | |- context [is_converged ?p ?n] =>
      destruct (is_converged_defined p n eq_refl) as [c Hc]; rewrite Hc
  end.
  cbn [bind].
  assert (c = true) as ->.
  { apply (is_converged_spec _ _ _ Hc).
    intros p v [E|[E|[]]]; injection E as <- <-; eexists; (split; [reflexivity|]).
    - assert (a / summ - 1 / Qnat 2 == 0) as ->
        by (rewrite Ha, Hs; change (Qnat 2) with 2; field).
      discriminate.
    - assert (b / summ - 1 / Qnat 2 == 0) as ->
        by (rewrite Hb, Hs; change (Qnat 2) with 2; field).
      discriminate. }
  exists prev0. split; [reflexivity|]. split; reflexivity.
Qed.

(** ** crawl *)

Lemma In_set_add (s : list page) (p x : page) : In x (set_add s p) <-> In x s \/ x = p.
Proof.
  unfold set_add. destruct (set_mem p s) eqn:E.
  - apply set_mem_iff in E. split; [tauto | intros [H| ->]; assumption].
  - rewrite in_app_iff. simpl. intuition.
Qed.

Lemma NoDup_set_add (s : list page) (p : page) : NoDup s -> NoDup (set_add s p).
Proof.
  intros H. unfold set_add. destruct (set_mem p s) eqn:E; [exact H|].
  apply set_mem_false_iff in E. apply NoDup_app; [exact H | repeat constructor; intros [] |].
  intros x Hx [<-|[]]. contradiction.
Qed.

Lemma fold_set_add_spec (l acc : list page) :
  (NoDup acc -> NoDup (fold_left set_add l acc))
  /\ (forall x, In x (fold_left set_add l acc) <-> In x acc \/ In x l).
Proof.
  revert acc. induction l as [|p l IH]; intros acc; simpl.
  - split; [tauto | intros x; tauto].
  - destruct (IH (set_add acc p)) as [H1 H2]. split.
    + intros H. apply H1. now apply NoDup_set_add.
    + intros x. rewrite H2, In_set_add. intuition.
Qed.

Lemma NoDup_py_set (l : list page) : NoDup (py_set l).
Proof.
  apply (fold_set_add_spec l []). constructor.
Qed.

Lemma In_py_set (l : list page) (x : page) : In x (py_set l) <-> In x l.
Proof.
  unfold py_set. rewrite (proj2 (fold_set_add_spec l [])). simpl. tauto.
Qed.

Lemma NoDup_map_fst_filter {V : Type} (f : page * V -> bool) (l : list (page * V)) :
  NoDup (map fst l) -> NoDup (map fst (filter f l)).
Proof.
  induction l as [|kv l IH]; simpl; [constructor|].
  intros H. inversion H as [|? ? Hk Hl]; subst.
  destruct (f kv); simpl; [|now apply IH].
  constructor; [|now apply IH].
  intros Hin. apply Hk. apply in_map_iff in Hin. destruct Hin as [kv' [E Hkv']].
  apply filter_In in Hkv'. apply in_map_iff. exists kv'. tauto.
Qed.

(** The first loop keeps one entry per [.html] file, in directory order. *)
Lemma crawl_extract_spec (files : directory) :
  NoDup (map fst files) ->
  crawl_extract files
  = map (fun fl : page * list page =>
           (fst fl, PySet (set_diff (py_set (snd fl)) [fst fl])))
      (html_files files).
Proof.
  intros Hnd. unfold crawl_extract, html_files.
  assert (forall acc : corpus_t,
            NoDup (dict_keys acc ++ map fst files) ->
            fold_left
              (fun (pages : corpus_t) (fl : page * list page) =>
                 if negb (endswith (fst fl) ".html") then pages
                 else dict_set pages (fst fl) (PySet (set_diff (py_set (snd fl)) [fst fl])))
              files acc
            = acc ++ map (fun fl : page * list page =>
                            (fst fl, PySet (set_diff (py_set (snd fl)) [fst fl])))
                       (filter (fun fl : page * list page => endswith (fst fl) ".html")
                          files)) as H.
  { clear Hnd. induction files as [|fl files IH]; intros acc Hacc; simpl.
    - now rewrite app_nil_r.
    - simpl in Hacc. pose proof (NoDup_remove_1 _ _ _ Hacc) as Hrest.
      pose proof (NoDup_remove_2 _ _ _ Hacc) as Hfresh.
      destruct (endswith (fst fl) ".html") eqn:E; cbn [negb map].
      + rewrite dict_set_fresh by (intros Hin; apply Hfresh, in_or_app; now left).
        rewrite IH.
        * symmetry. apply (app_assoc acc [_]).
        * unfold dict_keys in *. rewrite map_app, <- app_assoc. exact Hacc.
      + apply IH. exact Hrest. }
  apply (H []). exact Hnd.
Qed.

Lemma dict_as_map {V : Type} (d : dict V) (dflt : V) :
  NoDup (dict_keys d) ->
  d = map (fun p => (p, match dict_get d p with Some v => v | None => dflt end))
        (dict_keys d).
Proof.
  induction d as [|[k v] d IH]; intros Hnd; simpl; [reflexivity|].
  inversion Hnd as [|? ? Hk Hd]; subst. rewrite String.eqb_refl. f_equal.
  rewrite (IH Hd) at 1. apply map_ext_in. intros p Hp.
  assert (String.eqb k p = false) as ->; [|reflexivity].
  apply String.eqb_neq. intros ->. contradiction.
Qed.

(** The second loop rewrites the value of every key it visits and leaves the
    keys as they are. *)
Lemma crawl_restrict_loop (keys : list page) :
  NoDup keys ->
  forall (l : list page) (f : page -> links),
    NoDup l -> incl l keys ->
    for_each crawl_restrict l (map (fun p => (p, f p)) keys)
    = Ok (map (fun p =>
                 (p, if set_mem p l
                     then PySet (py_set (filter (fun link => set_mem link keys)
                                           (elements (f p))))
                     else f p))
            keys).
Proof.
  intros Hnd. induction l as [|x l IH]; intros f Hl Hincl; simpl.
  - reflexivity.
  - inversion Hl as [|? ? Hx Hl']; subst.
    assert (In x keys) as Hxk by (apply Hincl; now left).
    unfold crawl_restrict at 1, getitem. rewrite dict_get_map_key.
    apply set_mem_iff in Hxk as Hm. rewrite Hm. simpl bind.
    rewrite dict_keys_map_key.
    rewrite dict_set_map_key by assumption.
    pose proof (IH (fun p => if String.eqb p x
                             then PySet (py_set (filter (fun link => set_mem link keys)
                                                   (elements (f x))))
                             else f p)
                  Hl' (fun p Hp => Hincl p (or_intror Hp))) as IH'.
    cbv beta in IH'. etransitivity; [exact IH'|].
    f_equal. apply map_ext_in. intros p Hp. f_equal.
    destruct (String.eqb p x) eqn:E; simpl; [|reflexivity].
    apply String.eqb_eq in E. subst p.
    apply set_mem_false_iff in Hx. now rewrite Hx.
Qed.

Lemma html_files_keys (files : directory) :
  NoDup (map fst files) -> NoDup (map fst (html_files files)).
Proof.
  apply NoDup_map_fst_filter.
Qed.

(** [crawl] in closed form: one entry per [.html] file, in directory order,
    holding the links it keeps. *)
Lemma crawl_spec (files : directory) :
  NoDup (map fst files) ->
  crawl files
  = Ok (map (fun fl : page * list page =>
               (fst fl, PySet (kept_links (map fst (html_files files)) fl)))
          (html_files files)).
Proof.
  intros Hnd. pose proof (html_files_keys files Hnd) as Hk.
  unfold crawl. rewrite (crawl_extract_spec files Hnd).
  set (pages := map (fun fl : page * list page =>
                       (fst fl, PySet (set_diff (py_set (snd fl)) [fst fl])))
                  (html_files files)).
  assert (dict_keys pages = map fst (html_files files)) as Hkeys.
  { unfold pages, dict_keys. rewrite map_map. reflexivity. }
  assert (NoDup (dict_keys pages)) as Hndp by (rewrite Hkeys; exact Hk).
  rewrite (dict_as_map pages (PySet []) Hndp) at 2.
  rewrite Hkeys.
  rewrite (crawl_restrict_loop _ Hk) by (exact Hk || apply incl_refl).
  f_equal. rewrite map_map. apply map_ext_in. intros fl Hfl. cbv beta. f_equal.
  assert (set_mem (fst fl) (map fst (html_files files)) = true) as ->.
  { apply set_mem_iff. now apply in_map. }
  assert (dict_get pages (fst fl) = Some (PySet (set_diff (py_set (snd fl)) [fst fl]))) as ->.
  { apply In_dict_get; [exact Hndp|]. unfold pages.
    apply (in_map (fun fl0 : page * list page =>
                     (fst fl0, PySet (set_diff (py_set (snd fl0)) [fst fl0]))) _ _ Hfl). }
  reflexivity.
Qed.

Lemma In_kept_links (keys : list page) (fl : page * list page) (l : page) :
  In l (kept_links keys fl) <-> In l (snd fl) /\ l <> fst fl /\ In l keys.
Proof.
  unfold kept_links. rewrite In_py_set, filter_In, set_diff_In, In_py_set, set_mem_iff.
  simpl. intuition.
Qed.

Lemma crawl_corpus_well_formed (files : directory) :
  NoDup (map fst files) ->
  well_formed
    (map (fun fl : page * list page =>
            (fst fl, PySet (kept_links (map fst (html_files files)) fl)))
       (html_files files)) = true
  /\ corpus_invariant
       (map (fun fl : page * list page =>
               (fst fl, PySet (kept_links (map fst (html_files files)) fl)))
          (html_files files)) = true.
Proof.
  intros Hnd. pose proof (html_files_keys files Hnd) as Hk.
  assert (dict_keys (map (fun fl : page * list page =>
                            (fst fl, PySet (kept_links (map fst (html_files files)) fl)))
                       (html_files files))
          = map fst (html_files files)) as Hkeys.
  { unfold dict_keys. rewrite map_map. reflexivity. }
  unfold well_formed, corpus_invariant. rewrite Hkeys. split.
  - apply andb_true_iff. split; [now apply nodupb_NoDup|].
    apply forallb_forall. intros kv Hkv. apply in_map_iff in Hkv.
    destruct Hkv as [fl [<- _]]. simpl. apply nodupb_NoDup, NoDup_py_set.
  - apply forallb_forall. intros kv Hkv. apply in_map_iff in Hkv.
    destruct Hkv as [fl [<- _]]. simpl. apply subsetb_incl.
    intros l Hl. apply In_kept_links in Hl. tauto.
Qed.

(** X7: for a directory whose names are distinct, [crawl] returns a corpus
    whose keys are the [.html] names in directory order, whose values are
    sets, which is well formed and satisfies the Corpus invariant (every
    link target is a key), and in which no page links to itself. *)
Theorem crawl_builds_corpus (files : directory) :
  NoDup (map fst files) ->
  exists corpus,
    crawl files = Ok corpus /\
    dict_keys corpus = map fst (html_files files) /\
    well_formed corpus = true /\
    corpus_invariant corpus = true /\
    forall f v, dict_get corpus f = Some v ->
                exists kept, v = PySet kept /\ ~ In f kept.
Proof.
  intros Hnd. rewrite (crawl_spec files Hnd). eexists. split; [reflexivity|].
  destruct (crawl_corpus_well_formed files Hnd) as [Hwf Hinv].
  split; [unfold dict_keys; rewrite map_map; reflexivity|].
  split; [exact Hwf|]. split; [exact Hinv|].
  intros f v Hg. apply dict_get_In in Hg. apply in_map_iff in Hg.
  destruct Hg as [fl [E _]]. injection E as <- <-.
  eexists. split; [reflexivity|].
  intros Hin. apply In_kept_links in Hin. tauto.
Qed.

Lemma crawl_builds_corpus_witness :
  exists corpus,
    crawl sample_directory = Ok corpus /\
    dict_keys corpus = map fst (html_files sample_directory) /\
    well_formed corpus = true /\
    corpus_invariant corpus = true /\
    forall f v, dict_get corpus f = Some v ->
                exists kept, v = PySet kept /\ ~ In f kept.
Proof.
  apply (crawl_builds_corpus sample_directory).
  apply nodupb_NoDup. reflexivity.
Defined.

(** X8: the links [crawl] keeps for an [.html] file are exactly the targets
    found in it that are not the file itself and are [.html] names of the
    directory; every other target is dropped. *)
Theorem crawl_kept_links (files : directory) (f : page) (found : list page) :
  NoDup (map fst files) ->
  In (f, found) files ->
  endswith f ".html" = true ->
  exists corpus kept,
    crawl files = Ok corpus /\
    dict_get corpus f = Some (PySet kept) /\
    NoDup kept /\
    forall l, In l kept
              <-> In l found /\ l <> f /\
                  exists found', In (l, found') files /\ endswith l ".html" = true.
Proof.
  intros Hnd Hin Hhtml. rewrite (crawl_spec files Hnd).
  eexists. exists (kept_links (map fst (html_files files)) (f, found)).
  split; [reflexivity|].
  assert (In (f, found) (html_files files)) as Hf.
  { unfold html_files. apply filter_In. now split. }
  split.
  - apply In_dict_get.
    + unfold dict_keys. rewrite map_map. simpl. now apply html_files_keys.
    + apply (in_map (fun fl : page * list page =>
                       (fst fl, PySet (kept_links (map fst (html_files files)) fl))) _ _ Hf).
  - split; [apply NoDup_py_set|].
    intros l. rewrite In_kept_links. simpl. unfold html_files.
    rewrite in_map_iff. split.
    + intros [H1 [H2 [[l' found'] [E H3]]]]. simpl in E. subst l'.
      apply filter_In in H3. simpl in H3. split; [exact H1|]. split; [exact H2|].
      exists found'. exact H3.
    + intros [H1 [H2 [found' [H3 H4]]]]. split; [exact H1|]. split; [exact H2|].
      exists (l, found'). split; [reflexivity|]. apply filter_In. now split.
Qed.

Lemma crawl_kept_links_witness :
  exists corpus kept,
    crawl sample_directory = Ok corpus /\
    dict_get corpus "1.html"%string = Some (PySet kept) /\
    NoDup kept /\
    forall l, In l kept
              <-> In l ["2.html"; "1.html"; "2.html"; "missing.html"]%string /\
                  l <> "1.html"%string /\
                  exists found', In (l, found') sample_directory /\
                                 endswith l ".html" = true.
Proof.
  apply (crawl_kept_links sample_directory "1.html"%string
           ["2.html"; "1.html"; "2.html"; "missing.html"]%string).
  - apply nodupb_NoDup. reflexivity.
  - now left.
  - reflexivity.
Defined.

Lemma crawl_lookup (files : directory) (f : page) (found : list page) :
  NoDup (map fst files) ->
  In (f, found) files ->
  endswith f ".html" = true ->
  dict_get
    (map (fun fl : page * list page =>
            (fst fl, PySet (kept_links (map fst (html_files files)) fl)))
       (html_files files)) f
  = Some (PySet (kept_links (map fst (html_files files)) (f, found))).
Proof.
  intros Hnd Hin Hhtml.
  assert (In (f, found) (html_files files)) as Hf.
  { unfold html_files. apply filter_In. now split. }
  apply In_dict_get.
  - unfold dict_keys. rewrite map_map. simpl. now apply html_files_keys.
  - apply (in_map (fun fl : page * list page =>
                     (fst fl, PySet (kept_links (map fst (html_files files)) fl))) _ _ Hf).
Qed.

(** X9: [crawl] composed with [transition_model].  A page of a crawled
    directory none of whose link targets is another [.html] name of the
    directory is stored with the empty set; for such a page the test of
    line 65 fails and [transition_model] gives every page the weight
    [(1-damping)/N], with total [1 - damping]. *)
Theorem crawl_dangling_page_weights
    (files : directory) (f : page) (found : list page) (d : Q) :
  NoDup (map fst files) ->
  In (f, found) files ->
  endswith f ".html" = true ->
  (forall l, In l found ->
     l = f \/ ~ exists found', In (l, found') files /\ endswith l ".html" = true) ->
  exists corpus t,
    crawl files = Ok corpus /\
    dict_get corpus f = Some (PySet []) /\
    transition_model corpus f d = Ok t /\
    (forall p, In p (dict_keys corpus) ->
       exists w, dict_get t p = Some w /\
                 w == (1 - d) / Qnat (length (dict_keys corpus))) /\
    py_sum (dict_values t) == 1 - d.
Proof.
  intros Hnd Hin Hhtml Hdrop. rewrite (crawl_spec files Hnd).
  destruct (crawl_corpus_well_formed files Hnd) as [Hwf _].
  pose proof (crawl_lookup files f found Hnd Hin Hhtml) as Hg.
  assert (kept_links (map fst (html_files files)) (f, found) = []) as Hnil.
  { destruct (kept_links (map fst (html_files files)) (f, found)) as [|l kept] eqn:E;
      [reflexivity|].
    assert (In l (kept_links (map fst (html_files files)) (f, found))) as Hl
        by (rewrite E; now left).
    apply In_kept_links in Hl. simpl in Hl. destruct Hl as [H1 [H2 H3]].
    exfalso. destruct (Hdrop l H1) as [->|Hno]; [now apply H2|].
    apply Hno. unfold html_files in H3. apply in_map_iff in H3.
    destruct H3 as [[l' found'] [E' H3]]. simpl in E'. subst l'.
    apply filter_In in H3. exists found'. exact H3. }
  rewrite Hnil in Hg.
  destruct (transition_model_dangling_set _ f d Hwf Hg) as [t [Ht [Hw Hs]]].
  eexists. exists t. split; [reflexivity|]. repeat split; assumption.
Qed.

Lemma crawl_dangling_page_weights_witness :
  exists corpus t,
    crawl sample_directory = Ok corpus /\
    dict_get corpus "2.html"%string = Some (PySet []) /\
    transition_model corpus "2.html"%string (85 # 100) = Ok t /\
    (forall p, In p (dict_keys corpus) ->
       exists w, dict_get t p = Some w /\
                 w == (1 - (85 # 100)) / Qnat (length (dict_keys corpus))) /\
    py_sum (dict_values t) == 1 - (85 # 100).
Proof.
  apply (crawl_dangling_page_weights sample_directory "2.html"%string
           ["notes.txt"%string] (85 # 100)).
  - apply nodupb_NoDup. reflexivity.
  - right. right. now left.
  - reflexivity.
  - intros l [<-|[]]. right. intros [found' [_ H]]. vm_compute in H. discriminate.
Defined.

(** ** Error behaviour *)

(** X10: [transition_model] returns a table exactly when the page is a
    corpus key; otherwise line 64 raises [KeyError].  It raises nothing
    else. *)
Theorem transition_model_key_error (corpus : corpus_t) (pg : page) (d : Q) :
  (In pg (dict_keys corpus) -> exists t, transition_model corpus pg d = Ok t) /\
  (~ In pg (dict_keys corpus) -> transition_model corpus pg d = Raise KeyError) /\
  (forall e, transition_model corpus pg d = Raise e ->
             e = KeyError /\ ~ In pg (dict_keys corpus)).
Proof.
  unfold transition_model, getitem.
  destruct (dict_get corpus pg) as [v|] eqn:Hg; simpl bind.
  - split; [|split].
    + intros _. destruct (eq_empty_dict v); eauto.
    + intros Hn. apply dict_get_Some_key in Hg. contradiction.
    + intros e. destruct (eq_empty_dict v); discriminate.
  - apply dict_get_None in Hg. split; [|split].
    + intros Hin. contradiction.
    + reflexivity.
    + intros e [= <-]. now split.
Qed.

Lemma dict_keys_set_in {V : Type} (d : dict V) (k : page) (v : V) :
  In k (dict_keys d) -> dict_keys (dict_set d k v) = dict_keys d.
Proof.
  induction d as [|[k' v'] d IH]; simpl; [contradiction|].
  destruct (String.eqb k' k) eqn:E; simpl; [reflexivity|].
  intros [H|H]; [apply String.eqb_neq in E; contradiction|].
  now rewrite IH.
Qed.

Lemma reverse_add_loop_result (k : page) (l : list page) (rc : dict (list page)) :
  (subsetb l (dict_keys rc) = true ->
   exists rc', for_each (reverse_add k) l rc = Ok rc' /\ dict_keys rc' = dict_keys rc)
  /\ (subsetb l (dict_keys rc) = false ->
      for_each (reverse_add k) l rc = Raise KeyError).
Proof.
  revert rc. induction l as [|x l IH]; intros rc; simpl.
  - split; [intros _; eauto | discriminate].
  - unfold reverse_add at 1 3, getitem.
    destruct (dict_get rc x) as [s|] eqn:Hg; simpl bind.
    + assert (set_mem x (dict_keys rc) = true) as ->
          by (apply set_mem_iff; eapply dict_get_Some_key; eauto).
      simpl andb.
      assert (dict_keys (dict_set rc x (set_add s k)) = dict_keys rc) as Hk
          by (apply dict_keys_set_in; eapply dict_get_Some_key; eauto).
      destruct (IH (dict_set rc x (set_add s k))) as [H1 H2]. rewrite Hk in H1, H2.
      split; [|exact H2].
      intros H. destruct (H1 H) as [rc' [Hr Hk']]. exists rc'. split; [exact Hr | congruence].
    + assert (set_mem x (dict_keys rc) = false) as ->
          by (apply set_mem_false_iff; now apply dict_get_None).
      simpl andb. split; [discriminate | reflexivity].
Qed.

Lemma build_reverse_result (keys : list page) (todo : corpus_t) (rc : dict (list page)) :
  dict_keys rc = keys ->
  (forallb (fun kv => subsetb (elements (snd kv)) keys) todo = true ->
   exists rc', build_reverse todo rc = Ok rc' /\ dict_keys rc' = keys)
  /\ (forallb (fun kv => subsetb (elements (snd kv)) keys) todo = false ->
      build_reverse todo rc = Raise KeyError).
Proof.
  unfold build_reverse. revert rc. induction todo as [|[k v] todo IH]; intros rc Hk; simpl.
  - split; [intros _; eauto | discriminate].
  - destruct (reverse_add_loop_result k (elements v) rc) as [H1 H2]. rewrite Hk in H1, H2.
    destruct (subsetb (elements v) keys); simpl andb.
    + destruct (H1 eq_refl) as [rc1 [Hr Hk1]]. rewrite Hr. simpl bind.
      apply IH. congruence.
    + rewrite (H2 eq_refl). simpl bind. split; [discriminate | reflexivity].
Qed.

(** X11: the set-up of [iterate_pagerank] (lines 129-135) fails in exactly
    two ways.  An empty corpus raises [ZeroDivisionError] at line 132; a
    non-empty corpus with a link target that is not a key raises
    [KeyError] at line 135; every other corpus passes the set-up. *)
Theorem iterate_pagerank_setup_errors (corpus : corpus_t) (d : Q) (fuel : nat) :
  (corpus = [] -> iterate_pagerank fuel corpus d = Some (Raise ZeroDivisionError)) /\
  (corpus <> [] -> corpus_invariant corpus = false ->
   iterate_pagerank fuel corpus d = Some (Raise KeyError)) /\
  (corpus <> [] -> corpus_invariant corpus = true ->
   exists prev0 rc rv, iterate_init corpus d = Ok (prev0, rc, rv)).
Proof.
  split; [|split].
  - intros ->. reflexivity.
  - intros Hne Hinv. unfold iterate_pagerank, iterate_init, py_div.
    assert (Qeq_bool (Qnat (length (dict_keys corpus))) 0 = false) as ->.
    { apply Qnat_eq_bool. destruct corpus; [congruence | discriminate]. }
    simpl bind.
    destruct (build_reverse_result (dict_keys corpus) corpus
                (map (fun k => (k, [])) (dict_keys corpus))
                (dict_keys_map_key _ _)) as [_ H].
    rewrite (H Hinv). reflexivity.
  - intros Hne Hinv. unfold iterate_init, py_div.
    assert (Qeq_bool (Qnat (length (dict_keys corpus))) 0 = false) as ->.
    { apply Qnat_eq_bool. destruct corpus; [congruence | discriminate]. }
    simpl bind.
    destruct (build_reverse_result (dict_keys corpus) corpus
                (map (fun k => (k, [])) (dict_keys corpus))
                (dict_keys_map_key _ _)) as [H _].
    destruct (H Hinv) as [rc [Hr _]]. rewrite Hr. simpl bind. eauto.
Qed.

(** X12: [sample_pagerank] on an empty corpus raises [IndexError] (line 109,
    [random.choice] of an empty list), whatever the other arguments; on a
    non-empty corpus with [n = 0] it draws nothing and returns the empty
    table. *)
Theorem sample_pagerank_edge_cases
    (corpus : corpus_t) (d : Q) (n r : nat) (draws : nat -> Q) :
  (corpus = [] -> sample_pagerank corpus d n r draws = Raise IndexError) /\
  (corpus <> [] -> sample_pagerank corpus d 0 r draws = Ok []).
Proof.
  split.
  - intros ->. reflexivity.
  - intros Hne. destruct (random_choice_ok corpus r Hne) as [start [Hs _]].
    unfold sample_pagerank, sample_walk. rewrite Hs. reflexivity.
Qed.

(** ** The tables the estimators return *)

Lemma NoDup_dict_set {V : Type} (d : dict V) (k : page) (v : V) :
  NoDup (dict_keys d) -> NoDup (dict_keys (dict_set d k v)).
Proof.
  intros H. destruct (in_dec string_dec k (dict_keys d)) as [Hin|Hn].
  - now rewrite dict_keys_set_in.
  - rewrite dict_set_fresh by exact Hn. unfold dict_keys in *. rewrite map_app. simpl.
    apply NoDup_app; [exact H | repeat constructor; intros [] |].
    intros x Hx [<-|[]]. contradiction.
Qed.

Lemma In_dict_set {V : Type} (d : dict V) (k k' : page) (v v' : V) :
  In (k', v') (dict_set d k v) -> (k' = k /\ v' = v) \/ In (k', v') d.
Proof.
  induction d as [|[k0 v0] d IH]; simpl.
  - intros [[= <- <-]|[]]. now left.
  - destruct (String.eqb k0 k) eqn:E; simpl.
    + apply String.eqb_eq in E. subst k0. intros [[= <- <-]|H]; [now left | right; now right].
    + intros [H|H]; [right; now left|]. destruct (IH H) as [H'|H']; [now left | right; now right].
Qed.

Lemma for_each_invariant {A S : Type} (P : S -> Prop) (body : S -> A -> result S)
    (l : list A) (st st' : S) :
  (forall s x s', P s -> body s x = Ok s' -> P s') ->
  P st -> for_each body l st = Ok st' -> P st'.
Proof.
  intros Hbody. revert st. induction l as [|x l IH]; intros st HP; simpl.
  - now intros [= <-].
  - destruct (body st x) as [s1|e] eqn:Hb; simpl; [|discriminate].
    apply IH. exact (Hbody _ _ _ HP Hb).
Qed.

Lemma In_le_list_sum (counts : dict nat) (k : page) (c : nat) :
  In (k, c) counts -> (c <= list_sum (dict_values counts))%nat.
Proof.
  unfold dict_values. induction counts as [|[k' c'] counts IH]; simpl; [contradiction|].
  intros [[= <- <-]|H]; [lia|]. specialize (IH H). lia.
Qed.

Lemma Qnat_le (a b : nat) : (a <= b)%nat -> Qnat a <= Qnat b.
Proof.
  intros H. unfold Qnat. rewrite <- Zle_Qle. lia.
Qed.

(** The counters of the walk have distinct keys and are all at least 1. *)
Lemma sample_steps_counts (corpus : corpus_t) (d : Q) (draws : nat -> Q)
    (l : list nat) (pg pg' : page) (counts' : dict nat) :
  for_each (sample_step corpus d draws) l (pg, []) = Ok (pg', counts') ->
  NoDup (dict_keys counts') /\ forall k c, In (k, c) counts' -> (1 <= c)%nat.
Proof.
  apply (for_each_invariant
           (fun st : page * dict nat =>
              NoDup (dict_keys (snd st)) /\ forall k c, In (k, c) (snd st) -> (1 <= c)%nat)
           (sample_step corpus d draws) l (pg, []) (pg', counts')).
  - intros [p counts] i s' [Hnd Hpos]. unfold sample_step. simpl fst. simpl snd.
    destruct (transition_model corpus p d) as [model|e]; simpl bind; [|discriminate].
    destruct (choice (dict_keys model) (dict_values model) (draws i)) as [q|e];
      simpl bind; [|discriminate].
    intros [= <-]. simpl snd. unfold counts_incr. split.
    + now apply NoDup_dict_set.
    + intros k c Hin. apply In_dict_set in Hin. destruct Hin as [[_ ->]|Hin]; [lia|].
      exact (Hpos _ _ Hin).
  - simpl. split; [constructor | intros k c []].
Qed.

(** X13: every table [sample_pagerank] returns for [n >= 1] has pairwise
    distinct pages, and each of its values lies in (0, 1] (the docstring's
    "a value between 0 and 1"; a page never drawn has no entry instead of
    the value 0). *)
Theorem sample_pagerank_value_range
    (corpus : corpus_t) (d : Q) (n r : nat) (draws : nat -> Q) (table : dict Q) :
  (1 <= n)%nat ->
  sample_pagerank corpus d n r draws = Ok table ->
  NoDup (dict_keys table) /\ forall k v, In (k, v) table -> 0 < v /\ v <= 1.
Proof.
  intros Hn. unfold sample_pagerank, sample_walk.
  destruct (random_choice (dict_keys corpus) r) as [pg|e]; simpl bind; [|discriminate].
  destruct (for_each (sample_step corpus d draws) (seq 0 n) (pg, [])) as [[pg' counts]|e] eqn:Hw;
    simpl bind; [|discriminate].
  intros [= <-]. simpl snd.
  destruct (sample_steps_counts _ _ _ _ _ _ _ Hw) as [Hnd Hpos].
  apply sample_steps_count in Hw. simpl in Hw. rewrite length_seq in Hw.
  assert (0 < Qnat n) as HN by (apply Qnat_pos; lia).
  split.
  - unfold dict_keys. rewrite map_map. exact Hnd.
  - intros k v Hin. apply in_map_iff in Hin. destruct Hin as [[k' c] [E Hin]].
    simpl in E. injection E as <- <-.
    pose proof (Hpos _ _ Hin) as H1. pose proof (In_le_list_sum _ _ _ Hin) as H2.
    rewrite Hw in H2. cbn [fst snd]. split.
    + apply Qlt_shift_div_l; [exact HN|]. assert (0 < Qnat c) by (apply Qnat_pos; lia). lra.
    + apply Qle_shift_div_r; [exact HN|]. pose proof (Qnat_le _ _ H2). lra.
Qed.

Lemma sample_pagerank_value_range_witness :
  exists table,
    sample_pagerank corpus_dangling (85 # 100) 3 0 (fun _ => 1 # 2) = Ok table /\
    NoDup (dict_keys table) /\ forall k v, In (k, v) table -> 0 < v /\ v <= 1.
Proof.
  destruct (sample_pagerank corpus_dangling (85 # 100) 3 0 (fun _ => 1 # 2))
    as [table|e] eqn:E.
  - exists table. split; [reflexivity|].
    apply (sample_pagerank_value_range corpus_dangling (85 # 100) 3 0 (fun _ => 1 # 2));
      [lia | exact E].
  - vm_compute in E. discriminate.
Defined.

Lemma iterate_init_ok (corpus : corpus_t) (d : Q) :
  well_formed corpus = true ->
  corpus_invariant corpus = true ->
  corpus <> [] ->
  iterate_init corpus d
  = Ok (map (fun p => (p, 1 / Qnat (length (dict_keys corpus)))) (dict_keys corpus),
        map (fun p => (p, linkers corpus p)) (dict_keys corpus),
        (1 - d) / Qnat (length (dict_keys corpus))).
Proof.
  intros Hwf Hinv Hne. unfold iterate_init, py_div.
  assert (Qeq_bool (Qnat (length (dict_keys corpus))) 0 = false) as ->.
  { apply Qnat_eq_bool. destruct corpus; [congruence | discriminate]. }
  simpl bind. rewrite (build_reverse_spec _ Hwf Hinv). simpl bind.
  rewrite combine_ones1, dict_of_items_nodup
    by (rewrite map_map; simpl; rewrite map_id; now apply well_formed_keys).
  reflexivity.
Qed.

Lemma Qdiv_nonneg (a b : Q) : 0 <= a -> 0 <= b -> 0 <= a / b.
Proof.
  intros Ha Hb. unfold Qdiv. apply Qmult_le_0_compat; [exact Ha|].
  now apply Qinv_le_0_compat.
Qed.

Lemma py_sum_nonneg (l : list Q) : (forall w, In w l -> 0 <= w) -> 0 <= py_sum l.
Proof.
  induction l as [|x l IH]; intros H.
  - unfold py_sum. simpl. lra.
  - rewrite py_sum_cons. pose proof (H x (or_introl eq_refl)).
    assert (0 <= py_sum l) by (apply IH; intros w Hw; apply H; now right). lra.
Qed.

Lemma py_sum_ge_elem (l : list Q) (v : Q) :
  (forall w, In w l -> 0 <= w) -> In v l -> v <= py_sum l.
Proof.
  induction l as [|x l IH]; intros H Hin; [contradiction|].
  rewrite py_sum_cons. pose proof (H x (or_introl eq_refl)) as Hx.
  assert (forall w, In w l -> 0 <= w) as Hl by (intros w Hw; apply H; now right).
  destruct Hin as [->|Hin].
  - pose proof (py_sum_nonneg l Hl). lra.
  - specialize (IH Hl Hin). lra.
Qed.

Lemma rank_share_nonneg (corpus : corpus_t) (prev : dict Q) (q : page) :
  (forall k v, In (k, v) prev -> 0 < v) -> 0 <= rank_share corpus prev q.
Proof.
  intros Hpos. unfold rank_share. apply Qdiv_nonneg; [|apply Qnat_nonneg].
  unfold rank_of. destruct (dict_get prev q) as [r|] eqn:Hg; [|lra].
  apply dict_get_In in Hg. specialize (Hpos _ _ Hg). lra.
Qed.

(** On a valid corpus, from a positive table over the corpus pages, one
    iteration raises nothing and yields a positive table over the same
    pages that sums to 1. *)
Lemma iteration_ok (corpus : corpus_t) (d : Q) (prev : dict Q) :
  well_formed corpus = true ->
  corpus <> [] ->
  0 < d -> d < 1 ->
  dict_keys prev = dict_keys corpus ->
  (forall k v, In (k, v) prev -> 0 < v) ->
  exists next c,
    iteration corpus d (map (fun p => (p, linkers corpus p)) (dict_keys corpus))
      ((1 - d) / Qnat (length (dict_keys corpus))) prev = Ok (next, c) /\
    dict_keys next = dict_keys corpus /\
    (forall k v, In (k, v) next -> 0 < v) /\
    py_sum (dict_values next) == 1.
Proof.
  intros Hwf Hne Hd0 Hd1 Hk Hpos.
  assert (0 < Qnat (length (dict_keys corpus))) as HN.
  { apply Qnat_pos. destruct corpus; [congruence | simpl; lia]. }
  assert (0 < (1 - d) / Qnat (length (dict_keys corpus))) as Hrv
      by (apply Qlt_shift_div_l; lra).
  unfold iteration. rewrite (sweep_spec _ _ _ _ Hwf Hk). simpl bind.
  set (raw := map (fun kv : page * Q =>
                     (fst kv, (1 - d) / Qnat (length (dict_keys corpus))
                              + d * inbound_total corpus prev (linkers corpus (fst kv))))
                prev).
  assert (forall k v, In (k, v) raw -> 0 < v) as Hraw.
  { intros k v Hin. apply in_map_iff in Hin. destruct Hin as [kv [E _]].
    injection E as _ <-.
    assert (0 <= inbound_total corpus prev (linkers corpus (fst kv))) as H0.
    { rewrite inbound_total_sum. apply py_sum_nonneg. intros w Hw.
      apply in_map_iff in Hw. destruct Hw as [q [<- _]].
      now apply rank_share_nonneg. }
    assert (0 <= d * inbound_total corpus prev (linkers corpus (fst kv)))
      by (apply Qmult_le_0_compat; lra).
    lra. }
  assert (raw <> []) as Hrne.
  { unfold raw. destruct prev; [|discriminate].
    simpl in Hk. destruct corpus; [congruence | discriminate]. }
  assert (0 < py_sum (dict_values raw)) as Hsum.
  { apply py_sum_pos.
    - destruct raw; [congruence | discriminate].
    - intros w Hw. apply in_map_iff in Hw. destruct Hw as [[k v] [<- Hin]].
      exact (Hraw _ _ Hin). }
  assert (renormalize raw
          = Ok (map (fun kv => (fst kv, snd kv / py_sum (dict_values raw))) raw)) as Hren.
  { unfold renormalize. apply comprehension_total. intros kv _. unfold py_div.
    assert (Qeq_bool (py_sum (dict_values raw)) 0 = false) as ->; [|reflexivity].
    destruct (Qeq_bool (py_sum (dict_values raw)) 0) eqn:E; [|reflexivity].
    apply Qeq_bool_iff in E. lra. }
  rewrite Hren. simpl bind.
  set (next := map (fun kv => (fst kv, snd kv / py_sum (dict_values raw))) raw) in *.
  assert (dict_keys next = dict_keys prev) as Hkn.
  { unfold next, raw, dict_keys. now rewrite !map_map. }
  destruct (is_converged_defined prev next Hkn) as [c Hc]. rewrite Hc. simpl bind.
  exists next, c. split; [reflexivity|]. split; [congruence|]. split.
  - intros k v Hin. apply in_map_iff in Hin. destruct Hin as [[k' v'] [E Hin]].
    injection E as _ <-. simpl. apply Qlt_shift_div_l; [exact Hsum|].
    pose proof (Hraw _ _ Hin). lra.
  - exact (proj1 (renormalize_sum _ _ Hren Hrne)).
Qed.

Lemma iterate_loop_valid (corpus : corpus_t) (d : Q) (fuel : nat) (prev : dict Q) :
  well_formed corpus = true ->
  corpus <> [] ->
  0 < d -> d < 1 ->
  dict_keys prev = dict_keys corpus ->
  (forall k v, In (k, v) prev -> 0 < v) ->
  py_sum (dict_values prev) == 1 ->
  iterate_loop fuel corpus d (map (fun p => (p, linkers corpus p)) (dict_keys corpus))
    ((1 - d) / Qnat (length (dict_keys corpus))) prev = None
  \/ exists table,
       iterate_loop fuel corpus d (map (fun p => (p, linkers corpus p)) (dict_keys corpus))
         ((1 - d) / Qnat (length (dict_keys corpus))) prev = Some (Ok table) /\
       dict_keys table = dict_keys corpus /\
       (forall k v, In (k, v) table -> 0 < v) /\
       py_sum (dict_values table) == 1.
Proof.
  intros Hwf Hne Hd0 Hd1. revert prev.
  induction fuel as [|fuel IH]; intros prev Hk Hpos Hsum; simpl; [now left|].
  destruct (iteration_ok corpus d prev Hwf Hne Hd0 Hd1 Hk Hpos)
    as [next [c [Hit [Hkn [Hposn Hsumn]]]]].
  rewrite Hit. destruct c.
  - right. exists prev. repeat split; assumption.
  - now apply IH.
Qed.

Lemma iterate_run_valid (corpus : corpus_t) (d : Q) (fuel : nat) :
  well_formed corpus = true ->
  corpus_invariant corpus = true ->
  corpus <> [] ->
  0 < d -> d < 1 ->
  iterate_pagerank fuel corpus d = None
  \/ exists table,
       iterate_pagerank fuel corpus d = Some (Ok table) /\
       dict_keys table = dict_keys corpus /\
       forall k v, In (k, v) table -> 0 < v /\ v <= 1.
Proof.
  intros Hwf Hinv Hne Hd0 Hd1. unfold iterate_pagerank.
  rewrite (iterate_init_ok corpus d Hwf Hinv Hne).
  assert (0 < Qnat (length (dict_keys corpus))) as HN.
  { apply Qnat_pos. destruct corpus; [congruence | simpl; lia]. }
  destruct (iterate_loop_valid corpus d fuel
              (map (fun p => (p, 1 / Qnat (length (dict_keys corpus)))) (dict_keys corpus))
              Hwf Hne Hd0 Hd1) as [H|[table [Ht [Hk [Hpos Hsum]]]]].
  - apply dict_keys_map_key.
  - intros k v Hin. apply in_map_iff in Hin. destruct Hin as [p [E _]].
    injection E as _ <-. apply Qlt_shift_div_l; lra.
  - unfold dict_values. rewrite map_map. simpl. rewrite py_sum_map_const. field. lra.
  - now left.
  - right. exists table. split; [exact Ht|]. split; [exact Hk|].
    intros k v Hin. split; [exact (Hpos _ _ Hin)|].
    rewrite <- Hsum. apply py_sum_ge_elem.
    + intros w Hw. apply in_map_iff in Hw. destruct Hw as [[k' v'] [<- Hin']].
      pose proof (Hpos _ _ Hin'). simpl. lra.
    + apply (in_map snd) in Hin. exact Hin.
Qed.

(** X14: on a well-formed, non-empty corpus that satisfies the Corpus
    invariant, with damping in (0,1), [iterate_pagerank] raises no
    exception: it is either still iterating when the fuel ends or returns a
    table.  Every returned table has exactly the corpus pages as keys, in
    corpus order, and each of its values lies in (0, 1]. *)
Theorem iterate_pagerank_valid_run (corpus : corpus_t) (d : Q) (fuel : nat) :
  well_formed corpus = true ->
  corpus_invariant corpus = true ->
  corpus <> [] ->
  0 < d -> d < 1 ->
  iterate_pagerank fuel corpus d = None
  \/ exists table,
       iterate_pagerank fuel corpus d = Some (Ok table) /\
       dict_keys table = dict_keys corpus /\
       forall k v, In (k, v) table -> 0 < v /\ v <= 1.
Proof.
  exact (iterate_run_valid corpus d fuel).
Qed.

Lemma iterate_pagerank_valid_run_witness :
  iterate_pagerank 12 corpus_dangling (85 # 100) = None
  \/ exists table,
       iterate_pagerank 12 corpus_dangling (85 # 100) = Some (Ok table) /\
       dict_keys table = dict_keys corpus_dangling /\
       forall k v, In (k, v) table -> 0 < v /\ v <= 1.
Proof.
  apply (iterate_pagerank_valid_run corpus_dangling (85 # 100) 12).
  - reflexivity.
  - reflexivity.
  - discriminate.
  - reflexivity.
  - reflexivity.
Defined.

(** ** The binary search on a non-decreasing list *)

(** On a non-decreasing list the search splits the list at its result:
    everything before it is at most [x], everything from it on is above. *)
Lemma bisect_split (a : list Q) (x : Q) :
  (forall i j, (i <= j)%nat -> (j < length a)%nat -> nth i a 0 <= nth j a 0) ->
  (bisect a x <= length a)%nat /\
  (forall i, (i < bisect a x)%nat -> nth i a 0 <= x) /\
  (forall i, (bisect a x <= i)%nat -> (i < length a)%nat -> x < nth i a 0).
Proof.
  intros Hsorted. unfold bisect.
  pose proof (bisect_loop_post (length a) a x 0 (length a)) as Hpost.
  cbv zeta in Hpost. destruct Hpost as [H1 [H2 H3]]; [lia | lia |].
  set (idx := bisect_loop (length a) a x 0 (length a)) in *.
  split; [lia|]. split.
  - intros i Hi. destruct H2 as [H2|H2]; [lia|].
    apply Qle_trans with (nth (idx - 1) a 0); [|exact H2].
    apply Hsorted; lia.
  - intros i Hi Hlen. destruct H3 as [H3|H3]; [lia|].
    apply Qlt_le_trans with (nth idx a 0); [exact H3|].
    apply Hsorted; lia.
Qed.

(** X16: on a non-decreasing list, [bisect.bisect] returns the index that
    splits the list around [x]: every element before the index is at most
    [x] and every element from the index on is strictly greater than [x];
    the index is the position of the first element above [x], or the
    length of the list when there is none. *)
Theorem bisect_sorted_split (a : list Q) (x : Q) :
  (forall i j, (i <= j)%nat -> (j < length a)%nat -> nth i a 0 <= nth j a 0) ->
  (bisect a x <= length a)%nat /\
  (forall i, (i < bisect a x)%nat -> nth i a 0 <= x) /\
  (forall i, (bisect a x <= i)%nat -> (i < length a)%nat -> x < nth i a 0).
Proof.
  exact (bisect_split a x).
Qed.

Lemma bisect_sorted_split_witness :
  (bisect cumulative_sample (1 # 2) <= length cumulative_sample)%nat /\
  (forall i, (i < bisect cumulative_sample (1 # 2))%nat ->
             nth i cumulative_sample 0 <= 1 # 2) /\
  (forall i, (bisect cumulative_sample (1 # 2) <= i)%nat ->
             (i < length cumulative_sample)%nat ->
             1 # 2 < nth i cumulative_sample 0).
Proof.
  apply (bisect_sorted_split cumulative_sample (1 # 2)).
  intros i j Hij Hj.
  destruct j as [|[|[|j]]]; [| | |simpl in Hj; lia];
    destruct i as [|[|[|i]]]; try lia; simpl; discriminate.
Defined.

(** ** The cumulative values and the selection rule on binary64 floats *)

Lemma eqb_zero_spec (w : float) :
  (w =? 0)%float = true -> exists s, Prim2SF w = S754_zero s.
Proof.
  rewrite FloatAxioms.eqb_spec. change (Prim2SF 0) with (S754_zero false).
  destruct (Prim2SF w) as [s|s| |s m e]; simpl; try discriminate.
  - intros _. now exists s.
  - destruct s; discriminate.
  - destruct s; discriminate.
Qed.

Lemma SFltb_zero_sign (X : spec_float) (a b : bool) :
  SFltb X (S754_zero a) = SFltb X (S754_zero b).
Proof. destruct X; reflexivity. Qed.

Lemma SFltb_div_zero (X T : spec_float) (a b : bool) :
  SFltb X (SFdiv prec emax (S754_zero a) T) = SFltb X (SFdiv prec emax (S754_zero b) T).
Proof.
  destruct T as [s|s| |s m e]; simpl; try reflexivity; apply SFltb_zero_sign.
Qed.

(** Adding a weight of zero to the running sum changes no comparison of
    the draw with the cumulative value: the sum is the same float, or
    both sums are zeros, whose quotients by the total compare alike. *)
Lemma float_add_zero_ltb (x s w t : float) :
  (w =? 0)%float = true ->
  (x <? (s + w) / t)%float = (x <? s / t)%float.
Proof.
  intros Hw. destruct (eqb_zero_spec w Hw) as [sw Ew].
  rewrite !ltb_spec, !div_spec, add_spec, Ew. unfold SF64div, SF64add.
  destruct (Prim2SF s) as [ss|ss| |ss m e]; try reflexivity.
  assert (exists c, SFadd prec emax (S754_zero ss) (S754_zero sw) = S754_zero c) as [c ->].
  { destruct ss, sw; simpl; eauto. }
  apply SFltb_div_zero.
Qed.

Lemma float_zero_div_ltb (x w t : float) :
  (w =? 0)%float = true -> (0 <=? x)%float = true ->
  (x <? (0 + w) / t)%float = false.
Proof.
  intros Hw Hx. rewrite (float_add_zero_ltb x 0 w t Hw).
  rewrite leb_spec in Hx. rewrite ltb_spec, div_spec. unfold SF64div.
  change (Prim2SF 0) with (S754_zero false) in *.
  destruct (Prim2SF x) as [s|s| |s m e], (Prim2SF t) as [s'|s'| |s' m' e'];
    simpl in *; try reflexivity; try discriminate; destruct s; try reflexivity; discriminate.
Qed.

Lemma float_sum_firstn_S (l : list float) (i : nat) (c : float) :
  (i < length l)%nat ->
  fold_left PrimFloat.add (firstn (S i) l) c
  = (fold_left PrimFloat.add (firstn i l) c + nth i l 0)%float.
Proof.
  revert i c. induction l as [|w l IH]; intros i c Hi; simpl in Hi; [lia|].
  destruct i as [|i].
  - reflexivity.
  - change (firstn (S (S i)) (w :: l)) with (w :: firstn (S i) l).
    change (firstn (S i) (w :: l)) with (w :: firstn i l).
    cbn [fold_left nth]. apply IH. lia.
Qed.

(** A weight of zero is never the one selected by a draw [x >= 0]. *)
Lemma float_zero_weight_skipped (weights : list float) (x : float) (i : nat) :
  (i < length weights)%nat ->
  (0 <=? x)%float = true ->
  (x <? cumulative weights i)%float = true ->
  (i = 0%nat \/ (x <? cumulative weights (i - 1))%float = false) ->
  (nth i weights 0 =? 0)%float = false.
Proof.
  intros Hi Hx Hup Hlow.
  destruct (nth i weights 0 =? 0)%float eqn:Hw; [exfalso|reflexivity].
  unfold cumulative, Float64.py_sum in *.
  rewrite float_sum_firstn_S in Hup by exact Hi.
  destruct i as [|j].
  - simpl firstn in Hup. simpl fold_left in Hup.
    rewrite (float_zero_div_ltb x _ _ Hw Hx) in Hup. discriminate.
  - destruct Hlow as [Hlow|Hlow]; [discriminate|].
    rewrite (float_add_zero_ltb x _ _ _ Hw) in Hup.
    replace (S j - 1)%nat with j in Hlow by lia.
    congruence.
Qed.

(** X15: [cdf] on binary64 floats.  A zero total of a non-empty list
    raises [ZeroDivisionError].  Otherwise [cdf] returns one value per
    weight, the value at index [i] being the rounded running sum of the
    first [i+1] weights divided by the total; when the total is finite the
    last value is exactly [1.0]. *)
Theorem cdf_binary64_values (weights : list float) :
  (weights <> [] -> (Float64.py_sum weights =? 0)%float = true ->
   Float64.cdf weights = Raise ZeroDivisionError) /\
  ((Float64.py_sum weights =? 0)%float = false ->
   exists vals, Float64.cdf weights = Ok vals /\
     length vals = length weights /\
     (forall i, (i < length weights)%nat -> nth i vals 0%float = cumulative weights i) /\
     (finite_nonzero (Float64.py_sum weights) = true ->
      nth (length weights - 1) vals 0%float = 1%float)).
Proof.
  split.
  - intros Hne Hz. unfold Float64.cdf. now apply float_cdf_loop_zero_total.
  - intros Ht. destruct (float_cdf_loop_ok _ weights Ht 0%float) as [r [Hr [Hlen Hnth]]].
    exists r. split; [exact Hr|]. split; [exact Hlen|]. split; [exact Hnth|].
    intros Hf. destruct (float_cdf_last weights Hf) as [r' [Hr' [Hl' [_ Hlast]]]].
    unfold Float64.cdf in Hr'. assert (r' = r) by congruence. subst r'.
    now rewrite <- Hlen.
Qed.

Lemma cdf_binary64_values_witness :
  Float64.cdf [0; 0]%float = Raise ZeroDivisionError /\
  exists vals, Float64.cdf tenths = Ok vals /\
    length vals = 3%nat /\ nth 1 vals 0%float = 0.5%float /\ nth 2 vals 0%float = 1%float.
Proof.
  split.
  - apply (proj1 (cdf_binary64_values [0; 0]%float));
      [discriminate | vm_compute; reflexivity].
  - destruct (proj2 (cdf_binary64_values tenths))
      as [vals [Hv [Hlen [Hnth Hlast]]]]; [vm_compute; reflexivity|].
    exists vals. split; [exact Hv|]. split; [exact Hlen|]. split.
    + rewrite (Hnth 1%nat) by (simpl; lia). vm_compute. reflexivity.
    + apply Hlast. vm_compute. reflexivity.
Defined.

(** X17: the selection rule of [choice] on binary64 floats.  For sequences
    of equal length whose total is not zero, [choice] either returns the
    element at an index [i] such that the draw is below the cumulative
    value at [i] and not below the one at [i-1] (when there is one), or
    raises [IndexError], and then the draw is not below the last
    cumulative value.  For a draw [x >= 0] the weight at the selected
    index is not zero: an element of weight 0 is never the one selected. *)
Theorem choice_binary64_selection {A : Type}
    (population : list A) (weights : list float) (x : float) :
  length population = length weights ->
  (Float64.py_sum weights =? 0)%float = false ->
  (exists i a, nth_error population i = Some a /\
     Float64.choice population weights x = Ok a /\
     (x <? cumulative weights i)%float = true /\
     (i = 0%nat \/ (x <? cumulative weights (i - 1))%float = false) /\
     ((0 <=? x)%float = true -> (nth i weights 0 =? 0)%float = false)) \/
  (Float64.choice population weights x = Raise IndexError /\
   (x <? cumulative weights (length weights - 1))%float = false).
Proof.
  intros Hlen Ht.
  assert (weights <> []) as Hne.
  { intros ->. vm_compute in Ht. discriminate. }
  assert (length weights <> 0)%nat as Hn0 by (destruct weights; [congruence | discriminate]).
  destruct (float_cdf_loop_ok _ weights Ht 0%float) as [r [Hr [Hlr Hnth]]].
  unfold Float64.choice. rewrite Hlen, Nat.eqb_refl. simpl negb. cbv iota.
  unfold Float64.cdf. rewrite Hr. simpl bind. unfold Float64.bisect.
  pose proof (float_bisect_loop_post (length r) r x 0 (length r)) as Hpost.
  simpl in Hpost. destruct Hpost as [H1 [H2 H3]]; [lia | lia |].
  set (idx := Float64.bisect_loop (length r) r x 0 (length r)) in *.
  destruct (Nat.eq_dec idx (length r)) as [E|E].
  - right. split.
    + unfold list_getitem.
      assert (nth_error population idx = None) as ->; [|reflexivity].
      apply nth_error_None. lia.
    + destruct H2 as [H2|H2]; [lia|].
      rewrite E, Hlr, Hnth in H2 by lia. exact H2.
  - left. assert (idx < length weights)%nat as Hidx by lia.
    unfold list_getitem. destruct (nth_error population idx) as [a|] eqn:Ha.
    + assert ((x <? cumulative weights idx)%float = true) as Hup.
      { destruct H3 as [H3|H3]; [lia|]. rewrite Hnth in H3 by lia. exact H3. }
      assert (idx = 0%nat \/ (x <? cumulative weights (idx - 1))%float = false) as Hlow.
      { destruct H2 as [H2|H2]; [now left | right].
        rewrite Hnth in H2 by lia. exact H2. }
      exists idx, a. split; [exact Ha|]. split; [reflexivity|].
      split; [exact Hup|]. split; [exact Hlow|].
      intros Hx. now apply (float_zero_weight_skipped weights x idx).
    + apply nth_error_None in Ha. lia.
Qed.

Lemma choice_binary64_selection_witness :
  (exists i a, nth_error ["a"; "b"; "c"]%string i = Some a /\
     Float64.choice ["a"; "b"; "c"]%string tenths 0.5%float = Ok a /\
     (0.5 <? cumulative tenths i)%float = true /\
     (i = 0%nat \/ (0.5 <? cumulative tenths (i - 1))%float = false) /\
     ((0 <=? 0.5)%float = true -> (nth i tenths 0 =? 0)%float = false)) \/
  (Float64.choice ["a"; "b"; "c"]%string tenths 0.5%float = Raise IndexError /\
   (0.5 <? cumulative tenths (length tenths - 1))%float = false).
Proof.
  apply (choice_binary64_selection ["a"; "b"; "c"]%string tenths 0.5%float).
  - reflexivity.
  - vm_compute. reflexivity.
Defined.

(** On the floats of [[0.1; 0.2; 0.3]] the cumulative values are
    [[0.16666666666666666; 0.5; 1.0]]: the second running sum,
    [0.30000000000000004], divided by the total [0.6000000000000001]
    rounds to [0.5], so the draw [0.5] selects the third element. *)
Example choice_tenths :
  Float64.cdf tenths = Ok [0x1.5555555555555p-3; 0.5; 1]%float /\
  Float64.choice ["a"; "b"; "c"]%string tenths 0.5%float = Ok "c"%string.
Proof.
  split; vm_compute; reflexivity.
Qed.

(** ** is_converged *)

Lemma comprehension_raises {A B : Type} (f : A -> result B) (l : list A) (e : exn) :
  (forall x e', f x = Raise e' -> e' = e) ->
  (exists x, In x l /\ f x = Raise e) ->
  comprehension f l = Raise e.
Proof.
  intros Honly. induction l as [|x l IH]; intros [y [Hin Hy]]; [contradiction|].
  simpl. destruct (f x) as [b|e'] eqn:Hx; simpl.
  - destruct Hin as [->|Hin]; [congruence|].
    rewrite IH by eauto. reflexivity.
  - now rewrite (Honly _ _ Hx).
Qed.

Lemma is_converged_defined_incl (prev_pr next_pr : dict Q) :
  (forall k, In k (dict_keys prev_pr) -> In k (dict_keys next_pr)) ->
  exists b, is_converged prev_pr next_pr = Ok b.
Proof.
  intros Hk. unfold is_converged.
  rewrite (comprehension_total _
             (fun kv => Qle_bool (Qabs (rank_of next_pr (fst kv) - snd kv)) EPSILON)).
  - simpl. eauto.
  - intros [p v] Hin. apply (proj1 (In_sorted _ _)) in Hin. simpl.
    assert (In p (dict_keys next_pr)) as Hp.
    { apply Hk. apply (in_map fst) in Hin. exact Hin. }
    destruct (dict_get_key_Some _ _ Hp) as [nv Hg].
    unfold getitem, rank_of. now rewrite Hg.
Qed.

(** X18: [is_converged] looks up every page of the previous table in the
    new table.  If a page of the previous table is missing from the new one
    it raises [KeyError]; otherwise it returns a boolean, and pages that
    only the new table has are ignored.  A table with distinct pages is
    converged with respect to itself. *)
Theorem is_converged_lookup (prev_pr next_pr : dict Q) :
  ((exists k, In k (dict_keys prev_pr) /\ ~ In k (dict_keys next_pr)) ->
   is_converged prev_pr next_pr = Raise KeyError) /\
  ((forall k, In k (dict_keys prev_pr) -> In k (dict_keys next_pr)) ->
   exists b, is_converged prev_pr next_pr = Ok b) /\
  (NoDup (dict_keys prev_pr) -> is_converged prev_pr prev_pr = Ok true).
Proof.
  split; [|split].
  - intros [k [Hin Hn]]. unfold is_converged.
    rewrite (comprehension_raises _ _ KeyError); [reflexivity | |].
    + intros [p v] e. simpl. unfold getitem.
      destruct (dict_get next_pr p); simpl; [discriminate | congruence].
    + apply in_map_iff in Hin. destruct Hin as [[p v] [E Hin]]. simpl in E. subst p.
      exists (k, v). split; [now apply In_sorted|].
      simpl. unfold getitem. apply dict_get_None in Hn. now rewrite Hn.
  - apply is_converged_defined_incl.
  - intros Hnd. destruct (is_converged_defined_incl prev_pr prev_pr (fun k H => H)) as [b Hb].
    rewrite Hb. f_equal. apply (is_converged_spec _ _ _ Hb).
    intros p v Hin. exists v. split; [now apply In_dict_get|].
    assert (v - v == 0) as -> by ring. discriminate.
Qed.

(** ** The pipeline of main (lines 16-21) *)

(** X19: [crawl] followed by the two estimators, as [main] runs them.  For
    a directory with distinct names: without any [.html] file the corpus is
    empty and [sample_pagerank] raises [IndexError]; with at least one
    [.html] file and damping in (0,1), [sample_pagerank] returns a table
    for every [n] and every random source, and [iterate_pagerank] raises
    nothing. *)
Theorem crawl_then_rank (files : directory) :
  NoDup (map fst files) ->
  (html_files files = [] ->
   crawl files = Ok [] /\
   forall d n r draws, sample_pagerank [] d n r draws = Raise IndexError) /\
  (html_files files <> [] ->
   exists corpus,
     crawl files = Ok corpus /\
     forall d, 0 < d -> d < 1 ->
       (forall n r draws,
          (forall i, 0 <= draws i /\ draws i < 1) ->
          exists table, sample_pagerank corpus d n r draws = Ok table) /\
       (forall fuel,
          iterate_pagerank fuel corpus d = None
          \/ exists table, iterate_pagerank fuel corpus d = Some (Ok table))).
Proof.
  intros Hnd. rewrite (crawl_spec files Hnd).
  destruct (crawl_corpus_well_formed files Hnd) as [Hwf Hinv]. split.
  - intros ->. split; reflexivity.
  - intros Hne. eexists. split; [reflexivity|].
    set (corpus := map (fun fl : page * list page =>
                          (fst fl, PySet (kept_links (map fst (html_files files)) fl)))
                     (html_files files)) in *.
    assert (corpus <> []) as Hc.
    { unfold corpus. destruct (html_files files); [congruence | discriminate]. }
    intros d Hd0 Hd1. split.
    + intros n r draws Hdraws.
      destruct (sample_walk_spec corpus d n r draws Hwf Hinv Hc Hd0 Hd1 Hdraws)
        as [start [visited [pg' [_ [_ [_ Hw]]]]]].
      unfold sample_pagerank. rewrite Hw. simpl bind. eauto.
    + intros fuel.
      destruct (iterate_run_valid corpus d fuel Hwf Hinv Hc Hd0 Hd1)
        as [H|[table [Ht _]]]; [now left | right; eauto].
Qed.

Lemma crawl_then_rank_witness :
  (html_files sample_directory = [] ->
   crawl sample_directory = Ok [] /\
   forall d n r draws, sample_pagerank [] d n r draws = Raise IndexError) /\
  (html_files sample_directory <> [] ->
   exists corpus,
     crawl sample_directory = Ok corpus /\
     forall d, 0 < d -> d < 1 ->
       (forall n r draws,
          (forall i, 0 <= draws i /\ draws i < 1) ->
          exists table, sample_pagerank corpus d n r draws = Ok table) /\
       (forall fuel,
          iterate_pagerank fuel corpus d = None
          \/ exists table, iterate_pagerank fuel corpus d = Some (Ok table))).
Proof.
  apply (crawl_then_rank sample_directory).
  apply nodupb_NoDup. reflexivity.
Defined.

(** ** Pages of the sampled table *)

Lemma choice_Ok_In {A : Type} (population : list A) (weights : list Q) (x : Q) (a : A) :
  choice population weights x = Ok a -> In a population.
Proof.
  unfold choice. destruct (negb (length population =? length weights)%nat); [discriminate|].
  destruct (cdf weights) as [c|e]; simpl bind; [|discriminate].
  unfold choice_at, list_getitem.
  destruct (nth_error population (bisect c x)) as [b|] eqn:Hn; [|discriminate].
  intros [= <-]. eapply nth_error_In; eauto.
Qed.

Lemma dict_keys_set_incl {V : Type} (d : dict V) (k : page) (v : V) (x : page) :
  In x (dict_keys (dict_set d k v)) -> x = k \/ In x (dict_keys d).
Proof.
  intros H. apply in_map_iff in H. destruct H as [[k' v'] [E Hin]]. simpl in E. subst k'.
  apply In_dict_set in Hin. destruct Hin as [[-> _]|Hin]; [now left|].
  right. apply (in_map fst) in Hin. exact Hin.
Qed.

(** X20: on a well-formed corpus satisfying the Corpus invariant, every
    page in a table [sample_pagerank] returns is a page of the corpus. *)
Theorem sample_pagerank_pages
    (corpus : corpus_t) (d : Q) (n r : nat) (draws : nat -> Q) (table : dict Q) :
  well_formed corpus = true ->
  corpus_invariant corpus = true ->
  sample_pagerank corpus d n r draws = Ok table ->
  forall k, In k (dict_keys table) -> In k (dict_keys corpus).
Proof.
  intros Hwf Hinv. unfold sample_pagerank, sample_walk.
  destruct (random_choice (dict_keys corpus) r) as [pg|e]; simpl bind; [|discriminate].
  destruct (for_each (sample_step corpus d draws) (seq 0 n) (pg, [])) as [[pg' counts]|e] eqn:Hw;
    simpl bind; [|discriminate].
  intros [= <-]. simpl snd. intros k Hk.
  unfold dict_keys in Hk. rewrite map_map in Hk. simpl in Hk. revert k Hk.
  change (forall k, In k (dict_keys (snd (pg', counts))) -> In k (dict_keys corpus)).
  apply (for_each_invariant
           (fun st : page * dict nat =>
              forall k, In k (dict_keys (snd st)) -> In k (dict_keys corpus))
           (sample_step corpus d draws) (seq 0 n) (pg, []) (pg', counts));
    [| |exact Hw].
  - intros [p c] i s' HP. unfold sample_step. simpl fst. simpl snd.
    destruct (transition_model corpus p d) as [model|e] eqn:Hm; simpl bind; [|discriminate].
    destruct (choice (dict_keys model) (dict_values model) (draws i)) as [q|e] eqn:Hc;
      simpl bind; [|discriminate].
    intros [= <-]. simpl snd. intros k Hk. unfold counts_incr in Hk.
    apply dict_keys_set_incl in Hk. destruct Hk as [->|Hk]; [|now apply HP].
    apply choice_Ok_In in Hc.
    assert (exists v, dict_get corpus p = Some v) as [v Hg].
    { unfold transition_model, getitem in Hm.
      destruct (dict_get corpus p) as [v|]; [eauto | discriminate]. }
    destruct (transition_model_keys corpus p d v Hwf Hinv Hg) as [t [Ht [_ HP']]].
    assert (t = model) by congruence. subst t.
    exact (Permutation_in _ HP' Hc).
  - intros k [].
Qed.

Lemma sample_pagerank_pages_witness :
  exists table,
    sample_pagerank corpus_dangling (85 # 100) 3 0 (fun _ => 1 # 2) = Ok table /\
    forall k, In k (dict_keys table) -> In k (dict_keys corpus_dangling).
Proof.
  destruct (sample_pagerank corpus_dangling (85 # 100) 3 0 (fun _ => 1 # 2))
    as [table|e] eqn:E.
  - exists table. split; [reflexivity|].
    apply (sample_pagerank_pages corpus_dangling (85 # 100) 3 0 (fun _ => 1 # 2) table);
      [reflexivity | reflexivity | exact E].
  - vm_compute in E. discriminate.
Defined.

(** ** The rank a sweep hands out *)

Lemma py_sum_map_ext {A : Type} (f g : A -> Q) (l : list A) :
  (forall x, In x l -> f x == g x) -> py_sum (map f l) == py_sum (map g l).
Proof.
  induction l as [|x l IH]; intros H; simpl; [reflexivity|].
  rewrite !py_sum_cons, (H x (or_introl eq_refl)), IH; [reflexivity|].
  intros y Hy. apply H. now right.
Qed.

Lemma py_sum_map_plus {A : Type} (f g : A -> Q) (l : list A) :
  py_sum (map (fun x => f x + g x) l) == py_sum (map f l) + py_sum (map g l).
Proof.
  induction l as [|x l IH]; simpl.
  - unfold py_sum. simpl. ring.
  - rewrite !py_sum_cons, IH. ring.
Qed.

Lemma py_sum_map_scale {A : Type} (c : Q) (f : A -> Q) (l : list A) :
  py_sum (map (fun x => c * f x) l) == c * py_sum (map f l).
Proof.
  induction l as [|x l IH]; simpl.
  - unfold py_sum. simpl. ring.
  - rewrite !py_sum_cons, IH. ring.
Qed.

Lemma py_sum_filter {A : Type} (f : A -> Q) (g : A -> bool) (l : list A) :
  py_sum (map f (filter g l)) == py_sum (map (fun x => if g x then f x else 0) l).
Proof.
  induction l as [|x l IH]; simpl; [reflexivity|].
  rewrite py_sum_cons, <- IH. destruct (g x); simpl.
  - now rewrite py_sum_cons.
  - ring.
Qed.

(** Exchanging the order of a double sum. *)
Lemma py_sum_swap {A B : Type} (F : A -> B -> Q) (la : list A) (lb : list B) :
  py_sum (map (fun a => py_sum (map (F a) lb)) la)
  == py_sum (map (fun b => py_sum (map (fun a => F a b) la)) lb).
Proof.
  induction la as [|a la IH]; simpl.
  - rewrite (py_sum_map_const (py_sum []) lb). unfold py_sum. simpl. ring.
  - rewrite py_sum_cons, IH.
    rewrite (py_sum_map_ext
               (fun b => py_sum (F a b :: map (fun a0 => F a0 b) la))
               (fun b => F a b + py_sum (map (fun a0 => F a0 b) la)))
      by (intros b _; apply py_sum_cons).
    now rewrite py_sum_map_plus.
Qed.

(** A set of corpus pages is counted once per element along the keys. *)
Lemma py_sum_members (keys out : list page) (c : Q) :
  NoDup keys -> NoDup out -> incl out keys ->
  py_sum (map (fun p => if set_mem p out then c else 0) keys) == Qnat (length out) * c.
Proof.
  intros Hk Ho Hincl.
  rewrite <- (py_sum_filter (fun _ => c) (fun p => set_mem p out) keys).
  rewrite py_sum_map_const.
  assert (length (filter (fun p => set_mem p out) keys) = length out) as ->; [|reflexivity].
  apply Permutation_length, NoDup_Permutation; [now apply NoDup_filter | exact Ho |].
  intros p. rewrite filter_In, set_mem_iff. split; [tauto|].
  intros H. split; [now apply Hincl | exact H].
Qed.

Lemma values_as_ranks (corpus : corpus_t) (prev : dict Q) :
  NoDup (dict_keys corpus) ->
  dict_keys prev = dict_keys corpus ->
  dict_values prev = map (fun kv : page * links => rank_of prev (fst kv)) corpus.
Proof.
  intros Hnd Hk. rewrite <- Hk in Hnd.
  rewrite (dict_as_map prev 0 Hnd) at 1.
  unfold dict_values. rewrite map_map. simpl. rewrite Hk.
  unfold dict_keys. rewrite map_map. reflexivity.
Qed.

(** The total of the table a sweep computes, before renormalisation. *)
Lemma sweep_total (corpus : corpus_t) (d : Q) (prev : dict Q) :
  well_formed corpus = true ->
  corpus_invariant corpus = true ->
  corpus <> [] ->
  dict_keys prev = dict_keys corpus ->
  exists raw,
    sweep corpus d (map (fun p => (p, linkers corpus p)) (dict_keys corpus))
      ((1 - d) / Qnat (length (dict_keys corpus))) prev = Ok raw /\
    py_sum (dict_values raw) == (1 - d) + d * linked_mass corpus prev.
Proof.
  intros Hwf Hinv Hne Hk. pose proof (well_formed_keys _ Hwf) as Hnd.
  assert (0 < Qnat (length (dict_keys corpus))) as HN.
  { apply Qnat_pos. destruct corpus; [congruence | simpl; lia]. }
  rewrite (sweep_spec _ _ _ _ Hwf Hk). eexists. split; [reflexivity|].
  unfold dict_values. rewrite map_map. cbn [snd fst].
  rewrite (py_sum_map_plus
             (fun _ => (1 - d) / Qnat (length (dict_keys corpus)))
             (fun kv : page * Q => d * inbound_total corpus prev (linkers corpus (fst kv)))).
  rewrite py_sum_map_const.
  rewrite (py_sum_map_scale d
             (fun kv : page * Q => inbound_total corpus prev (linkers corpus (fst kv)))).
  assert (length prev = length (dict_keys corpus)) as ->.
  { rewrite <- Hk. unfold dict_keys. now rewrite length_map. }
  assert (py_sum (map (fun kv : page * Q =>
                         inbound_total corpus prev (linkers corpus (fst kv))) prev)
          == linked_mass corpus prev) as ->; [|field; lra].
  (* sum over the pages p of the sum over the entries q of the corpus *)
  rewrite <- (map_map fst (fun k => inbound_total corpus prev (linkers corpus k))).
  change (map fst prev) with (dict_keys prev). rewrite Hk.
  rewrite (py_sum_map_ext _
             (fun k => py_sum
                         (map (fun kv : page * links =>
                                 if set_mem k (elements (snd kv))
                                 then rank_share corpus prev (fst kv) else 0)
                            corpus))).
  2:{ intros k _. rewrite inbound_total_sum. unfold linkers. rewrite map_map.
      apply (py_sum_filter (fun kv : page * links => rank_share corpus prev (fst kv))). }
  rewrite (py_sum_swap
             (fun k (kv : page * links) =>
                if set_mem k (elements (snd kv)) then rank_share corpus prev (fst kv) else 0)).
  unfold linked_mass. apply py_sum_map_ext. intros [q v] Hq. cbn [fst snd].
  pose proof (In_dict_get _ _ _ Hnd Hq) as Hg.
  rewrite py_sum_members.
  - unfold rank_share, out_degree. rewrite Hg.
    destruct (length (elements v)) as [|m] eqn:E; simpl Nat.eqb; cbv iota.
    + unfold Qnat. simpl. ring.
    + assert (0 < Qnat (S m)) by (apply Qnat_pos; lia). field. lra.
  - exact Hnd.
  - exact (well_formed_links _ _ _ Hwf Hg).
  - exact (corpus_invariant_links _ _ _ Hinv Hg).
Qed.

Lemma mass_split (corpus : corpus_t) (prev : dict Q) :
  NoDup (dict_keys corpus) ->
  dict_keys prev = dict_keys corpus ->
  linked_mass corpus prev + dangling_mass corpus prev == py_sum (dict_values prev).
Proof.
  intros Hnd Hk. rewrite (values_as_ranks corpus prev Hnd Hk).
  unfold linked_mass, dangling_mass. rewrite <- py_sum_map_plus.
  apply py_sum_map_ext. intros kv _.
  destruct (length (elements (snd kv)) =? 0)%nat; ring.
Qed.

(** X21: what a sweep does with the rank of dangling pages.  From a table
    over the corpus pages that sums to 1, the table a sweep computes sums
    (before renormalisation) to [1 - damping * D], where [D] is the total
    previous rank of the pages without outgoing links: that share is not
    handed to any page, and line 144 rescales the table to make up for it.
    On a corpus without dangling pages the sweep's table already sums to 1. *)
Theorem sweep_rank_total
    (corpus : corpus_t) (d : Q) (prev0 : dict Q) (rc : dict (list page)) (rv : Q)
    (prev : dict Q) :
  well_formed corpus = true ->
  corpus_invariant corpus = true ->
  iterate_init corpus d = Ok (prev0, rc, rv) ->
  dict_keys prev = dict_keys corpus ->
  py_sum (dict_values prev) == 1 ->
  exists raw,
    sweep corpus d rc rv prev = Ok raw /\
    py_sum (dict_values raw) == 1 - d * dangling_mass corpus prev /\
    ((forall q v, dict_get corpus q = Some v -> elements v <> []) ->
     py_sum (dict_values raw) == 1).
Proof.
  intros Hwf Hinv Hinit Hk Hsum.
  destruct (iterate_init_spec _ _ _ _ _ Hwf Hinv Hinit) as [Hne [_ [-> ->]]].
  pose proof (well_formed_keys _ Hwf) as Hnd.
  destruct (sweep_total corpus d prev Hwf Hinv Hne Hk) as [raw [Hraw Htot]].
  pose proof (mass_split corpus prev Hnd Hk) as Hsplit. rewrite Hsum in Hsplit.
  assert (linked_mass corpus prev == 1 - dangling_mass corpus prev) as Hl by lra.
  exists raw. split; [exact Hraw|]. split.
  - rewrite Htot, Hl. ring.
  - intros Hlinked. rewrite Htot, Hl.
    assert (dangling_mass corpus prev == 0) as Hz.
    { unfold dangling_mass.
      rewrite (py_sum_map_ext _ (fun _ => 0)).
      - rewrite py_sum_map_const. ring.
      - intros [q v] Hq. cbn [fst snd].
        pose proof (Hlinked q v (In_dict_get _ _ _ Hnd Hq)) as Hv.
        destruct (elements v); [congruence | reflexivity]. }
    rewrite Hz. ring.
Qed.

Lemma sweep_rank_total_witness :
  exists raw,
    sweep corpus_dangling (85 # 100)
      [("1.html"%string, []); ("2.html"%string, ["1.html"%string])] (15 # 200)
      [("1.html"%string, 1 # 2); ("2.html"%string, 1 # 2)] = Ok raw /\
    py_sum (dict_values raw)
    == 1 - (85 # 100)
           * dangling_mass corpus_dangling
               [("1.html"%string, 1 # 2); ("2.html"%string, 1 # 2)] /\
    ((forall q v, dict_get corpus_dangling q = Some v -> elements v <> []) ->
     py_sum (dict_values raw) == 1).
Proof.
  apply (sweep_rank_total corpus_dangling (85 # 100)
           [("1.html"%string, 1 # 2); ("2.html"%string, 1 # 2)]).
  - reflexivity.
  - reflexivity.
  - vm_compute. reflexivity.
  - reflexivity.
  - reflexivity.
Defined.
